(** * The network visualisation core of m3u-library-manager

    A shallow embedding of [static/js/network/core]: the data processor,
    the force-simulation wrapper, the renderer's colour-flow animation and
    highlighting, the event manager and the controller
    ([NetworkVisualization]); and of the wait for the container in
    [static/js/network/initialization.js].

    Conventions of the embedding.
    - A JavaScript number is [NaN] or a finite double, kept as the
      rational it denotes; infinities are not represented. Comparisons,
      [Math.max] and [Math.min] are exact on doubles and are computed; d3's
      scales and [Math.pow], whose results depend on the rounding of
      doubles, are taken from the runtime. The other arithmetic of the
      model (sums, products, quotients) is exact.
    - [console.warn] and [console.error] calls are recorded, in order, as
      structured messages; [console.log] tracing is left out.
    - A JavaScript [Map] from strings is a [gmap string _]; a [Set], whose
      iteration order is observable, is a duplicate-free list in insertion
      order.
    - Timers ([setTimeout]) and promises are explicit: a timer is a pair of
      its due time and the task it runs, a promise a cell of a store. *)

From Stdlib Require Import QArith Qcanon Qround Lqa.
From stdpp Require Import gmap strings list.

(** ** JavaScript values *)

Module JS.
Local Open Scope Qc_scope.

Inductive number :=
| NaN
| Num (q : Qc).

#[global] Instance number_eq_dec : EqDecision number.
Proof. solve_decision. Defined.

Definition isNaN (x : number) : bool :=
  match x with NaN => true | Num _ => false end.

Definition lift2 (f : Qc → Qc → Qc) (x y : number) : number :=
  match x, y with
  | Num a, Num b => Num (f a b)
  | _, _ => NaN
  end.

Definition add := lift2 Qcplus.
Definition sub := lift2 Qcminus.
Definition mul := lift2 Qcmult.

(** [x / y]; a zero divisor gives an infinity (or [NaN]) in JavaScript,
    which has no representation here: the model answers [NaN]. The code
    divides by the constants 48, 10 and 2 only. *)
Definition div (x y : number) : number :=
  match x, y with
  | Num a, Num b => if decide (b = 0) then NaN else Num (a / b)
  | _, _ => NaN
  end.

Definition Qc_ltb (a b : Qc) : bool := bool_decide (a < b).
Definition Qc_leb (a b : Qc) : bool := bool_decide (a <= b).
Definition Qc_max (a b : Qc) : Qc := if Qc_ltb a b then b else a.
Definition Qc_min (a b : Qc) : Qc := if Qc_ltb b a then b else a.

(** [x < y]: false as soon as an operand is [NaN]. *)
Definition lt (x y : number) : bool :=
  match x, y with
  | Num a, Num b => Qc_ltb a b
  | _, _ => false
  end.

(** [Math.max(x, y)] and [Math.min(x, y)]. *)
Definition Math_max := lift2 Qc_max.
Definition Math_min := lift2 Qc_min.

Definition of_nat (n : nat) : number := Num (Q2Qc (inject_Z (Z.of_nat n))).
Definition of_Z (z : Z) : number := Num (Q2Qc (inject_Z z)).

(** The values a [value] field holds: absent, a number or a string. *)
Inductive value :=
| VUndefined
| VNumber (x : number)
| VString (s : string).

(** ToBoolean. *)
Definition truthy (v : value) : bool :=
  match v with
  | VUndefined => false
  | VNumber NaN => false
  | VNumber (Num q) => negb (bool_decide (q = 0))
  | VString s => negb (bool_decide (s = EmptyString))
  end.

(** [a || b]. *)
Definition or_else (a b : value) : value := if truthy a then a else b.

End JS.

(** ** Exceptions and console *)

(** The exceptions the modelled code can raise: a property read on [null]
    or [undefined], and a read of a [const] before its initialisation. *)
Inductive js_error :=
| TypeError (what : string)
| ReferenceError (what : string).

#[global] Instance js_error_eq_dec : EqDecision js_error.
Proof. solve_decision. Defined.

(** What the code writes with [console.warn] and [console.error]. *)
Inductive console_msg :=
| warn_InvalidNodeValue (v : JS.value)
| warn_NoValidNodeValues
| error_InvalidEdge (from to : string)
| error_EventCallback (eventName : string)
| error_TransitionFailed (err : js_error)
| error_UpdatingData (err : js_error).

(** ** JavaScript [Set]: a duplicate-free list in insertion order *)

Module JSSet.
Section JSSet.
Context {A : Type} `{EqDecision A}.

Definition has (x : A) (s : list A) : bool := bool_decide (x ∈ s).
Definition add (x : A) (s : list A) : list A :=
  if has x s then s else s ++ [x].
Definition delete (x : A) (s : list A) : list A := filter (λ y, y ≠ x) s.

Lemma add_NoDup x s : NoDup s → NoDup (add x s).
Proof.
  intros Hs. unfold add, has. case_bool_decide; [done|].
  apply NoDup_app. split; [done|]. split; [|apply NoDup_singleton].
  intros y Hy ->%list_elem_of_singleton. done.
Qed.

Lemma delete_NoDup x s : NoDup s → NoDup (delete x s).
Proof. apply NoDup_filter. Qed.

Lemma elem_of_add x y s : y ∈ add x s ↔ y = x ∨ y ∈ s.
Proof.
  unfold add, has. case_bool_decide as H.
  - split; [by right|]. by intros [->|?].
  - rewrite elem_of_app, list_elem_of_singleton. tauto.
Qed.

Lemma elem_of_delete x y s : y ∈ delete x s ↔ y ≠ x ∧ y ∈ s.
Proof. unfold delete. by rewrite list_elem_of_filter. Qed.

Lemma add_has x s : x ∈ s → add x s = s.
Proof. intros H. unfold add, has. by rewrite bool_decide_eq_true_2. Qed.

End JSSet.
End JSSet.

(** ** d3-scale, d3-array (external library)

    [d3.scaleLinear().domain([d0, d1]).range([r0, r1]).clamp(true)] as
    d3-scale defines a continuous scale with two-point domain and range:
    the argument is clamped to the domain, normalised to [0, 1] (a domain
    of zero width normalises everything to 1/2) and interpolated with
    [r0 * (1 - t) + r1 * t]; a domain given in decreasing order is read
    backwards. [NaN] in, [undefined] (here [NaN]) out.

    d3 evaluates these formulas in doubles, and rounds as it goes. The
    data processor therefore takes the scale from the runtime, and its
    theorems hold of whatever the scale returns. [scaleLinear_exact] is
    the same formulas in exact arithmetic: it agrees with d3 wherever no
    operation rounds, as at the ends of the domain and beyond them, where
    [t] is 0 or 1 and the result is [r0] or [r1]. The worked examples use
    it at such arguments. *)

Module D3.
Import JS.
Local Open Scope Qc_scope.

Definition clamper (a b x : Qc) : Qc :=
  let lo := if Qc_ltb b a then b else a in
  let hi := if Qc_ltb b a then a else b in
  Qc_max lo (Qc_min hi x).

Definition normalize (a b x : Qc) : Qc :=
  if decide (b - a = 0) then Q2Qc (1 # 2) else (x - a) / (b - a).

Definition interpolateNumber (a b t : Qc) : Qc := a * (1 - t) + b * t.

Definition bimap (d0 d1 r0 r1 x : Qc) : Qc :=
  if Qc_ltb d1 d0
  then interpolateNumber r1 r0 (normalize d1 d0 x)
  else interpolateNumber r0 r1 (normalize d0 d1 x).

Definition scaleLinear_exact (d0 d1 r0 r1 x : number) : number :=
  match d0, d1, r0, r1, x with
  | Num d0, Num d1, Num r0, Num r1, Num x =>
      Num (bimap d0 d1 r0 r1 (clamper d0 d1 x))
  | _, _, _, _, _ => NaN
  end.

(** [Math.max(...xs)] and [Math.min(...xs)] on a non-empty list of finite
    numbers; the code calls them after checking that the list is not
    empty. *)
Definition max_list (x : Qc) (xs : list Qc) : Qc := foldl Qc_max x xs.
Definition min_list (x : Qc) (xs : list Qc) : Qc := foldl Qc_min x xs.

End D3.

(** ** Themes: [NetworkTheme.generateRandomColor] *)

(** A colour is a CSS colour string; the template literal
    [hsl(${h}, ${s}%, ${l}%)] is kept as its three numbers. *)
Inductive css_color :=
| Css (s : string)
| Hsl (h s l : JS.number).

#[global] Instance css_color_eq_dec : EqDecision css_color.
Proof. solve_decision. Defined.

Module NetworkTheme.
Import JS.

(** [Math.random()] is a stream of draws: [rnd k] is the [k]-th draw
    since the page was loaded. The function makes three draws, starting
    at draw [k]. *)
Definition generateRandomColor (rnd : nat → number) (k : nat) : css_color :=
  let h := mul (rnd k) (of_Z 360) in
  let s := add (of_Z 60) (mul (rnd (S k)) (of_Z 20)) in
  let l := add (of_Z 45) (mul (rnd (S (S k))) (of_Z 10)) in
  Hsl h s l.

End NetworkTheme.

(** ** DataProcessor ([core/data-processor.js]) *)

Module DataProcessor.
Import JS.

(** A raw node [{ id, label, value?, color?, x?, y? }]. *)
Record Node := mkNode {
  id : string;
  label : string;
  value : JS.value;
  color : option string;
  x : JS.value;
  y : JS.value
}.

(** A raw edge [{ from, to, value? }]. Its [value] is the field [weight]
    here, [value] being the node's field in this module; when present it
    is a number (the input contract; other weights are not modelled). *)
Record Edge := mkEdge {
  from : string;
  to : string;
  weight : option number
}.

Record Metadata := mkMetadata {
  degree : nat;
  importance : number
}.

(** A processed node: the spread of the raw node ([node]) with the fields
    the processor adds or overrides. *)
Record PNode := mkPNode {
  node : Node;
  size : number;
  collisionRadius : number;
  pcolor : css_color;
  px : JS.value;
  py : JS.value;
  metadata : Metadata
}.

(** A processed edge: the spread of the raw edge ([edge]) with its resolved
    endpoints and derived width and length. *)
Record PEdge := mkPEdge {
  edge : Edge;
  source : PNode;
  target : PNode;
  width : number;
  elength : number
}.

Definition pid (p : PNode) : string := id (node p).

#[global] Instance value_eq_dec : EqDecision JS.value.
Proof. solve_decision. Defined.
#[global] Instance Node_eq_dec : EqDecision Node.
Proof. solve_decision. Defined.
#[global] Instance Edge_eq_dec : EqDecision Edge.
Proof. solve_decision. Defined.
#[global] Instance Metadata_eq_dec : EqDecision Metadata.
Proof. solve_decision. Defined.
#[global] Instance PNode_eq_dec : EqDecision PNode.
Proof. solve_decision. Defined.
#[global] Instance PEdge_eq_dec : EqDecision PEdge.
Proof. solve_decision. Defined.

(** *** Degrees *)

(** [m.set(k, (m.get(k) || 0) + 1)] *)
Definition increment (k : string) (m : gmap string nat) : gmap string nat :=
  <[k := default 0 (m !! k) + 1]> m.

(** [_calculateNodeDegrees(edges)]: the map is cleared, then every edge
    counts once for its [from] and once for its [to]. *)
Definition _calculateNodeDegrees (edges : list Edge) : gmap string nat :=
  foldl (λ m e, increment (to e) (increment (from e) m)) ∅ edges.

(** [this.nodeDegrees.get(id) || 0] *)
Definition degreeOf (nodeDegrees : gmap string nat) (i : string) : nat :=
  default 0 (nodeDegrees !! i).

Section WithRuntime.

(** The JavaScript runtime's [parseFloat] on a string, [Math.pow] and the
    stream of [Math.random()] draws; and d3's clamped linear scale,
    [d3.scaleLinear().domain([d0, d1]).range([r0, r1]).clamp(true)(x)] as
    [scaleLinear_clamped d0 d1 r0 r1 x]. *)
Variable parseFloatString : string → number.
Variable Math_pow : number → number → number.
Variable Math_random : nat → number.
Variable scaleLinear_clamped :
  number → number → number → number → number → number.

(** [parseFloat(v)]: a number is printed and read back, [undefined] reads
    as [NaN]. *)
Definition parseFloat (v : JS.value) : number :=
  match v with
  | VUndefined => NaN
  | VNumber x => x
  | VString s => parseFloatString s
  end.

Definition finite (x : number) : option Qc :=
  match x with NaN => None | Num q => Some q end.

(** [allNodes.map(d => parseFloat(d.value)).filter(v => !isNaN(v))] *)
Definition validValues (allNodes : list Node) : list Qc :=
  omap (λ d, finite (parseFloat (value d))) allNodes.

(** *** Sizes *)

Definition minSize : number := of_Z 12.
Definition maxSize : number := of_Z 48.

(** [_calculateNodeSize(value, allNodes)], with what it writes to the
    console. Nothing in the body of its [try] raises on the values
    modelled, so the [catch] branch has no counterpart. *)
Definition _calculateNodeSize (v : JS.value) (allNodes : list Node)
  : number * list console_msg :=
  let nodeValue := parseFloat v in
  if isNaN nodeValue then (of_Z 12, [warn_InvalidNodeValue v])
  else if decide (length allNodes = 1) then (minSize, [])
  else
    match validValues allNodes with
    | [] => (minSize, [warn_NoValidNodeValues])
    | v0 :: vs =>
        let maxValue := D3.max_list v0 vs in
        let minValue := D3.min_list v0 vs in
        if decide (maxValue = minValue)
        then (div (add minSize maxSize) (of_Z 2), [])
        else (scaleLinear_clamped (Num minValue) (Num maxValue)
                minSize maxSize nodeValue, [])
    end.

(** *** Importance and collision radius *)

Definition _calculateImportance (size : number) (degree : nat) : number :=
  let normalizedSize := div size (of_Z 48) in
  let normalizedDegree := Math_min (div (of_nat degree) (of_Z 10)) (of_Z 1) in
  Math_pow (mul normalizedSize normalizedDegree) (Num (Q2Qc (3 # 2))).

Definition _calculateCollisionRadius (baseSize : number) (degree : nat)
  : number :=
  let baseRadius := mul baseSize (Num (Q2Qc (3 # 2))) in
  let degreeBonus :=
    mul (Math_pow (of_nat degree) (Num (Q2Qc (7 # 10)))) (of_Z 2) in
  let importance := _calculateImportance baseSize degree in
  let importanceMultiplier := add (of_Z 1) (mul importance (of_Z 2)) in
  Math_max (add (mul baseRadius importanceMultiplier) degreeBonus) baseRadius.

(** *** Nodes *)

(** [node.color || NetworkTheme.generateRandomColor()]: the colour and the
    number of draws made. *)
Definition colorOrRandom (c : option string) (k : nat) : css_color * nat :=
  match c with
  | Some s => if decide (s = EmptyString)
              then (NetworkTheme.generateRandomColor Math_random k, 3)
              else (Css s, 0)
  | None => (NetworkTheme.generateRandomColor Math_random k, 3)
  end.

(** [v || Math.random() * 1000]: the coordinate and the number of draws. *)
Definition coordOrRandom (v : JS.value) (k : nat) : JS.value * nat :=
  if truthy v then (v, 0)
  else (VNumber (mul (Math_random k) (of_Z 1000)), 1).

(** The callback of [nodes.map] in [_processNodes]: one node, with the
    degree map, all raw nodes and the index of the next random draw. *)
Definition processNode (nodeDegrees : gmap string nat) (nodes : list Node)
    (k : nat) (n : Node) : PNode * nat * list console_msg :=
  let '(baseSize, out) :=
    _calculateNodeSize (or_else (value n) (VNumber (of_Z 1))) nodes in
  let degree := degreeOf nodeDegrees (id n) in
  let importance := _calculateImportance baseSize degree in
  let '(c, k1) := colorOrRandom (color n) k in
  let '(x', k2) := coordOrRandom (x n) (k + k1) in
  let '(y', k3) := coordOrRandom (y n) (k + k1 + k2) in
  ({| node := n;
      size := baseSize;
      collisionRadius := _calculateCollisionRadius baseSize degree;
      pcolor := c;
      px := x';
      py := y';
      metadata := {| degree := degree; importance := importance |} |},
   (k + k1 + k2 + k3), out).

Fixpoint mapNodes (nodeDegrees : gmap string nat) (nodes : list Node)
    (k : nat) (todo : list Node) : list PNode * nat * list console_msg :=
  match todo with
  | [] => ([], k, [])
  | n :: rest =>
      let '(p, k', out) := processNode nodeDegrees nodes k n in
      let '(ps, k'', out') := mapNodes nodeDegrees nodes k' rest in
      (p :: ps, k'', out ++ out')
  end.

Definition _processNodes (nodeDegrees : gmap string nat) (nodes : list Node)
    (k : nat) : list PNode * nat * list console_msg :=
  mapNodes nodeDegrees nodes k nodes.

(** *** Edges *)

(** [d3.max(allEdges, d => d.value || 1)]: every accessor value is a
    number, so the maximum of a non-empty array is one. *)
Definition weightOr1 (e : Edge) : number :=
  match weight e with
  | Some w => if truthy (VNumber w) then w else of_Z 1
  | None => of_Z 1
  end.

Definition d3_max (xs : list number) : number :=
  match omap finite xs with
  | [] => NaN
  | q :: qs => Num (D3.max_list q qs)
  end.

(** [_calculateEdgeWidth(value, allEdges)]; the argument is
    [edge.value || 1], a number, and the body of the [try] does not
    raise. *)
Definition _calculateEdgeWidth (v : number) (allEdges : list Edge) : number :=
  if negb (truthy (VNumber v)) || lt v (of_Z 1) then of_Z 1
  else scaleLinear_clamped (of_Z 1) (d3_max (weightOr1 <$> allEdges))
         (of_Z 1) (of_Z 24) v.

(** [new Map(processedNodes.map(node => [node.id, node]))]: a later node
    replaces an earlier one of the same id. *)
Definition nodeMap (processedNodes : list PNode) : gmap string PNode :=
  foldl (λ m p, <[pid p := p]> m) ∅ processedNodes.

(** The callback of [edges.map] in [_processEdges]: [None] is the [null]
    the final [filter] removes. *)
Definition processEdge (nm : gmap string PNode) (edges : list Edge)
    (e : Edge) : option PEdge * list console_msg :=
  match nm !! from e, nm !! to e with
  | Some s, Some t =>
      let sourceImportance := importance (metadata s) in
      let targetImportance := importance (metadata t) in
      let visualWidth := _calculateEdgeWidth (weightOr1 e) edges in
      let baseLength := of_Z 200 in
      let lengthMultiplier :=
        add (of_Z 1)
            (mul (Math_max sourceImportance targetImportance) (of_Z 2)) in
      (Some {| edge := e; source := s; target := t;
               width := visualWidth;
               elength := mul baseLength lengthMultiplier |}, [])
  | _, _ => (None, [error_InvalidEdge (from e) (to e)])
  end.

Definition _processEdges (edges : list Edge) (processedNodes : list PNode)
  : list PEdge * list console_msg :=
  let nm := nodeMap processedNodes in
  let results := processEdge nm edges <$> edges in
  (omap fst results, concat (snd <$> results)).

(** *** [processData] *)

Record Processed := mkProcessed {
  processedNodes : list PNode;
  processedEdges : list PEdge;
  console : list console_msg;
  draws : nat
}.

(** [processData(nodes, edges)]; [k] is the index of the next
    [Math.random()] draw when it is called. *)
Definition processData (k : nat) (nodes : list Node) (edges : list Edge)
  : Processed :=
  let nodeDegrees := _calculateNodeDegrees edges in
  let '(pns, k', out1) := _processNodes nodeDegrees nodes k in
  let '(pes, out2) := _processEdges edges pns in
  {| processedNodes := pns; processedEdges := pes;
     console := out1 ++ out2; draws := k' |}.

(** *** Degrees count endpoint occurrences *)

(** How often [i] occurs as an endpoint of [e]: once for each of the two
    roles it plays (twice for a loop on [i]). *)
Definition incidences (i : string) (e : Edge) : nat :=
  (if decide (from e = i) then 1 else 0) + (if decide (to e = i) then 1 else 0).

Definition endpointOccurrences (i : string) (edges : list Edge) : nat :=
  sum_list (incidences i <$> edges).

Lemma degreeOf_increment k m i :
  degreeOf (increment k m) i
  = degreeOf m i + (if decide (k = i) then 1 else 0).
Proof.
  unfold degreeOf, increment.
  destruct (decide (k = i)) as [->|Hne].
  - by rewrite lookup_insert_eq.
  - rewrite lookup_insert_ne by done. lia.
Qed.

Lemma degreeOf_foldl edges : ∀ m i,
  degreeOf (foldl (λ m e, increment (to e) (increment (from e) m)) m edges) i
  = degreeOf m i + endpointOccurrences i edges.
Proof.
  induction edges as [|e edges IH]; intros m i; simpl.
  - unfold endpointOccurrences. simpl. lia.
  - rewrite IH, !degreeOf_increment.
    unfold endpointOccurrences. rewrite fmap_cons. simpl.
    unfold incidences. lia.
Qed.

Lemma degreeOf_calculateNodeDegrees edges i :
  degreeOf (_calculateNodeDegrees edges) i = endpointOccurrences i edges.
Proof.
  unfold _calculateNodeDegrees. rewrite degreeOf_foldl.
  unfold degreeOf. by rewrite lookup_empty.
Qed.

Lemma processNode_node nd nodes k n :
  node (processNode nd nodes k n).1.1 = n.
Proof.
  unfold processNode.
  destruct (_calculateNodeSize _ _) as [baseSize out].
  destruct (colorOrRandom _ _) as [c k1].
  destruct (coordOrRandom (x n) _) as [x' k2].
  destruct (coordOrRandom (y n) _) as [y' k3]. done.
Qed.

Lemma processNode_degree nd nodes k n :
  degree (metadata (processNode nd nodes k n).1.1) = degreeOf nd (id n).
Proof.
  unfold processNode.
  destruct (_calculateNodeSize _ _) as [baseSize out].
  destruct (colorOrRandom _ _) as [c k1].
  destruct (coordOrRandom (x n) _) as [x' k2].
  destruct (coordOrRandom (y n) _) as [y' k3]. done.
Qed.

Lemma processNode_size nd nodes k n :
  size (processNode nd nodes k n).1.1
  = (_calculateNodeSize (or_else (value n) (VNumber (of_Z 1))) nodes).1.
Proof.
  unfold processNode.
  destruct (_calculateNodeSize _ _) as [baseSize out].
  destruct (colorOrRandom _ _) as [c k1].
  destruct (coordOrRandom (x n) _) as [x' k2].
  destruct (coordOrRandom (y n) _) as [y' k3]. done.
Qed.

(** [nodes.map] keeps one processed node per raw node, in order. *)
Lemma mapNodes_nodes nd nodes todo : ∀ k,
  node <$> (mapNodes nd nodes k todo).1.1 = todo.
Proof.
  induction todo as [|n rest IH]; intros k; simpl; [done|].
  pose proof (processNode_node nd nodes k n) as Hn.
  destruct (processNode nd nodes k n) as [[p k'] out].
  specialize (IH k').
  destruct (mapNodes nd nodes k' rest) as [[ps k''] out'].
  simpl in *. by f_equal.
Qed.

Lemma mapNodes_Forall (P : PNode → Prop) nd nodes todo :
  (∀ k n, n ∈ todo → P (processNode nd nodes k n).1.1) →
  ∀ k, Forall P (mapNodes nd nodes k todo).1.1.
Proof.
  induction todo as [|n rest IH]; intros HP k; simpl; [constructor|].
  pose proof (HP k n ltac:(left)) as Hn.
  destruct (processNode nd nodes k n) as [[p k'] out].
  assert (Hrest : ∀ k n, n ∈ rest → P (processNode nd nodes k n).1.1)
    by (intros; apply HP; by right).
  specialize (IH Hrest k').
  destruct (mapNodes nd nodes k' rest) as [[ps k''] out'].
  simpl in *. by constructor.
Qed.

Lemma processData_nodes k nodes edges :
  processedNodes (processData k nodes edges)
  = (_processNodes (_calculateNodeDegrees edges) nodes k).1.1.
Proof.
  unfold processData.
  destruct (_processNodes _ _ _) as [[pns k'] out1].
  by destruct (_processEdges _ _) as [pes out2].
Qed.

Lemma processData_edges k nodes edges :
  processedEdges (processData k nodes edges)
  = (_processEdges edges (processedNodes (processData k nodes edges))).1.
Proof.
  unfold processData.
  destruct (_processNodes _ _ _) as [[pns k'] out1].
  by destruct (_processEdges _ _) as [pes out2].
Qed.

(** *** Edges resolve against the processed nodes *)

Lemma nodeMap_foldl_Some pns : ∀ (m : gmap string PNode) i p,
  foldl (λ m p, <[pid p := p]> m) m pns !! i = Some p →
  (p ∈ pns ∧ pid p = i) ∨ m !! i = Some p.
Proof.
  induction pns as [|q pns IH]; intros m i p Hp; simpl in *; [by right|].
  destruct (IH _ _ _ Hp) as [[Hin Hid]|Hm].
  - left. split; [by right|done].
  - destruct (decide (pid q = i)) as [Heq|Hne].
    + rewrite <- Heq, lookup_insert_eq in Hm. injection Hm as ->.
      left. split; [by left|done].
    + rewrite lookup_insert_ne in Hm by done. by right.
Qed.

Lemma nodeMap_foldl_is_Some pns : ∀ (m : gmap string PNode) i,
  is_Some (foldl (λ m p, <[pid p := p]> m) m pns !! i)
  ↔ i ∈ pid <$> pns ∨ is_Some (m !! i).
Proof.
  induction pns as [|q pns IH]; intros m i; cbn [foldl].
  - split; [by right|]. intros [Hin|Hm]; [|done]. by apply elem_of_nil in Hin.
  - rewrite IH, fmap_cons, elem_of_cons.
    destruct (decide (pid q = i)) as [Heq|Hne].
    + rewrite <- Heq, lookup_insert_eq. split; [|intros _; right; eauto].
      intros _. left. by left.
    + rewrite lookup_insert_ne by done.
      split; [intros [?|?]; [left; by right|by right]|].
      intros [[->|?]|?]; [done|by left|by right].
Qed.

Lemma nodeMap_Some pns i p :
  nodeMap pns !! i = Some p → p ∈ pns ∧ pid p = i.
Proof.
  intros Hp. destruct (nodeMap_foldl_Some _ _ _ _ Hp) as [H|H]; [done|].
  by rewrite lookup_empty in H.
Qed.

Lemma nodeMap_is_Some pns i :
  is_Some (nodeMap pns !! i) ↔ i ∈ pid <$> pns.
Proof.
  unfold nodeMap. rewrite nodeMap_foldl_is_Some, lookup_empty.
  split; [intros [H|H]; [done|by destruct H]|by left].
Qed.

(** An edge resolves when both its endpoints are ids of processed
    nodes. *)
Definition resolves (processedNodes : list PNode) (e : Edge) : Prop :=
  from e ∈ pid <$> processedNodes ∧ to e ∈ pid <$> processedNodes.

#[global] Instance resolves_dec pns e : Decision (resolves pns e).
Proof. unfold resolves. apply _. Defined.

Definition isInvalidEdge (m : console_msg) : bool :=
  match m with error_InvalidEdge _ _ => true | _ => false end.

Lemma processEdge_resolved pns allEdges e :
  resolves pns e →
  ∃ pe, processEdge (nodeMap pns) allEdges e = (Some pe, [])
        ∧ edge pe = e
        ∧ source pe ∈ pns ∧ target pe ∈ pns
        ∧ pid (source pe) = from e ∧ pid (target pe) = to e.
Proof.
  intros [Hf Ht]. unfold processEdge.
  apply nodeMap_is_Some in Hf as [s Hs]. apply nodeMap_is_Some in Ht as [t Ht].
  rewrite Hs, Ht. eexists. split; [done|]. simpl.
  apply nodeMap_Some in Hs as [? ?]. apply nodeMap_Some in Ht as [? ?]. done.
Qed.

Lemma processEdge_unresolved pns allEdges e :
  ¬ resolves pns e →
  processEdge (nodeMap pns) allEdges e
  = (None, [error_InvalidEdge (from e) (to e)]).
Proof.
  intros Hn. unfold processEdge.
  destruct (nodeMap pns !! from e) as [s|] eqn:Hs; [|done].
  destruct (nodeMap pns !! to e) as [t|] eqn:Ht; [|done].
  exfalso. apply Hn. split; apply nodeMap_is_Some; eauto.
Qed.

(** The invariant of the [map]/[filter] pass over the edges, for any
    prefix of the work still to do. *)
Lemma processEdges_pass pns allEdges todo :
  let results := processEdge (nodeMap pns) allEdges <$> todo in
  Forall (λ pe, source pe ∈ pns ∧ target pe ∈ pns
                ∧ pid (source pe) = from (edge pe)
                ∧ pid (target pe) = to (edge pe)) (omap fst results)
  ∧ edge <$> omap fst results = filter (resolves pns) todo
  ∧ concat (snd <$> results)
    = (λ e, error_InvalidEdge (from e) (to e))
        <$> filter (λ e, ¬ resolves pns e) todo.
Proof.
  induction todo as [|e todo IH]; simpl; [by repeat split|].
  destruct IH as (IH1 & IH2 & IH3).
  destruct (decide (resolves pns e)) as [Hr|Hn].
  - destruct (processEdge_resolved pns allEdges e Hr)
      as (pe & -> & He & Hs & Ht & Hsi & Hti). simpl.
    rewrite filter_cons_True by done.
    rewrite filter_cons_False by (intros H; by apply H).
    split; [|split].
    + constructor; [|done]. rewrite He. done.
    + simpl. by f_equal.
    + done.
  - rewrite (processEdge_unresolved pns allEdges e Hn). simpl.
    rewrite filter_cons_False by done.
    rewrite filter_cons_True by done.
    split; [done|split; [done|]].
    simpl. by f_equal.
Qed.

Lemma calculateNodeSize_console v allNodes :
  filter isInvalidEdge (_calculateNodeSize v allNodes).2 = [].
Proof.
  unfold _calculateNodeSize.
  destruct (isNaN _); [done|].
  destruct (decide _); [done|].
  destruct (validValues allNodes); [done|].
  by destruct (decide _).
Qed.

Lemma processNode_console nd nodes k n :
  filter isInvalidEdge (processNode nd nodes k n).2 = [].
Proof.
  pose proof (calculateNodeSize_console
                (or_else (value n) (VNumber (of_Z 1))) nodes) as H.
  unfold processNode.
  destruct (_calculateNodeSize _ _) as [baseSize out].
  destruct (colorOrRandom _ _) as [c k1].
  destruct (coordOrRandom (x n) _) as [x' k2].
  destruct (coordOrRandom (y n) _) as [y' k3]. done.
Qed.

Lemma mapNodes_console nd nodes todo : ∀ k,
  filter isInvalidEdge (mapNodes nd nodes k todo).2 = [].
Proof.
  induction todo as [|n rest IH]; intros k; simpl; [done|].
  pose proof (processNode_console nd nodes k n) as Hn.
  destruct (processNode nd nodes k n) as [[p k'] out].
  specialize (IH k').
  destruct (mapNodes nd nodes k' rest) as [[ps k''] out'].
  simpl in *. by rewrite filter_app, Hn, IH.
Qed.

Lemma processEdges_console allEdges pns :
  filter isInvalidEdge (_processEdges allEdges pns).2
  = (_processEdges allEdges pns).2.
Proof.
  unfold _processEdges. simpl.
  destruct (processEdges_pass pns allEdges allEdges) as (_ & _ & ->).
  induction (filter _ allEdges) as [|e l IH]; [done|].
  rewrite fmap_cons, filter_cons_True by done. by rewrite IH.
Qed.

(** The invalid-edge reports of a run are those of [_processEdges]: the
    node pass writes warnings only. *)
Lemma processData_console k nodes edges :
  filter isInvalidEdge (console (processData k nodes edges))
  = (_processEdges edges (processedNodes (processData k nodes edges))).2.
Proof.
  pose proof (mapNodes_console (_calculateNodeDegrees edges) nodes nodes k)
    as Hn.
  pose proof (processEdges_console edges) as He.
  unfold processData, _processNodes in *.
  destruct (mapNodes _ _ _ _) as [[pns k'] out1].
  specialize (He pns).
  destruct (_processEdges _ _) as [pes out2].
  simpl in *. by rewrite filter_app, Hn, He.
Qed.

(** C6. For every input, every processed edge has both its resolved
    endpoints among the processed nodes (and they carry the edge's [from]
    and [to] ids); the processed edges are exactly the raw edges that
    resolve, in order, so an edge whose [from] or [to] matches no processed
    node id is absent; and each such edge, in order, is reported on the
    console as an invalid edge. The function is total: an unresolved edge
    raises nothing. *)
Theorem unresolved_edges_dropped_and_reported
    (k : nat) (nodes : list Node) (edges : list Edge) :
  let r := processData k nodes edges in
  Forall (λ pe, source pe ∈ processedNodes r ∧ target pe ∈ processedNodes r
                ∧ pid (source pe) = from (edge pe)
                ∧ pid (target pe) = to (edge pe)) (processedEdges r)
  ∧ edge <$> processedEdges r = filter (resolves (processedNodes r)) edges
  ∧ filter isInvalidEdge (console r)
    = (λ e, error_InvalidEdge (from e) (to e))
        <$> filter (λ e, ¬ resolves (processedNodes r) e) edges
  ∧ pid <$> processedNodes r = id <$> nodes.
Proof.
  intros r. subst r.
  pose proof (processData_edges k nodes edges) as He.
  pose proof (processData_nodes k nodes edges) as Hn.
  pose proof (processData_console k nodes edges) as Hc.
  rewrite He, Hc. unfold _processEdges. simpl.
  destruct (processEdges_pass (processedNodes (processData k nodes edges))
              edges edges) as (H1 & H2 & H3).
  repeat split; try done.
  rewrite Hn. unfold _processNodes.
  transitivity (id <$> (node <$> (mapNodes (_calculateNodeDegrees edges)
                                    nodes k nodes).1.1)).
  - by rewrite <- list_fmap_compose.
  - by rewrite mapNodes_nodes.
Qed.

(** *** Node sizes *)

Local Open Scope Qc_scope.

Definition qc (z : Z) : Qc := Q2Qc (inject_Z z).

(** [lo] is the least and [hi] the greatest of the numeric values. *)
Definition least (lo : Qc) (vs : list Qc) : Prop :=
  lo ∈ vs ∧ Forall (λ v, lo <= v) vs.
Definition greatest (hi : Qc) (vs : list Qc) : Prop :=
  hi ∈ vs ∧ Forall (λ v, v <= hi) vs.

(** The value a node is sized by: its [value] read as a number, or 1
    when the [value] is absent or falsy (0, [NaN], the empty string). *)
Definition ownValue (n : Node) : number :=
  if truthy (value n) then parseFloat (value n) else of_Z 1.

Lemma Qc_ltb_true a b : Qc_ltb a b = true ↔ a < b.
Proof. unfold Qc_ltb. apply bool_decide_eq_true. Qed.

Lemma Qc_ltb_false a b : Qc_ltb a b = false ↔ b <= a.
Proof.
  unfold Qc_ltb. rewrite bool_decide_eq_false.
  split; [apply Qcnot_lt_le|apply Qcle_not_lt].
Qed.

Lemma Qc_max_spec a b :
  (Qc_max a b = a ∨ Qc_max a b = b) ∧ a <= Qc_max a b ∧ b <= Qc_max a b.
Proof.
  unfold Qc_max. destruct (Qc_ltb a b) eqn:E.
  - apply Qc_ltb_true in E. split; [by right|].
    split; [by apply Qclt_le_weak|apply Qcle_refl].
  - apply Qc_ltb_false in E. split; [by left|].
    split; [apply Qcle_refl|done].
Qed.

Lemma Qc_min_spec a b :
  (Qc_min a b = a ∨ Qc_min a b = b) ∧ Qc_min a b <= a ∧ Qc_min a b <= b.
Proof.
  unfold Qc_min. destruct (Qc_ltb b a) eqn:E.
  - apply Qc_ltb_true in E. split; [by right|].
    split; [by apply Qclt_le_weak|apply Qcle_refl].
  - apply Qc_ltb_false in E. split; [by left|].
    split; [apply Qcle_refl|done].
Qed.

Lemma max_list_greatest vs : ∀ v0, greatest (D3.max_list v0 vs) (v0 :: vs).
Proof.
  unfold D3.max_list.
  induction vs as [|v vs IH]; intros v0; simpl.
  - split; [by left|]. repeat constructor. apply Qcle_refl.
  - destruct (IH (Qc_max v0 v)) as [Hin Hall].
    destruct (Qc_max_spec v0 v) as (Hsel & Hl & Hr).
    apply Forall_cons in Hall as [Hm Hall].
    split.
    + apply elem_of_cons in Hin as [->|Hin].
      * destruct Hsel as [->| ->]; [by left|right; by left].
      * right. by right.
    + repeat constructor; [by eapply Qcle_trans..|done].
Qed.

Lemma min_list_least vs : ∀ v0, least (D3.min_list v0 vs) (v0 :: vs).
Proof.
  unfold D3.min_list.
  induction vs as [|v vs IH]; intros v0; simpl.
  - split; [by left|]. repeat constructor. apply Qcle_refl.
  - destruct (IH (Qc_min v0 v)) as [Hin Hall].
    destruct (Qc_min_spec v0 v) as (Hsel & Hl & Hr).
    apply Forall_cons in Hall as [Hm Hall].
    split.
    + apply elem_of_cons in Hin as [->|Hin].
      * destruct Hsel as [->| ->]; [by left|right; by left].
      * right. by right.
    + repeat constructor; [by eapply Qcle_trans..|done].
Qed.

Lemma greatest_unique vs a b : greatest a vs → greatest b vs → a = b.
Proof.
  intros [Ha Hla] [Hb Hlb]. rewrite Forall_forall in Hla, Hlb.
  apply Qcle_antisym; auto.
Qed.

Lemma least_unique vs a b : least a vs → least b vs → a = b.
Proof.
  intros [Ha Hla] [Hb Hlb]. rewrite Forall_forall in Hla, Hlb.
  apply Qcle_antisym; auto.
Qed.

(** The size of a node as [_calculateNodeSize] yields it, read by cases on
    the data rather than on the code. *)
Lemma calculateNodeSize_cases v nodes :
  let s := (_calculateNodeSize v nodes).1 in
  (length nodes = 1%nat → s = of_Z 12)
  ∧ (parseFloat v = NaN → s = of_Z 12)
  ∧ (validValues nodes = [] → s = of_Z 12)
  ∧ (∀ q lo hi, length nodes ≠ 1%nat → parseFloat v = Num q →
       least lo (validValues nodes) → greatest hi (validValues nodes) →
       (lo = hi → s = of_Z 30)
       ∧ (lo ≠ hi → s = scaleLinear_clamped (Num lo) (Num hi)
                          (of_Z 12) (of_Z 48) (Num q))).
Proof.
  unfold _calculateNodeSize. simpl.
  destruct (parseFloat v) as [|q0] eqn:Hv; simpl.
  { do 3 (split; [done|]). by intros q lo hi _ [=]. }
  destruct (decide (length nodes = 1%nat)) as [H1|H1]; simpl.
  { do 3 (split; [done|]). by intros q lo hi []. }
  destruct (validValues nodes) as [|v0 vs] eqn:Hvs; simpl.
  { do 3 (split; [done|]).
    intros q lo hi _ _ [Hin _]. by apply elem_of_nil in Hin. }
  do 3 (split; [done|]).
  intros q lo hi _ [= <-] Hlo Hhi.
  pose proof (max_list_greatest vs v0) as Hmax.
  pose proof (min_list_least vs v0) as Hmin.
  rewrite (greatest_unique _ _ _ Hmax Hhi), (least_unique _ _ _ Hmin Hlo).
  destruct (decide (hi = lo)) as [Heq|Hne].
  - split; [|by intros []].
    intros _. simpl. unfold of_Z. f_equal. apply Qc_is_canon. reflexivity.
  - split; [by intros ->|]. by intros _.
Qed.

Lemma mapNodes_elem nd nodes todo p : ∀ k,
  p ∈ (mapNodes nd nodes k todo).1.1 →
  ∃ k' n, n ∈ todo ∧ p = (processNode nd nodes k' n).1.1.
Proof.
  induction todo as [|n rest IH]; intros k; simpl.
  - intros H. by apply elem_of_nil in H.
  - destruct (processNode nd nodes k n) as [[p0 k0] out] eqn:E.
    specialize (IH k0).
    destruct (mapNodes nd nodes k0 rest) as [[ps k''] out'].
    simpl in *. intros [->|Hin]%elem_of_cons.
    + exists k, n. split; [by left|]. by rewrite E.
    + destruct (IH Hin) as (k' & n' & Hn' & ->).
      exists k', n'. split; [by right|done].
Qed.

(** C7, as amended. For every processed node, its own value being its
    [value] or 1 when that is absent or falsy: in a single-node dataset
    its size is 12; if its own value is not numeric its size is 12; if no
    node of the dataset has a numeric [value] its size is 12; otherwise,
    with [lo] and [hi] the least and greatest of the nodes' [value]s that
    are numeric (as given: an absent one is left out, a 0 counts as 0),
    its size is 30 when [lo = hi] and else what d3's clamped linear scale
    from [[lo, hi]] to [[12, 48]] returns at its own value. *)
Theorem node_size_by_cases (k : nat) (nodes : list Node) (edges : list Edge)
    (p : PNode) :
  p ∈ processedNodes (processData k nodes edges) →
  (length nodes = 1%nat → size p = of_Z 12)
  ∧ (ownValue (node p) = NaN → size p = of_Z 12)
  ∧ (validValues nodes = [] → size p = of_Z 12)
  ∧ (∀ q lo hi, length nodes ≠ 1%nat → ownValue (node p) = Num q →
       least lo (validValues nodes) → greatest hi (validValues nodes) →
       (lo = hi → size p = of_Z 30)
       ∧ (lo ≠ hi → size p = scaleLinear_clamped (Num lo) (Num hi)
                               (of_Z 12) (of_Z 48) (Num q))).
Proof.
  intros Hp. rewrite processData_nodes in Hp.
  apply mapNodes_elem in Hp as (k' & n & _ & ->).
  rewrite processNode_size, processNode_node.
  assert (Hown : parseFloat (or_else (value n) (VNumber (of_Z 1)))
                 = ownValue n).
  { unfold or_else, ownValue. by destruct (truthy (value n)). }
  rewrite <- Hown. apply calculateNodeSize_cases.
Qed.

End WithRuntime.

(** The scenario of the specification: nodes a, b, c with values 1, 10,
    10 and the edges a→b and a→c. *)
Definition scenarioNodes : list Node :=
  [ mkNode "a" "a" (VNumber (of_Z 1)) None VUndefined VUndefined;
    mkNode "b" "b" (VNumber (of_Z 10)) None VUndefined VUndefined;
    mkNode "c" "c" (VNumber (of_Z 10)) None VUndefined VUndefined ].

Definition scenarioEdges : list Edge :=
  [ mkEdge "a" "b" None; mkEdge "a" "c" None ].

(** *** The size rule as the specification words it

    "Single node: 12; non-numeric value: 12; all values equal: 30;
    otherwise the linear scale of the node's value from the least and
    greatest of all nodes' numeric values to [12, 48], clamped." The
    specification does not say what the value of a node without a [value]
    is: with [defaulting = false] such a node has no numeric value, with
    [defaulting = true] its value is 1 throughout. *)

Definition statedValue (parseFloatString : string → number)
    (defaulting : bool) (n : Node) : number :=
  match value n with
  | VUndefined => if defaulting then of_Z 1 else NaN
  | v => parseFloat parseFloatString v
  end.

Definition statedSize (parseFloatString : string → number)
    (scaleLinear_clamped :
       number → number → number → number → number → number)
    (defaulting : bool) (nodes : list Node) (n : Node) : number :=
  if decide (length nodes = 1) then of_Z 12
  else
    match statedValue parseFloatString defaulting n with
    | NaN => of_Z 12
    | Num q =>
        match omap (λ d, finite (statedValue parseFloatString defaulting d))
                nodes with
        | [] => of_Z 12
        | v0 :: vs =>
            let lo := D3.min_list v0 vs in
            let hi := D3.max_list v0 vs in
            if decide (lo = hi) then of_Z 30
            else scaleLinear_clamped (Num lo) (Num hi) (of_Z 12) (of_Z 48)
                   (Num q)
        end
    end.

(** A dataset with one node that has no value: a, then b = 1/4 and
    c = 1/2. *)
Definition unvaluedNodes : list Node :=
  [ mkNode "a" "a" VUndefined None VUndefined VUndefined;
    mkNode "b" "b" (VNumber (Num (Q2Qc (1 # 4)))) None VUndefined VUndefined;
    mkNode "c" "c" (VNumber (Num (Q2Qc (1 # 2)))) None VUndefined VUndefined ].

Definition thisOf (x : number) : option Q :=
  match x with NaN => None | Num q => Some (this q) end.

(** Sizes as rationals in lowest terms, for comparison by computation. *)
Definition sizesOf (ps : list PNode) : list (option Q) :=
  (λ p, thisOf (size p)) <$> ps.

(** C7, counterexample. On the dataset a (no value), b = 1/4, c = 1/2 the
    processor sizes the nodes 48, 12 and 48: the code takes a's own value
    as 1 but leaves a out of the least and greatest values, so the domain
    is [1/4, 1/2], and the scale is asked at its lower end (b), its upper
    end (c) and above it (a). The stated rule gives 12, 12, 48 if a node
    without a value counts as non-numeric; if its value counts as 1
    throughout, the domain is [1/4, 1] and c, a third of the way up, gets
    24. *)
Lemma node_size_rule_fails_without_value :
  let pf := (λ _ : string, NaN) in
  let scale := D3.scaleLinear_exact in
  let sizes :=
    sizesOf (processedNodes
               (processData pf (λ _ _, NaN) (λ _, NaN) scale 0
                  unvaluedNodes [])) in
  let stated defaulting :=
    thisOf <$> (statedSize pf scale defaulting unvaluedNodes
                  <$> unvaluedNodes) in
  sizes = [Some (48 # 1); Some (12 # 1); Some (48 # 1)]
  ∧ stated false = [Some (12 # 1); Some (12 # 1); Some (48 # 1)]
  ∧ stated true = [Some (48 # 1); Some (12 # 1); Some (24 # 1)]
  ∧ sizes ≠ stated false
  ∧ sizes ≠ stated true.
Proof. by vm_compute. Qed.

(** A witness of [node_size_by_cases]: node b of the scenario (value 10,
    among the values 1, 10, 10) gets what the scale from [1, 10] returns
    at 10, the upper end of its domain. *)
Lemma node_size_by_cases_witness :
  let pf := (λ _ : string, NaN) in
  let r := processData pf (λ _ _, NaN) (λ _, NaN) D3.scaleLinear_exact 0
             scenarioNodes scenarioEdges in
  ∃ p, processedNodes r !! 1 = Some p
       ∧ size p = D3.scaleLinear_exact (of_Z 1) (of_Z 10) (of_Z 12) (of_Z 48)
                    (of_Z 10).
Proof.
  intros pf r.
  destruct (processedNodes r !! 1) as [p|] eqn:Hp; [|by vm_compute in Hp].
  exists p. split; [done|].
  assert (Hin : p ∈ processedNodes r) by by eapply list_elem_of_lookup_2.
  assert (Hn : node p = mkNode "b" "b" (VNumber (of_Z 10)) None
                               VUndefined VUndefined).
  { vm_compute in Hp. by injection Hp as <-. }
  destruct (node_size_by_cases pf (λ _ _, NaN) (λ _, NaN)
              D3.scaleLinear_exact 0
              scenarioNodes scenarioEdges p Hin) as (_ & _ & _ & H).
  destruct (H (qc 10) (qc 1) (qc 10)) as [_ Hscale].
  - done.
  - by rewrite Hn.
  - split; [by left|]. repeat constructor; by vm_compute.
  - split; [right; by left|]. repeat constructor; by vm_compute.
  - apply Hscale. intros Heq. by apply (f_equal this) in Heq.
Defined.

(** C8. The degree of every node id is the number of times the id occurs
    as an endpoint of a raw edge, each edge counting once for its [from]
    and once for its [to]: this holds of the degree map, and of the degree
    recorded in every processed node. In the scenario the degrees are
    a = 2, b = 1, c = 1. *)
Theorem degree_counts_endpoint_occurrences
    (parseFloatString : string → number)
    (Math_pow : number → number → number) (Math_random : nat → number)
    (scaleLinear_clamped :
       number → number → number → number → number → number)
    (k : nat) (nodes : list Node) (edges : list Edge) :
  (∀ i, degreeOf (_calculateNodeDegrees edges) i
        = endpointOccurrences i edges)
  ∧ Forall (λ p, degree (metadata p) = endpointOccurrences (pid p) edges)
      (processedNodes
         (processData parseFloatString Math_pow Math_random
            scaleLinear_clamped k nodes edges))
  ∧ (λ p, (pid p, degree (metadata p))) <$>
      processedNodes
        (processData parseFloatString Math_pow Math_random
           scaleLinear_clamped k scenarioNodes scenarioEdges)
    = [("a", 2); ("b", 1); ("c", 1)].
Proof.
  split; [|split].
  - apply degreeOf_calculateNodeDegrees.
  - rewrite processData_nodes. apply mapNodes_Forall.
    intros k' n _. unfold pid.
    rewrite processNode_degree, processNode_node.
    apply degreeOf_calculateNodeDegrees.
  - rewrite processData_nodes. unfold _processNodes, scenarioNodes.
    simpl mapNodes.
    repeat match goal with
    | |- context [processNode ?f ?g ?h ?sc ?nd ?ns ?k ?n] =>
        let H1 := fresh in let H2 := fresh in
        pose proof (processNode_node f g h sc nd ns k n) as H1;
        pose proof (processNode_degree f g h sc nd ns k n) as H2;
        destruct (processNode f g h sc nd ns k n) as [[? ?] ?];
        simpl in H1, H2
    end.
    simpl. unfold pid.
    repeat match goal with H : node _ = _ |- _ => rewrite H; clear H end.
    repeat match goal with H : degree _ = _ |- _ => rewrite H; clear H end.
    reflexivity.
Qed.

(** *** Edge widths *)

Section Widths.
Local Open Scope Qc_scope.

Variable parseFloatString : string → number.
Variable Math_pow : number → number → number.
Variable Math_random : nat → number.
Variable scaleLinear_clamped :
  number → number → number → number → number → number.

(** The weight an edge is drawn by: its [value], or 1 when that is
    absent, [NaN] or 0. *)
Definition weightOf (e : Edge) : Qc :=
  match weightOr1 e with Num q => q | NaN => 1 end.

Lemma weightOr1_finite e : weightOr1 e = Num (weightOf e).
Proof.
  unfold weightOf, weightOr1.
  destruct (weight e) as [[|q]|]; simpl; try done.
  by destruct (bool_decide (q = 0)).
Qed.

Lemma weightOf_truthy e : truthy (VNumber (Num (weightOf e))) = true.
Proof.
  unfold weightOf, weightOr1.
  destruct (weight e) as [[|q]|]; simpl; try done.
  by destruct (bool_decide (q = 0)) eqn:E; simpl; [|rewrite E].
Qed.

Lemma omap_finite_weights (es : list Edge) :
  omap finite (weightOr1 <$> es) = weightOf <$> es.
Proof.
  induction es as [|e es IH]; [done|].
  rewrite !fmap_cons. simpl. rewrite weightOr1_finite. simpl. by f_equal.
Qed.

(** [d3.max] over the weights of a non-empty array of edges is the
    greatest of them. *)
Lemma d3_max_weights (e : Edge) (es : list Edge) :
  e ∈ es →
  ∃ hi, d3_max (weightOr1 <$> es) = Num hi ∧ greatest hi (weightOf <$> es).
Proof.
  intros Hin. unfold d3_max. rewrite omap_finite_weights.
  destruct es as [|e0 es]; [by apply elem_of_nil in Hin|].
  rewrite fmap_cons. eexists. split; [done|]. apply max_list_greatest.
Qed.

Lemma calculateEdgeWidth_cases e allEdges :
  e ∈ allEdges →
  ∃ hi, greatest hi (weightOf <$> allEdges)
        ∧ _calculateEdgeWidth scaleLinear_clamped (weightOr1 e) allEdges
          = if decide (weightOf e < 1) then of_Z 1
            else scaleLinear_clamped (of_Z 1) (Num hi) (of_Z 1) (of_Z 24)
                   (Num (weightOf e)).
Proof.
  intros Hin. unfold _calculateEdgeWidth.
  destruct (d3_max_weights e allEdges Hin) as (hi & -> & Hhi).
  exists hi. split; [done|].
  rewrite weightOr1_finite, weightOf_truthy. simpl. unfold Qc_ltb.
  destruct (decide (weightOf e < 1)) as [Hlt|Hlt].
  - by rewrite bool_decide_eq_true_2.
  - by rewrite bool_decide_eq_false_2.
Qed.

Lemma processEdges_Forall (P : PEdge → Prop) nm allEdges todo :
  (∀ e pe out, e ∈ todo →
     processEdge scaleLinear_clamped nm allEdges e = (Some pe, out) →
     P pe) →
  Forall P
    (omap fst (processEdge scaleLinear_clamped nm allEdges <$> todo)).
Proof.
  induction todo as [|e todo IH]; intros HP; [constructor|].
  rewrite fmap_cons. simpl.
  destruct (processEdge _ nm allEdges e) as [[pe|] out] eqn:E; simpl.
  - constructor.
    + eapply HP; [by left|done].
    + apply IH. intros e' pe' out' Hin. apply HP. by right.
  - apply IH. intros e' pe' out' Hin. apply HP. by right.
Qed.

(** X3. The width of every processed edge, by cases. The weight an edge
    is drawn by is its [value], or 1 when that is absent, [NaN] or 0. An
    edge of a weight below 1 is 1 wide. Any other edge is as wide as d3's
    clamped linear scale from [[1, hi]] to [[1, 24]] says at its weight,
    where [hi] is the greatest weight among all raw edges, those left out
    as unresolved included. *)
Theorem edge_width_by_cases (k : nat) (nodes : list Node)
    (edges : list Edge) :
  Forall (λ pe,
            ∃ hi, greatest hi (weightOf <$> edges)
                  ∧ width pe
                    = if decide (weightOf (edge pe) < 1) then of_Z 1
                      else scaleLinear_clamped (of_Z 1) (Num hi)
                             (of_Z 1) (of_Z 24) (Num (weightOf (edge pe))))
    (processedEdges
       (processData parseFloatString Math_pow Math_random scaleLinear_clamped
          k nodes edges)).
Proof.
  rewrite processData_edges. unfold _processEdges. simpl.
  apply processEdges_Forall. intros e pe out Hin Hpe.
  unfold processEdge in Hpe.
  destruct (nodeMap _ !! from e) as [s|]; [|done].
  destruct (nodeMap _ !! to e) as [t|]; [|done].
  injection Hpe as <- _. simpl. by apply calculateEdgeWidth_cases.
Qed.

(** *** Nodes that share an id *)

Lemma nodeMap_snoc pns p : nodeMap (pns ++ [p]) = <[pid p := p]> (nodeMap pns).
Proof. unfold nodeMap. by rewrite foldl_app. Qed.

Lemma nodeMap_last pns i :
  nodeMap pns !! i = last (filter (λ p, pid p = i) pns).
Proof.
  induction pns as [|p pns IH] using rev_ind; [done|].
  rewrite nodeMap_snoc, filter_app.
  destruct (decide (pid p = i)) as [<-|Hne].
  - rewrite lookup_insert_eq, filter_cons_True, filter_nil by done.
    by rewrite last_snoc.
  - rewrite lookup_insert_ne, filter_cons_False, filter_nil by done.
    by rewrite app_nil_r.
Qed.

(** X4. When several nodes share an id, the lookup table built from the
    processed nodes keeps the last of them: every processed edge is
    attached, at each end, to the last processed node that carries the
    id. *)
Theorem edges_attach_to_last_node_of_id (k : nat) (nodes : list Node)
    (edges : list Edge) :
  let r := processData parseFloatString Math_pow Math_random
             scaleLinear_clamped k nodes edges in
  Forall (λ pe,
            last (filter (λ p, pid p = from (edge pe)) (processedNodes r))
            = Some (source pe)
            ∧ last (filter (λ p, pid p = to (edge pe)) (processedNodes r))
              = Some (target pe))
    (processedEdges r).
Proof.
  intros r. subst r. rewrite processData_edges. unfold _processEdges. simpl.
  apply processEdges_Forall. intros e pe out Hin Hpe.
  unfold processEdge in Hpe.
  destruct (nodeMap _ !! from e) as [s|] eqn:Hs; [|done].
  destruct (nodeMap _ !! to e) as [t|] eqn:Ht; [|done].
  injection Hpe as <- _. simpl. by rewrite <- !nodeMap_last.
Qed.

(** The nodes at the ends of the edges. *)
Definition ends (es : list PEdge) : list PNode :=
  es ≫= λ d, [source d; target d].

(** The ends of the edges that carry one id are one node. *)
Definition oneNodePerId (es : list PEdge) : Prop :=
  ∀ n m, n ∈ ends es → m ∈ ends es → pid n = pid m → n = m.

(** The processed edges share their nodes: both ends come out of the one
    lookup table. *)
Lemma processedEdges_oneNodePerId (k : nat) (nodes : list Node)
    (edges : list Edge) :
  oneNodePerId
    (processedEdges
       (processData parseFloatString Math_pow Math_random scaleLinear_clamped
          k nodes edges)).
Proof.
  set (r := processData _ _ _ _ k nodes edges).
  assert (H : Forall (λ pe, ∀ n, n ∈ [source pe; target pe]
                        → nodeMap (processedNodes r) !! pid n = Some n)
                (processedEdges r)).
  { subst r. rewrite processData_edges. unfold _processEdges. simpl.
    apply processEdges_Forall. intros e pe out Hin Hpe.
    unfold processEdge in Hpe.
    destruct (nodeMap _ !! from e) as [s|] eqn:Hs; [|done].
    destruct (nodeMap _ !! to e) as [t|] eqn:Ht; [|done].
    injection Hpe as <- _. simpl.
    pose proof (nodeMap_Some _ _ _ Hs) as [_ Hsi].
    pose proof (nodeMap_Some _ _ _ Ht) as [_ Hti].
    intros n [->|[->|[]%elem_of_nil]%elem_of_cons]%elem_of_cons; congruence. }
  rewrite Forall_forall in H.
  assert (Hend : ∀ n, n ∈ ends (processedEdges r)
                      → nodeMap (processedNodes r) !! pid n = Some n).
  { intros n (pe & Hn & Hpe)%list_elem_of_bind. by apply (H pe). }
  intros n m Hn Hm Hid. apply Hend in Hn, Hm. congruence.
Qed.

End Widths.

(** *** The degrees add up *)

(** The sum of all degrees of the degree map. *)
Definition totalDegree (nodeDegrees : gmap string nat) : nat :=
  map_fold (λ _ d acc, d + acc) 0 nodeDegrees.

Lemma totalDegree_increment k m :
  totalDegree (increment k m) = S (totalDegree m).
Proof.
  unfold totalDegree, increment.
  destruct (m !! k) as [d|] eqn:Hk; simpl.
  - rewrite <- insert_delete_eq.
    rewrite map_fold_insert_L; [|intros; lia|by rewrite lookup_delete_eq].
    rewrite (map_fold_delete_L _ _ k d m); [lia|intros; lia|done].
  - rewrite map_fold_insert_L; [lia|intros; lia|done].
Qed.

(** X5. Every edge adds two to the sum of the degrees: one for each end,
    also when the two ends are the same node. *)
Theorem degrees_sum_to_twice_the_edges (edges : list Edge) :
  totalDegree (_calculateNodeDegrees edges) = 2 * length edges.
Proof.
  unfold _calculateNodeDegrees.
  assert (H : ∀ m, totalDegree
                     (foldl (λ m e, increment (to e) (increment (from e) m))
                        m edges)
                   = totalDegree m + 2 * length edges).
  { induction edges as [|e edges IH]; intros m; simpl; [lia|].
    rewrite IH, !totalDegree_increment. lia. }
  rewrite H. unfold totalDegree. rewrite map_fold_empty. lia.
Qed.

(** *** Colours *)

Section Colours.
Local Open Scope Qc_scope.

Variable parseFloatString : string → number.
Variable Math_pow : number → number → number.
Variable Math_random : nat → number.
Variable scaleLinear_clamped :
  number → number → number → number → number → number.

Lemma Qc_this_plus (a b : Qc) : (this (a + b) == this a + this b)%Q.
Proof. unfold Qcplus. simpl. apply Qred_correct. Qed.

Lemma Qc_this_mult (a b : Qc) : (this (a * b) == this a * this b)%Q.
Proof. unfold Qcmult. simpl. apply Qred_correct. Qed.

(** A colour of the random palette: [hsl(h, s%, l%)] with a hue of the
    full circle, a saturation of 60 to 80 and a lightness of 45 to 55. *)
Definition pleasing (c : css_color) : Prop :=
  ∃ h s l : Qc,
    c = Hsl (Num h) (Num s) (Num l)
    ∧ (qc 0 <= h ∧ h <= qc 360)
    ∧ (qc 60 <= s ∧ s <= qc 80)
    ∧ (qc 45 <= l ∧ l <= qc 55).

Lemma Qc_this_qc z : (this (qc z) == inject_Z z)%Q.
Proof. unfold qc. simpl. apply Qred_correct. Qed.

Lemma generateRandomColor_pleasing k :
  (∀ i, ∃ q, Math_random i = Num q ∧ 0 <= q ∧ q <= 1) →
  pleasing (NetworkTheme.generateRandomColor Math_random k).
Proof.
  intros Hr. unfold NetworkTheme.generateRandomColor.
  destruct (Hr k) as (h & -> & Hh0 & Hh1).
  destruct (Hr (S k)) as (s & -> & Hs0 & Hs1).
  destruct (Hr (S (S k))) as (l & -> & Hl0 & Hl1).
  unfold mul, add, lift2, of_Z. fold (qc 360) (qc 60) (qc 20) (qc 45) (qc 10).
  eexists _, _, _. split; [done|].
  unfold Qcle in *.
  rewrite !Qc_this_plus, !Qc_this_mult, !Qc_this_qc.
  change (this 0) with 0%Q in *. change (this 1) with 1%Q in *.
  unfold inject_Z. repeat split; lra.
Qed.

Lemma processNode_pcolor nd nodes k n :
  pcolor (processNode parseFloatString Math_pow Math_random
     scaleLinear_clamped nd nodes k n).1.1
  = (colorOrRandom Math_random (color n) k).1.
Proof.
  unfold processNode.
  destruct (_calculateNodeSize _ _ _ _) as [baseSize out].
  destruct (colorOrRandom _ _ _) as [c k1].
  destruct (coordOrRandom _ (x n) _) as [x' k2].
  destruct (coordOrRandom _ (y n) _) as [y' k3]. done.
Qed.

(** X6. A processed node keeps the colour it was given; a node without a
    colour, or with the empty string for one, gets a colour of the random
    palette, whatever [Math.random()] draws from its unit interval. *)
Theorem node_colour_given_or_pleasing (k : nat) (nodes : list Node)
    (edges : list Edge) :
  (∀ i, ∃ q, Math_random i = Num q ∧ 0 <= q ∧ q <= 1) →
  Forall (λ p, match color (node p) with
               | Some c => if decide (c = EmptyString) then pleasing (pcolor p)
                           else pcolor p = Css c
               | None => pleasing (pcolor p)
               end)
    (processedNodes
       (processData parseFloatString Math_pow Math_random scaleLinear_clamped
          k nodes edges)).
Proof.
  intros Hr. rewrite processData_nodes. apply mapNodes_Forall.
  intros k' n _. rewrite processNode_pcolor, processNode_node.
  unfold colorOrRandom.
  destruct (color n) as [c|]; [destruct (decide (c = EmptyString))|];
    simpl; try done; by apply generateRandomColor_pleasing.
Qed.

(** *** Validation *)

(** [_getNodeValidationErrors(node)] for a node object; an absent [id] or
    [label] is the empty string of the record. *)
Definition _getNodeValidationErrors (n : Node) : list string :=
  (if negb (truthy (VString (id n))) then ["Missing node ID"] else [])
  ++ (if negb (truthy (VString (label n))) then ["Missing node label"] else [])
  ++ (if truthy (value n) && isNaN (parseFloat parseFloatString (value n))
      then ["Invalid node value"] else []).

(** [validateNode(node)]: [isValid] and [errors]. *)
Definition validateNode (n : Node) : bool * list string :=
  (truthy (VString (id n)), _getNodeValidationErrors n).

Lemma processNode_console_size nd nodes k n :
  (processNode parseFloatString Math_pow Math_random
     scaleLinear_clamped nd nodes k n).2
  = (_calculateNodeSize parseFloatString scaleLinear_clamped
       (or_else (value n) (VNumber (of_Z 1))) nodes).2.
Proof.
  unfold processNode.
  destruct (_calculateNodeSize _ _ _ _) as [baseSize out].
  destruct (colorOrRandom _ _ _) as [c k1].
  destruct (coordOrRandom _ (x n) _) as [x' k2].
  destruct (coordOrRandom _ (y n) _) as [y' k3]. done.
Qed.

Lemma calculateNodeSize_invalid v nodes :
  let r := _calculateNodeSize parseFloatString scaleLinear_clamped v nodes in
  if isNaN (parseFloat parseFloatString v)
  then r = (of_Z 12, [warn_InvalidNodeValue v])
  else ∀ w, warn_InvalidNodeValue w ∉ r.2.
Proof.
  unfold _calculateNodeSize.
  destruct (isNaN (parseFloat parseFloatString v)); [done|].
  intros w.
  destruct (decide (length nodes = 1%nat)); simpl; [apply not_elem_of_nil|].
  destruct (validValues parseFloatString nodes); simpl.
  - intros [=]%list_elem_of_singleton.
  - destruct (decide _); simpl; apply not_elem_of_nil.
Qed.

Lemma elem_of_optional (b : bool) (x y : string) :
  x ∈ (if b then [y] else []) ↔ b = true ∧ x = y.
Proof.
  destruct b.
  - rewrite list_elem_of_singleton. split; [by intros ->|by intros [_ ->]].
  - split; [by intros H%elem_of_nil|by intros [? _]].
Qed.

Lemma invalid_value_listed n :
  "Invalid node value" ∈ _getNodeValidationErrors n
  ↔ truthy (value n) && isNaN (parseFloat parseFloatString (value n)) = true.
Proof.
  unfold _getNodeValidationErrors.
  rewrite !elem_of_app, !elem_of_optional. split.
  - intros [[_ H]|[[_ H]|[H _]]]; [discriminate H|discriminate H|done].
  - intros H. right. right. done.
Qed.

Lemma missing_id_listed n :
  "Missing node ID" ∈ _getNodeValidationErrors n
  ↔ truthy (VString (id n)) = false.
Proof.
  unfold _getNodeValidationErrors.
  rewrite !elem_of_app, !elem_of_optional. split.
  - intros [[H _]|[[_ H]|[_ H]]]; [|discriminate H|discriminate H].
    by apply negb_true_iff.
  - intros H. left. split; [|done]. by apply negb_true_iff.
Qed.

(** X7. Validation and sizing agree on what an invalid value is:
    [validateNode] lists the error [Invalid node value] for exactly the
    nodes for which the processor logs its invalid-value warning, and
    these get the default size 12. A node without validation errors is
    valid, and a node is valid exactly when its id is not reported
    missing. *)
Theorem validation_agrees_with_sizing (nd : gmap string nat)
    (nodes : list Node) (k : nat) (n : Node) :
  let r := processNode parseFloatString Math_pow Math_random
     scaleLinear_clamped nd nodes k n in
  ("Invalid node value" ∈ (validateNode n).2
   ↔ ∃ v, warn_InvalidNodeValue v ∈ r.2)
  ∧ ("Invalid node value" ∈ (validateNode n).2 → size r.1.1 = of_Z 12)
  ∧ ((validateNode n).2 = [] → (validateNode n).1 = true)
  ∧ ((validateNode n).1 = true ↔ "Missing node ID" ∉ (validateNode n).2).
Proof.
  intros r. subst r.
  rewrite processNode_console_size, processNode_size.
  unfold validateNode. simpl.
  rewrite invalid_value_listed, missing_id_listed.
  pose proof (calculateNodeSize_invalid
                (or_else (value n) (VNumber (of_Z 1))) nodes) as Hsz.
  simpl in Hsz.
  assert (Hid : _getNodeValidationErrors n = [] →
                truthy (VString (id n)) = true).
  { unfold _getNodeValidationErrors.
    destruct (truthy (VString (id n))); [done|]. simpl. intros [=]. }
  assert (Hvalid : truthy (VString (id n)) = true
                   ↔ truthy (VString (id n)) ≠ false).
  { destruct (truthy (VString (id n))); split; try done;
      intros H; by destruct H. }
  unfold or_else in *.
  destruct (truthy (value n)) eqn:Hv; simpl in *.
  - destruct (isNaN (parseFloat parseFloatString (value n))).
    + rewrite Hsz. simpl. split; [|done].
      split; [|done]. intros _. eexists. by left.
    + split; [|done]. split; [done|]. intros [w Hw]. by apply Hsz in Hw.
  - split; [|done]. split; [done|]. intros [w Hw]. by apply Hsz in Hw.
Qed.

End Colours.

(** A witness of [node_colour_given_or_pleasing]: every draw is 1/2, and
    the only node has no colour. *)
Lemma node_colour_witness :
  let half := (λ _ : nat, Num (Q2Qc (1 # 2))) in
  let r := processData (λ _, NaN) (λ _ _, NaN) half D3.scaleLinear_exact 0
             [mkNode "a" "a" VUndefined None VUndefined VUndefined] [] in
  Forall (λ p, pleasing (pcolor p)) (processedNodes r).
Proof.
  intros half r.
  assert (H : ∀ i : nat, ∃ q, half i = Num q ∧ (0 <= q)%Qc ∧ (q <= 1)%Qc).
  { intros i. eexists. split; [done|]. by split. }
  pose proof (node_colour_given_or_pleasing (λ _, NaN) (λ _ _, NaN) half
                D3.scaleLinear_exact 0
                [mkNode "a" "a" VUndefined None VUndefined VUndefined] [] H)
    as HF.
  apply Forall_forall. intros p Hp.
  rewrite Forall_forall in HF. specialize (HF p Hp).
  assert (Hc : color (node p) = None).
  { subst r. apply list_elem_of_lookup_1 in Hp as [i Hi].
    destruct i as [|i]; [|by vm_compute in Hi].
    vm_compute in Hi. by injection Hi as <-. }
  by rewrite Hc in HF.
Defined.

End DataProcessor.

(** ** EventManager ([core/events.js]) *)

Module EventManager.

(** A callback is a function object: what matters of it is its identity
    (here a number) and whether a call of it raises. A callback is taken
    not to call back into the event manager while it runs. *)
Definition callback := nat.

(** [this.listeners]: event name ↦ [Set] of callbacks. *)
Abbreviation Listeners := (gmap string (list callback)).

(** [new EventManager()] *)
Definition new : Listeners := ∅.

(** [on(eventName, callback)] *)
Definition on (eventName : string) (cb : callback) (l : Listeners)
  : Listeners :=
  let l1 := match l !! eventName with
            | Some _ => l
            | None => <[eventName := []]> l
            end in
  match l1 !! eventName with
  | Some callbacks => <[eventName := JSSet.add cb callbacks]> l1
  | None => l1
  end.

(** [off(eventName, callback)] *)
Definition off (eventName : string) (cb : callback) (l : Listeners)
  : Listeners :=
  match l !! eventName with
  | Some callbacks => <[eventName := JSSet.delete cb callbacks]> l
  | None => l
  end.

(** [cleanup()] *)
Definition cleanup (l : Listeners) : Listeners := ∅.

Section Emit.

(** The payload of an event, and the callbacks' behaviour: [raises cb d]
    when the call [cb(d)] throws. *)
Context {Data : Type}.
Variable raises : callback → Data → bool.

(** [emit(eventName, data)]: the calls made, in order, and the console
    output; the listeners are left as they are. *)
Definition emit (eventName : string) (data : Data) (l : Listeners)
  : list (callback * Data) * list console_msg :=
  match l !! eventName with
  | Some callbacks =>
      ((λ cb, (cb, data)) <$> callbacks,
       omap (λ cb, if raises cb data
                   then Some (error_EventCallback eventName) else None)
            callbacks)
  | None => ([], [])
  end.

(** How many times [emit] calls [cb]. *)
Definition invocations (cb : callback) (eventName : string) (data : Data)
    (l : Listeners) : nat :=
  length (filter (λ c, c.1 = cb) (emit eventName data l).1).

End Emit.

(** *** Histories *)

Inductive op :=
| On (eventName : string) (cb : callback)
| Off (eventName : string) (cb : callback)
| Cleanup.

Definition apply (l : Listeners) (o : op) : Listeners :=
  match o with
  | On n cb => on n cb l
  | Off n cb => off n cb l
  | Cleanup => cleanup l
  end.

(** The listeners after a history of registrations, starting from a new
    event manager. *)
Definition after (history : list op) : Listeners := foldl apply new history.

(** Every listener set is duplicate-free. *)
Definition wf (l : Listeners) : Prop :=
  ∀ n callbacks, l !! n = Some callbacks → NoDup callbacks.

Lemma on_lookup n cb l :
  on n cb l !! n = Some (JSSet.add cb (default [] (l !! n))).
Proof.
  unfold on. destruct (l !! n) as [cs|] eqn:E.
  - rewrite E. by rewrite lookup_insert_eq.
  - rewrite lookup_insert_eq. by rewrite lookup_insert_eq.
Qed.

Lemma on_lookup_ne n m cb l : n ≠ m → on n cb l !! m = l !! m.
Proof.
  intros Hne. unfold on. destruct (l !! n) as [cs|] eqn:E.
  - rewrite E. by rewrite lookup_insert_ne.
  - rewrite lookup_insert_eq. by rewrite !lookup_insert_ne.
Qed.

Lemma off_lookup n cb l :
  off n cb l !! n = JSSet.delete cb <$> l !! n.
Proof.
  unfold off. destruct (l !! n) as [cs|] eqn:E; [|by rewrite E].
  by rewrite lookup_insert_eq.
Qed.

Lemma off_lookup_ne n m cb l : n ≠ m → off n cb l !! m = l !! m.
Proof.
  intros Hne. unfold off. destruct (l !! n) as [cs|]; [|done].
  by rewrite lookup_insert_ne.
Qed.

Lemma wf_apply l o : wf l → wf (apply l o).
Proof.
  intros Hl. destruct o as [n cb|n cb|]; simpl; intros m cs Hm.
  - destruct (decide (n = m)) as [<-|Hne].
    + rewrite on_lookup in Hm. injection Hm as <-.
      apply JSSet.add_NoDup. destruct (l !! n) eqn:E; simpl; [|constructor].
      by eapply Hl.
    + rewrite on_lookup_ne in Hm by done. by eapply Hl.
  - destruct (decide (n = m)) as [<-|Hne].
    + rewrite off_lookup in Hm. destruct (l !! n) eqn:E; [|done].
      injection Hm as <-. apply JSSet.delete_NoDup. by eapply Hl.
    + rewrite off_lookup_ne in Hm by done. by eapply Hl.
  - done.
Qed.

Lemma wf_after history : wf (after history).
Proof.
  unfold after.
  assert (H : ∀ l, wf l → wf (foldl apply l history)).
  { induction history as [|o h IH]; intros l Hl; simpl; [done|].
    apply IH. by apply wf_apply. }
  apply H. intros n cs Hn. done.
Qed.

Lemma on_idempotent n cb l : on n cb (on n cb l) = on n cb l.
Proof.
  apply map_eq. intros m. destruct (decide (n = m)) as [<-|Hne].
  - rewrite !on_lookup. simpl. f_equal. apply JSSet.add_has.
    apply JSSet.elem_of_add. by left.
  - by rewrite !on_lookup_ne.
Qed.

Lemma count_absent (cb : callback) (cs : list callback) :
  cb ∉ cs → filter (λ c, c = cb) cs = [].
Proof.
  induction cs as [|c cs IH]; intros Hn; [done|].
  apply not_elem_of_cons in Hn as [Hne Hn].
  rewrite filter_cons_False by (intros ->; done). by apply IH.
Qed.

Lemma count_add_NoDup (cb : callback) (cs : list callback) :
  NoDup cs → length (filter (λ c, c = cb) (JSSet.add cb cs)) = 1.
Proof.
  intros Hnd. unfold JSSet.add, JSSet.has. case_bool_decide as Hin.
  - induction Hnd as [|c cs Hc Hnd IH]; [by apply elem_of_nil in Hin|].
    destruct (decide (c = cb)) as [->|Hne].
    + rewrite filter_cons_True by done. simpl. by rewrite count_absent.
    + rewrite filter_cons_False by done. apply IH.
      apply elem_of_cons in Hin as [->|Hin]; done.
  - rewrite filter_app, length_app. rewrite filter_cons_True by done. simpl.
    by rewrite count_absent.
Qed.

Lemma count_delete (cb : callback) (cs : list callback) :
  length (filter (λ c, c = cb) (JSSet.delete cb cs)) = 0.
Proof.
  rewrite count_absent; [done|].
  intros [Hy _]%JSSet.elem_of_delete. done.
Qed.

Lemma invocations_lookup {Data} (raises : callback → Data → bool)
    cb n d l :
  invocations raises cb n d l
  = length (filter (λ c, c = cb) (default [] (l !! n))).
Proof.
  unfold invocations, emit. destruct (l !! n) as [cs|]; [|done]. simpl.
  induction cs as [|c cs IH]; [done|].
  rewrite fmap_cons. destruct (decide (c = cb)) as [->|Hne].
  - rewrite !filter_cons_True by done. simpl. by rewrite IH.
  - by rewrite !filter_cons_False by done.
Qed.

(** C10. Whatever registrations came before, registering the same callback
    twice for an event is the same as registering it once; an [emit] of
    the event then calls it exactly once, and after a single [off] an
    [emit] calls it no more. *)
Theorem on_twice_off_once {Data : Type} (raises : callback → Data → bool)
    (history : list op) (eventName : string) (cb : callback) (data : Data) :
  let l := on eventName cb (on eventName cb (after history)) in
  l = on eventName cb (after history)
  ∧ invocations raises cb eventName data l = 1
  ∧ invocations raises cb eventName data (off eventName cb l) = 0.
Proof.
  intros l. subst l. rewrite on_idempotent. split; [done|].
  rewrite !invocations_lookup, off_lookup, on_lookup. simpl.
  split; [|apply count_delete].
  apply count_add_NoDup.
  destruct (after history !! eventName) as [cs|] eqn:E; simpl; [|constructor].
  by eapply wf_after.
Qed.

(** *** Who is called *)

(** Whether [cb] is subscribed to [eventName] after a history, read off
    the history alone: the last [on] or [off] of the pair, or [cleanup],
    decides. *)
Definition subscribed (history : list op) (eventName : string)
    (cb : callback) : bool :=
  foldl (λ b o,
           match o with
           | On n c => if decide (n = eventName ∧ c = cb) then true else b
           | Off n c => if decide (n = eventName ∧ c = cb) then false else b
           | Cleanup => false
           end) false history.

Lemma count_add_ne (cb c : callback) (cs : list callback) :
  c ≠ cb →
  length (filter (λ x, x = cb) (JSSet.add c cs))
  = length (filter (λ x, x = cb) cs).
Proof.
  intros Hne. unfold JSSet.add. destruct (JSSet.has c cs); [done|].
  by rewrite filter_app, filter_cons_False, filter_nil, app_nil_r.
Qed.

Lemma count_delete_ne (cb c : callback) (cs : list callback) :
  c ≠ cb →
  length (filter (λ x, x = cb) (JSSet.delete c cs))
  = length (filter (λ x, x = cb) cs).
Proof.
  intros Hne. unfold JSSet.delete.
  induction cs as [|x cs IH]; [done|].
  destruct (decide (x = c)) as [->|Hx].
  - rewrite filter_cons_False by (by intros []).
    by rewrite (filter_cons_False _ c cs).
  - rewrite filter_cons_True by done.
    destruct (decide (x = cb)) as [->|Hb].
    + rewrite !filter_cons_True by done. simpl. by rewrite IH.
    + by rewrite !filter_cons_False by done.
Qed.

(** X8. After any history of [on], [off] and [cleanup], an [emit] of an
    event calls a callback once if the last thing that happened to the
    pair of the event and the callback was an [on], and not at all if it
    was an [off] or a [cleanup], or if nothing happened to it. *)
Theorem emit_calls_the_subscribed_once {Data : Type}
    (raises : callback → Data → bool) (history : list op)
    (eventName : string) (cb : callback) (data : Data) :
  invocations raises cb eventName data (after history)
  = if subscribed history eventName cb then 1 else 0.
Proof.
  rewrite invocations_lookup.
  induction history as [|o history IH] using rev_ind; [done|].
  unfold after, subscribed in *. rewrite !foldl_app. simpl.
  pose proof (wf_after history) as Hwf. unfold after in Hwf.
  set (l := foldl apply new history) in *.
  destruct o as [n c|n c|]; simpl.
  - destruct (decide (n = eventName)) as [->|Hn].
    + rewrite on_lookup. simpl.
      destruct (decide (c = cb)) as [->|Hc].
      * rewrite decide_True by done. apply count_add_NoDup.
        destruct (l !! eventName) as [cs|] eqn:E; simpl; [|constructor].
        by eapply Hwf.
      * rewrite decide_False by (by intros [_ ?]).
        by rewrite count_add_ne.
    + rewrite on_lookup_ne by done.
      by rewrite decide_False by (by intros [? _]).
  - destruct (decide (n = eventName)) as [->|Hn].
    + rewrite off_lookup.
      destruct (decide (c = cb)) as [->|Hc].
      * rewrite decide_True by done.
        destruct (l !! eventName) as [cs|]; simpl; [|done].
        apply count_delete.
      * rewrite decide_False by (by intros [_ ?]).
        destruct (l !! eventName) as [cs|]; simpl in *; [|done].
        by rewrite count_delete_ne.
    + rewrite off_lookup_ne by done.
      by rewrite decide_False by (by intros [? _]).
  - unfold cleanup. by rewrite lookup_empty.
Qed.

End EventManager.

(** ** NetworkSimulation ([core/simulation.js]) *)

Module NetworkSimulation.
Import JS.
Local Open Scope Qc_scope.

(** [d3.forceSimulation()] (external library), as far as the wrapper
    observes it: the energy [alpha] with its parameters, whether the
    internal timer runs, and the data handed over. Forces and node
    positions are not represented. *)
Record D3ForceSimulation := mkD3 {
  alpha : Qc;
  alphaMin : Qc;
  alphaDecay : Qc;
  alphaTarget : Qc;
  timer : bool;
  d3nodes : list DataProcessor.PNode;
  d3links : list DataProcessor.PEdge
}.

(** A call of one of the three callbacks. *)
Inductive notification :=
| Tick
| Progress (percent : number)
| Complete.

#[global] Instance notification_eq_dec : EqDecision notification.
Proof. solve_decision. Defined.

(** [this.callbacks]: which of the callbacks are set. *)
Record Callbacks := mkCallbacks {
  tick : bool;
  progress : bool;
  complete : bool
}.

Record State := mkState {
  simulation : D3ForceSimulation;
  isRunning : bool;
  tickCount : nat;
  maxTicks : nat;
  callbacks : Callbacks;
  notified : list notification
}.

(** Field updates. *)
Definition with_alpha (a : Qc) (d : D3ForceSimulation) : D3ForceSimulation :=
  {| alpha := a; alphaMin := alphaMin d; alphaDecay := alphaDecay d;
     alphaTarget := alphaTarget d; timer := timer d;
     d3nodes := d3nodes d; d3links := d3links d |}.
Definition with_timer (b : bool) (d : D3ForceSimulation) : D3ForceSimulation :=
  {| alpha := alpha d; alphaMin := alphaMin d; alphaDecay := alphaDecay d;
     alphaTarget := alphaTarget d; timer := b;
     d3nodes := d3nodes d; d3links := d3links d |}.
Definition with_data (nodes : list DataProcessor.PNode)
    (links : list DataProcessor.PEdge) (d : D3ForceSimulation)
  : D3ForceSimulation :=
  {| alpha := alpha d; alphaMin := alphaMin d; alphaDecay := alphaDecay d;
     alphaTarget := alphaTarget d; timer := timer d;
     d3nodes := nodes; d3links := links |}.
Definition with_simulation (f : D3ForceSimulation → D3ForceSimulation)
    (s : State) : State :=
  {| simulation := f (simulation s); isRunning := isRunning s;
     tickCount := tickCount s; maxTicks := maxTicks s;
     callbacks := callbacks s; notified := notified s |}.
Definition with_isRunning (b : bool) (s : State) : State :=
  {| simulation := simulation s; isRunning := b;
     tickCount := tickCount s; maxTicks := maxTicks s;
     callbacks := callbacks s; notified := notified s |}.
Definition with_tickCount (n : nat) (s : State) : State :=
  {| simulation := simulation s; isRunning := isRunning s;
     tickCount := n; maxTicks := maxTicks s;
     callbacks := callbacks s; notified := notified s |}.
Definition with_callbacks (c : Callbacks) (s : State) : State :=
  {| simulation := simulation s; isRunning := isRunning s;
     tickCount := tickCount s; maxTicks := maxTicks s;
     callbacks := c; notified := notified s |}.
(** A call of a callback, when it is set. *)
Definition notify (set : bool) (n : notification) (s : State) : State :=
  {| simulation := simulation s; isRunning := isRunning s;
     tickCount := tickCount s; maxTicks := maxTicks s;
     callbacks := callbacks s;
     notified := notified s ++ (if set then [n] else []) |}.

(** [_initialize()]: the force simulation is configured with
    [alpha(0.5)], [alphaDecay(0.02)], [alphaMin(0.001)] and stopped. *)
Definition _initialize : D3ForceSimulation :=
  {| alpha := Q2Qc (1 # 2);
     alphaMin := Q2Qc (1 # 1000);
     alphaDecay := Q2Qc (2 # 100);
     alphaTarget := 0;
     timer := false;
     d3nodes := [];
     d3links := [] |}.

(** [new NetworkSimulation(width, height)] *)
Definition new : State :=
  {| simulation := _initialize;
     isRunning := false;
     tickCount := 0%nat;
     maxTicks := 300%nat;
     callbacks := {| tick := false; progress := false; complete := false |};
     notified := [] |}.

(** [onTick(callback)], [onStabilizationProgress(callback)] and
    [onStabilizationComplete(callback)]; [on(eventName, callback)] sets the
    same three fields. *)
Definition onTick (s : State) : State :=
  with_callbacks {| tick := true; progress := progress (callbacks s);
                    complete := complete (callbacks s) |} s.
Definition onStabilizationProgress (s : State) : State :=
  with_callbacks {| tick := tick (callbacks s); progress := true;
                    complete := complete (callbacks s) |} s.
Definition onStabilizationComplete (s : State) : State :=
  with_callbacks {| tick := tick (callbacks s);
                    progress := progress (callbacks s);
                    complete := true |} s.

(** [setData(nodes, edges)]: the data is handed to d3 and the tick count
    reset; the run is not started. *)
Definition setData (nodes : list DataProcessor.PNode)
    (edges : list DataProcessor.PEdge) (s : State) : State :=
  with_tickCount 0 (with_simulation (with_data nodes edges) s).

(** [restart()]: the last statement is
    [this.simulation.alpha(1).restart()]. *)
Definition restart (s : State) : State :=
  with_simulation (λ d, with_timer true (with_alpha 1 d))
    (with_tickCount 0 (with_isRunning true s)).

(** [stop()] *)
Definition stop (s : State) : State :=
  with_simulation (with_timer false) (with_isRunning false s).

(** [_onSimulationEnd()] *)
Definition _onSimulationEnd (s : State) : State :=
  let s1 := with_isRunning false s in
  notify (complete (callbacks s1)) Complete s1.

(** [Math.round]: the nearest integer, halves upwards. *)
Definition Math_round (x : number) : number :=
  match x with
  | NaN => NaN
  | Num q => of_Z (Qfloor (this q + (1 # 2))%Q)
  end.

(** [Math.min(100, Math.round((tickCount / maxTicks) * 100))] *)
Definition progressOf (tickCount maxTicks : nat) : number :=
  Math_min (of_Z 100)
    (Math_round (mul (div (of_nat tickCount) (of_nat maxTicks)) (of_Z 100))).

(** [_onTick()] *)
Definition _onTick (s : State) : State :=
  if negb (isRunning s) then s
  else
    let s1 := with_tickCount (S (tickCount s)) s in
    let s2 := notify (tick (callbacks s1)) Tick s1 in
    let s3 := notify (progress (callbacks s2))
                (Progress (progressOf (tickCount s2) (maxTicks s2))) s2 in
    if bool_decide (maxTicks s3 ≤ tickCount s3)%nat
    then _onSimulationEnd s3 else s3.

(** One frame of d3's timer ([step] in d3-force): the energy moves
    towards its target by the decay rate, the [tick] listener ([_onTick])
    runs, and once the energy is below [alphaMin] the timer stops and the
    [end] listener ([_onSimulationEnd]) runs. Nothing happens while the
    timer is stopped. *)
Definition frame (s : State) : State :=
  let d := simulation s in
  if negb (timer d) then s
  else
    let a := alpha d + (alphaTarget d - alpha d) * alphaDecay d in
    let s1 := _onTick (with_simulation (with_alpha a) s) in
    if Qc_ltb a (alphaMin d)
    then _onSimulationEnd (with_simulation (with_timer false) s1)
    else s1.

Fixpoint frames (n : nat) (s : State) : State :=
  match n with
  | O => s
  | S n' => frames n' (frame s)
  end.

(** How often the completion callback has been called. *)
Definition completions (s : State) : nat :=
  length (filter (λ n, n = Complete) (notified s)).

(** *** The completion callback over a run *)

(** The decay factor per frame, [1 - alphaDecay] = 49/50, and the energy
    after [n] frames of a run restarted at [alpha = 1]. *)
Definition decayFactor : Qc := 1 - alphaDecay _initialize.
Definition energy (n : nat) : Qc := decayFactor ^ n.

Lemma energy_S n a :
  a = energy n → a + (0 - a) * Q2Qc (2 # 100) = energy (S n).
Proof. intros ->. unfold energy, decayFactor. simpl. ring. Qed.

Lemma energy_nonneg n : 0 <= energy n.
Proof.
  apply Qcpower_pos. unfold decayFactor. by vm_compute.
Qed.

Lemma energy_antitone_S n : energy (S n) <= energy n.
Proof.
  unfold energy. simpl.
  rewrite <- (Qcmult_1_l (decayFactor ^ n)) at 2.
  apply Qcmult_le_compat_r; [by vm_compute|apply energy_nonneg].
Qed.

Lemma energy_antitone n m : (n ≤ m)%nat → energy m <= energy n.
Proof.
  induction 1 as [|m Hle IH]; [apply Qcle_refl|].
  eapply Qcle_trans; [apply energy_antitone_S|done].
Qed.

(** In lowest terms or not, the energy after [n] frames is
    [49^n / 50^n]. *)
Lemma energy_ratio n :
  (this (energy n) == inject_Z (49 ^ Z.of_nat n) / inject_Z (50 ^ Z.of_nat n))%Q.
Proof.
  induction n as [|n IH].
  - reflexivity.
  - unfold energy in *. cbn [Qcpower]. unfold Qcmult, Q2Qc, this at 1.
    rewrite Qred_correct, IH.
    rewrite Nat2Z.inj_succ, !Z.pow_succ_r by lia.
    rewrite !inject_Z_mult.
    assert (H50 : ¬ (inject_Z (50 ^ Z.of_nat n) == 0)%Q).
    { unfold Qeq. simpl. rewrite Z.mul_1_r.
      apply Z.pow_nonzero; lia. }
    change (this decayFactor) with (49 # 50)%Q.
    field. done.
Qed.

Lemma energy_341 : alphaMin _initialize <= energy 341.
Proof.
  unfold Qcle. rewrite energy_ratio.
  change (this (alphaMin _initialize)) with (1 # 1000)%Q.
  apply Qle_shift_div_l.
  - unfold Qlt, inject_Z. cbn [Qnum Qden]. by vm_compute.
  - unfold Qle, Qmult, inject_Z. cbn [Qnum Qden]. by vm_compute.
Qed.

Lemma energy_342 : energy 342 < alphaMin _initialize.
Proof.
  unfold Qclt. rewrite energy_ratio.
  change (this (alphaMin _initialize)) with (1 # 1000)%Q.
  apply Qlt_shift_div_r.
  - unfold Qlt, inject_Z. cbn [Qnum Qden]. by vm_compute.
  - unfold Qlt, Qmult, inject_Z. cbn [Qnum Qden]. by vm_compute.
Qed.

Lemma energy_above n :
  (n ≤ 341)%nat → Qc_ltb (energy n) (Q2Qc (1 # 1000)) = false.
Proof.
  intros Hn. unfold Qc_ltb. apply bool_decide_eq_false, Qcle_not_lt.
  eapply Qcle_trans; [apply energy_341|by apply energy_antitone].
Qed.

Lemma energy_below : Qc_ltb (energy 342) (Q2Qc (1 # 1000)) = true.
Proof. unfold Qc_ltb. apply bool_decide_eq_true, energy_342. Qed.

Lemma frames_S n : ∀ s, frames (S n) s = frame (frames n s).
Proof. induction n as [|n IH]; intros s; [done|]. simpl in *. by rewrite IH. Qed.

Lemma completions_of_call (b : bool) (x : notification) :
  length (filter (λ n, n = Complete) (if b then [x] else []))
  = if b then if decide (x = Complete) then 1%nat else 0%nat else 0%nat.
Proof.
  destruct b; [|done]. destruct (decide (x = Complete)) as [->|Hne].
  - by rewrite filter_cons_True.
  - by rewrite filter_cons_False.
Qed.

(** How often the completion callback has fired [n] frames into a run. *)
Definition fired (n : nat) : nat :=
  if bool_decide (n < 300)%nat then 0%nat
  else if bool_decide (n < 342)%nat then 1%nat else 2%nat.

(** The state [n] frames after [restart()], for a simulation with the
    parameters of [_initialize] and the default [maxTicks]. *)
Definition inRun (s : State) (n : nat) (s' : State) : Prop :=
  alphaMin (simulation s') = alphaMin _initialize
  ∧ alphaDecay (simulation s') = alphaDecay _initialize
  ∧ alphaTarget (simulation s') = 0
  ∧ maxTicks s' = 300%nat
  ∧ callbacks s' = callbacks s
  ∧ alpha (simulation s') = energy (n `min` 342)
  ∧ timer (simulation s') = bool_decide (n < 342)%nat
  ∧ isRunning s' = bool_decide (n < 300)%nat
  ∧ tickCount s' = (n `min` 300)%nat
  ∧ completions s'
    = (completions s + (if complete (callbacks s) then fired n else 0))%nat.

Definition configured (s : State) : Prop :=
  alphaMin (simulation s) = alphaMin _initialize
  ∧ alphaDecay (simulation s) = alphaDecay _initialize
  ∧ alphaTarget (simulation s) = 0
  ∧ maxTicks s = 300%nat.

Lemma inRun_restart s : configured s → inRun s 0 (restart s).
Proof.
  intros (H1 & H2 & H3 & H4). unfold inRun, restart. simpl.
  repeat split; try done.
  unfold fired, completions. simpl. destruct (complete _); lia.
Qed.

Local Opaque Q2Qc Qcplus Qcminus Qcmult Qc_ltb energy.

Lemma inRun_frame s n s' : inRun s n s' → inRun s (S n) (frame s').
Proof.
  destruct s' as [[a amin adec atgt tm dn dl] run tc mt cbs ntf].
  unfold inRun, completions. simpl.
  intros (-> & -> & -> & -> & -> & -> & -> & -> & -> & Hc).
  unfold frame. simpl.
  assert (Hn : (n < 342)%nat ∨ ¬ (n < 342)%nat) by lia.
  destruct Hn as [Hn|Hn].
  2:{ rewrite (bool_decide_eq_false_2 (n < 342)%nat) by done. simpl.
      unfold fired in *.
      rewrite !(bool_decide_eq_false_2 (_ < 342)%nat) in * by lia.
      rewrite !(bool_decide_eq_false_2 (_ < 300)%nat) in * by lia.
      repeat split; try done; try lia. f_equal; lia. }
  rewrite (bool_decide_eq_true_2 (n < 342)%nat) by done. simpl.
  rewrite (energy_S (n `min` 342) _ eq_refl).
  replace (n `min` 342)%nat with n by lia.
  replace (S n `min` 342)%nat with (S n) by lia.
  unfold _onTick. simpl.
  assert (Hn3 : (n < 300)%nat ∨ ¬ (n < 300)%nat) by lia.
  destruct Hn3 as [Hn3|Hn3].
  - rewrite (bool_decide_eq_true_2 (n < 300)%nat) by done. simpl.
    rewrite energy_above by lia.
    replace (n `min` 300)%nat with n by lia.
    assert (Hne : n = 299%nat ∨ n ≠ 299%nat) by lia.
    destruct Hne as [->|Hne].
    + simpl. rewrite !filter_app, !length_app, !completions_of_call, Hc.
      unfold fired. simpl. repeat split; try done.
      destruct (tick (callbacks s)), (progress (callbacks s)),
        (complete (callbacks s)); repeat case_decide; try done; lia.
    + rewrite (bool_decide_eq_false_2 (300 ≤ S n)%nat) by lia. simpl.
      rewrite !filter_app, !length_app, !completions_of_call, Hc.
      unfold fired.
      rewrite (bool_decide_eq_true_2 (S n < 342)%nat) by lia.
      rewrite !(bool_decide_eq_true_2 (S n < 300)%nat) by lia.
      rewrite (bool_decide_eq_true_2 (n < 300)%nat) by lia.
      repeat split; try done; try lia; try (f_equal; lia).
      destruct (tick (callbacks s)), (progress (callbacks s)),
        (complete (callbacks s)); repeat case_decide; try done; lia.
  - rewrite (bool_decide_eq_false_2 (n < 300)%nat) by done. simpl.
    replace (n `min` 300)%nat with 300%nat by lia.
    replace (S n `min` 300)%nat with 300%nat by lia.
    rewrite !(bool_decide_eq_false_2 (S n < 300)%nat) by lia.
    assert (Hne : n = 341%nat ∨ n ≠ 341%nat) by lia.
    destruct Hne as [->|Hne].
    + rewrite energy_below. simpl.
      rewrite !filter_app, !length_app, !completions_of_call, Hc.
      unfold fired. simpl. repeat split; try done.
      destruct (complete (callbacks s)); repeat case_decide; try done; lia.
    + rewrite energy_above by lia. simpl. rewrite Hc.
      unfold fired.
      rewrite !(bool_decide_eq_false_2 (_ < 300)%nat) by lia.
      rewrite !(bool_decide_eq_true_2 (_ < 342)%nat) by lia.
      repeat split; try done; try lia; f_equal; lia.
Qed.

Local Transparent Q2Qc Qcplus Qcminus Qcmult Qc_ltb energy.

Lemma inRun_frames s n : configured s → inRun s n (frames n (restart s)).
Proof.
  intros Hs. induction n as [|n IH]; [by apply inRun_restart|].
  rewrite frames_S. by apply inRun_frame.
Qed.


(** A simulation as the controller sets it up: data handed over, the
    completion callback set, the other two callbacks set or not. *)
Definition prepared (t p : bool) (nodes : list DataProcessor.PNode)
    (edges : list DataProcessor.PEdge) : State :=
  setData nodes edges
    (with_callbacks {| tick := t; progress := p; complete := true |} new).

Lemma prepared_configured t p nodes edges :
  configured (prepared t p nodes edges).
Proof. by repeat split. Qed.

(** C3 (the code departs from it). In a run started by [restart()] and
    left alone, the completion callback has been called 0 times before
    frame 300, once from frame 300 (the tick count reaches [maxTicks]; d3's
    timer keeps running), and twice from frame 342 on, when the energy
    0.98^342 is below [alphaMin] and d3's [end] listener calls
    [_onSimulationEnd] again. *)
Theorem completion_callback_fires_twice (t p : bool)
    (nodes : list DataProcessor.PNode) (edges : list DataProcessor.PEdge)
    (n : nat) :
  let s := frames n (restart (prepared t p nodes edges)) in
  completions s
  = (if bool_decide (n < 300)%nat then 0%nat
     else if bool_decide (n < 342)%nat then 1%nat else 2%nat)
  ∧ isRunning s = bool_decide (n < 300)%nat
  ∧ timer (simulation s) = bool_decide (n < 342)%nat.
Proof.
  destruct (inRun_frames (prepared t p nodes edges) n
              (prepared_configured t p nodes edges))
    as (_ & _ & _ & _ & _ & _ & Ht & Hr & _ & Hc).
  simpl. rewrite Hc, Ht, Hr. by repeat split.
Qed.

(** *** What a run reports *)

(** The callbacks called in the [k]-th frame of a run, frames counted from
    1: up to frame 300 a tick and its progress, at frame 300 the
    completion as well; then nothing, but for the second completion at
    frame 342. *)
Definition reported (c : Callbacks) (k : nat) : list notification :=
  if bool_decide (k ≤ 300)%nat
  then (if tick c then [Tick] else [])
       ++ (if progress c then [Progress (progressOf k 300)] else [])
       ++ (if complete c && bool_decide (k = 300%nat) then [Complete] else [])
  else if complete c && bool_decide (k = 342%nat) then [Complete] else [].

Local Opaque Q2Qc Qcplus Qcminus Qcmult Qc_ltb energy progressOf.

Lemma inRun_reported s n s' :
  inRun s n s' →
  notified (frame s') = notified s' ++ reported (callbacks s) (S n).
Proof.
  destruct s' as [[a amin adec atgt tm dn dl] run tc mt cbs ntf].
  unfold inRun, completions. simpl.
  intros (-> & -> & -> & -> & -> & -> & -> & -> & -> & _).
  unfold frame, reported. simpl.
  assert (Hn : (n < 342)%nat ∨ ¬ (n < 342)%nat) by lia.
  destruct Hn as [Hn|Hn].
  2:{ rewrite (bool_decide_eq_false_2 (n < 342)%nat) by done. simpl.
      rewrite (bool_decide_eq_false_2 (S n ≤ 300)%nat) by lia.
      rewrite (bool_decide_eq_false_2 (S n = 342)%nat) by lia.
      rewrite andb_false_r. by rewrite app_nil_r. }
  rewrite (bool_decide_eq_true_2 (n < 342)%nat) by done. simpl.
  rewrite (energy_S (n `min` 342) _ eq_refl).
  replace (n `min` 342)%nat with n by lia.
  unfold _onTick. simpl.
  assert (Hn3 : (n < 300)%nat ∨ ¬ (n < 300)%nat) by lia.
  destruct Hn3 as [Hn3|Hn3].
  - rewrite (bool_decide_eq_true_2 (n < 300)%nat) by done. simpl.
    rewrite energy_above by lia.
    rewrite (bool_decide_eq_true_2 (S n ≤ 300)%nat) by lia.
    replace (n `min` 300)%nat with n by lia.
    assert (Hne : n = 299%nat ∨ n ≠ 299%nat) by lia.
    destruct Hne as [Hne|Hne].
    + rewrite (bool_decide_eq_true_2 (300 ≤ S n)%nat) by lia.
      rewrite (bool_decide_eq_true_2 (S n = 300)%nat) by lia.
      rewrite andb_true_r. simpl. by rewrite <- !app_assoc.
    + rewrite (bool_decide_eq_false_2 (300 ≤ S n)%nat) by lia.
      rewrite (bool_decide_eq_false_2 (S n = 300)%nat) by lia.
      rewrite andb_false_r. simpl. by rewrite <- !app_assoc, app_nil_r.
  - rewrite (bool_decide_eq_false_2 (n < 300)%nat) by done. simpl.
    rewrite (bool_decide_eq_false_2 (S n ≤ 300)%nat) by lia.
    assert (Hne : n = 341%nat ∨ n ≠ 341%nat) by lia.
    destruct Hne as [Hne|Hne].
    + rewrite (bool_decide_eq_true_2 (S n = 342)%nat) by lia.
      subst n. rewrite energy_below. simpl.
      by rewrite andb_true_r.
    + rewrite energy_above by lia. simpl.
      rewrite (bool_decide_eq_false_2 (S n = 342)%nat) by lia.
      rewrite andb_false_r. by rewrite app_nil_r.
Qed.

Local Transparent Q2Qc Qcplus Qcminus Qcmult Qc_ltb energy progressOf.

Lemma notified_frames (s : State) (n : nat) :
  configured s →
  notified (frames n (restart s))
  = notified s ++ concat (reported (callbacks s) <$> seq 1 n).
Proof.
  intros Hs. induction n as [|n IH].
  - simpl. by rewrite app_nil_r.
  - rewrite frames_S.
    rewrite (inRun_reported s n) by by apply inRun_frames.
    rewrite IH, seq_S, fmap_app, concat_app. simpl.
    by rewrite app_nil_r, app_assoc.
Qed.

(** X9. A run in full. After [restart()], on a simulation with the
    parameters of [_initialize], the callbacks that are set are called as
    follows, frame by frame: in each of the first 300 frames the tick
    callback and then the progress callback, with the percentage of the
    tick; in frame 300 the completion callback after them; none in frames
    301 to 341; the completion callback again in frame 342; none
    afterwards. *)
Theorem run_reports (s : State) (n : nat) :
  configured s →
  notified (frames n (restart s))
  = notified s ++ concat (reported (callbacks s) <$> seq 1 n).
Proof. apply notified_frames. Qed.

(** *** Progress *)

(** The percentage reported at tick [k] of 300: [k / 3], rounded, and 100
    at most. *)
Definition percent (k : nat) : Z := Z.min 100 ((2 * Z.of_nat k + 3) / 6).

Lemma Q2Qc_lt (a b : Z) :
  Q2Qc (inject_Z a) < Q2Qc (inject_Z b) ↔ (a < b)%Z.
Proof.
  unfold Qclt. simpl. rewrite !Qred_correct. by rewrite <- Zlt_Qlt.
Qed.

Lemma Math_min_of_Z (a b : Z) : Math_min (of_Z a) (of_Z b) = of_Z (Z.min a b).
Proof.
  unfold Math_min, of_Z, lift2, Qc_min, Qc_ltb. f_equal.
  case_bool_decide as H.
  - apply (proj1 (Q2Qc_lt b a)) in H. by replace (Z.min a b) with b by lia.
  - assert (¬ (b < a)%Z) by (intros Hlt; by apply H, Q2Qc_lt).
    by replace (Z.min a b) with a by lia.
Qed.

Lemma progressOf_percent k : progressOf k 300 = of_Z (percent k).
Proof.
  unfold progressOf, percent. rewrite <- Math_min_of_Z. f_equal.
  unfold div, of_nat, of_Z.
  destruct (decide (Q2Qc (inject_Z (Z.of_nat 300)) = 0)) as [H|_].
  { by apply (f_equal this) in H. }
  unfold mul, lift2, Math_round, of_Z. do 3 f_equal.
  transitivity (Qfloor ((2 * Z.of_nat k + 3) # 6)); [|done].
  apply Qfloor_comp.
  unfold Qcmult, Qcdiv, Qcmult, Qcinv, Q2Qc, this.
  rewrite !Qred_correct.
  unfold Qeq, Qplus, Qmult, Qinv, inject_Z. simpl. lia.
Qed.

(** X10. The progress reported to the progress callback is a whole
    percentage between 0 and 100, it never decreases from one tick to a
    later one, and it is 100 at the last tick of the budget. *)
Theorem progress_is_a_rising_percentage (k k' : nat) :
  ∃ z z' : Z,
    progressOf k 300 = of_Z z ∧ progressOf k' 300 = of_Z z'
    ∧ (0 ≤ z ≤ 100)%Z
    ∧ ((k ≤ k')%nat → (z ≤ z')%Z)
    ∧ ((300 ≤ k)%nat → z = 100%Z).
Proof.
  exists (percent k), (percent k'). rewrite !progressOf_percent.
  do 2 (split; [done|]). unfold percent.
  assert (H0 : (0 ≤ (2 * Z.of_nat k + 3) / 6)%Z)
    by (apply Z.div_pos; lia).
  split; [lia|]. split.
  - intros Hk.
    assert ((2 * Z.of_nat k + 3) / 6 ≤ (2 * Z.of_nat k' + 3) / 6)%Z
      by (apply Z.div_le_mono; lia).
    lia.
  - intros Hk.
    assert (100 ≤ (2 * Z.of_nat k + 3) / 6)%Z
      by (apply Z.div_le_lower_bound; lia).
    lia.
Qed.

(** *** Stopping *)

Lemma configured_stop_frames s m :
  configured s →
  configured (stop (frames m (restart s)))
  ∧ callbacks (stop (frames m (restart s))) = callbacks s.
Proof.
  intros Hs.
  destruct (inRun_frames s m Hs) as (H1 & H2 & H3 & H4 & H5 & _).
  by repeat split.
Qed.

Lemma frames_stop s n : frames n (stop s) = stop s.
Proof. induction n as [|n IH]; [done|]. by rewrite frames_S, IH. Qed.

(** X11. Stopping and starting again. [stop()], at any point of a run,
    calls no callback, the completion callback in particular, and none is
    called afterwards, however many frames pass; a [restart()] then starts
    a whole new run, with the full budget of 300 ticks and both its
    completions. *)
Theorem stop_then_restart (s : State) (m n : nat) :
  configured s →
  let s1 := stop (frames m (restart s)) in
  notified s1 = notified (frames m (restart s))
  ∧ frames n s1 = s1
  ∧ notified (frames n (restart s1))
    = notified s1 ++ concat (reported (callbacks s) <$> seq 1 n).
Proof.
  intros Hs s1. split; [done|]. split; [apply frames_stop|].
  destruct (configured_stop_frames s m Hs) as [Hc Hcb].
  fold s1 in Hc, Hcb. rewrite <- Hcb. by apply notified_frames.
Qed.

(** *** Frames only add to what has been reported *)

Lemma frame_appends s : ∃ l, notified (frame s) = notified s ++ l.
Proof.
  unfold frame, _onTick, _onSimulationEnd, notify.
  destruct (timer (simulation s)); simpl; [|exists []; by rewrite app_nil_r].
  destruct (isRunning s); simpl.
  - destruct (bool_decide _); simpl; destruct (Qc_ltb _ _); simpl;
      rewrite <- ?app_assoc; by eexists.
  - destruct (Qc_ltb _ _); simpl; [by eexists|].
    exists []. by rewrite app_nil_r.
Qed.

Lemma frames_appends n : ∀ s, ∃ l, notified (frames n s) = notified s ++ l.
Proof.
  induction n as [|n IH]; intros s; simpl.
  - exists []. by rewrite app_nil_r.
  - destruct (IH (frame s)) as [l2 ->]. destruct (frame_appends s) as [l1 ->].
    exists (l1 ++ l2). by rewrite app_assoc.
Qed.

Lemma frame_configured s :
  configured s → configured (frame s) ∧ callbacks (frame s) = callbacks s.
Proof.
  intros (H1 & H2 & H3 & H4).
  unfold configured, frame, _onTick, _onSimulationEnd, notify.
  destruct (timer (simulation s)); simpl; [|done].
  destruct (isRunning s); simpl.
  - destruct (bool_decide _); simpl; destruct (Qc_ltb _ _); simpl; done.
  - destruct (Qc_ltb _ _); simpl; done.
Qed.

(** A witness of [run_reports]: with only the completion callback set,
    it has been called twice 342 frames into a run. *)

Lemma run_reports_witness :
  completions (frames 342 (restart (onStabilizationComplete new))) = 2%nat.
Proof.
  unfold completions.
  rewrite (run_reports (onStabilizationComplete new) 342);
    [vm_compute; reflexivity|by repeat split].
Defined.

(** A witness of [stop_then_restart]: a run stopped after 10 frames stays
    as it is for the next 5. *)
Lemma stop_then_restart_witness :
  let s1 := stop (frames 10 (restart (onStabilizationComplete new))) in
  frames 5 s1 = s1.
Proof.
  intros s1.
  destruct (stop_then_restart (onStabilizationComplete new) 10 5
              ltac:(by repeat split)) as (_ & H & _).
  exact H.
Defined.

End NetworkSimulation.

(** ** NetworkRenderer ([core/renderer.js]): colour-flow animation *)

Module NetworkRenderer.
Import DataProcessor.

(** What a [setTimeout] callback of [animateColorTransition] does when it
    runs. *)
Inductive task :=
| WaveHop (connectedNodes : nat) (targetColor : option css_color)
    (isReverse : bool)
| NotifyComplete (promise : nat).

Inductive promise_state :=
| Pending
| Fulfilled
| Rejected (error : js_error).

(** A d3 transition started on an element. *)
Inductive transition :=
| FillTo (nodeId : string) (fill : option css_color) (start : nat)
| StrokeTo (sourceId targetId : string) (gradientId : string) (start : nat).

(** The renderer's elements with the data bound to them, what it has
    drawn, and the part of the JavaScript world it shares with its
    callers: the [connectedNodes] arrays (by address), the promises it
    returned, the pending timers (due time and task, in the order they
    were set) and the clock, in milliseconds. *)
Record State := mkState {
  svg : bool;
  nodeElements : option (list PNode);
  edgeElements : option (list PEdge);
  gradients : gmap string (css_color * css_color);
  transitions : list transition;
  arrays : list (list PNode);
  promises : list promise_state;
  timers : list (nat * task);
  now : nat;
  transitionComplete : bool;
  transitionCompleteCalls : nat
}.

Definition with_elements (ns : option (list PNode)) (es : option (list PEdge))
    (s : State) : State :=
  {| svg := svg s; nodeElements := ns; edgeElements := es;
     gradients := gradients s; transitions := transitions s;
     arrays := arrays s; promises := promises s; timers := timers s;
     now := now s; transitionComplete := transitionComplete s;
     transitionCompleteCalls := transitionCompleteCalls s |}.
Definition with_gradients (g : gmap string (css_color * css_color))
    (s : State) : State :=
  {| svg := svg s; nodeElements := nodeElements s;
     edgeElements := edgeElements s;
     gradients := g; transitions := transitions s;
     arrays := arrays s; promises := promises s; timers := timers s;
     now := now s; transitionComplete := transitionComplete s;
     transitionCompleteCalls := transitionCompleteCalls s |}.
Definition with_transitions (t : list transition) (s : State) : State :=
  {| svg := svg s; nodeElements := nodeElements s;
     edgeElements := edgeElements s;
     gradients := gradients s; transitions := t;
     arrays := arrays s; promises := promises s; timers := timers s;
     now := now s; transitionComplete := transitionComplete s;
     transitionCompleteCalls := transitionCompleteCalls s |}.
Definition with_arrays (a : list (list PNode)) (s : State) : State :=
  {| svg := svg s; nodeElements := nodeElements s;
     edgeElements := edgeElements s;
     gradients := gradients s; transitions := transitions s;
     arrays := a; promises := promises s; timers := timers s;
     now := now s; transitionComplete := transitionComplete s;
     transitionCompleteCalls := transitionCompleteCalls s |}.
Definition with_promises (p : list promise_state) (s : State) : State :=
  {| svg := svg s; nodeElements := nodeElements s;
     edgeElements := edgeElements s;
     gradients := gradients s; transitions := transitions s;
     arrays := arrays s; promises := p; timers := timers s;
     now := now s; transitionComplete := transitionComplete s;
     transitionCompleteCalls := transitionCompleteCalls s |}.
Definition with_timers (t : list (nat * task)) (s : State) : State :=
  {| svg := svg s; nodeElements := nodeElements s;
     edgeElements := edgeElements s;
     gradients := gradients s; transitions := transitions s;
     arrays := arrays s; promises := promises s; timers := t;
     now := now s; transitionComplete := transitionComplete s;
     transitionCompleteCalls := transitionCompleteCalls s |}.
Definition with_now (t : nat) (s : State) : State :=
  {| svg := svg s; nodeElements := nodeElements s;
     edgeElements := edgeElements s;
     gradients := gradients s; transitions := transitions s;
     arrays := arrays s; promises := promises s; timers := timers s;
     now := t; transitionComplete := transitionComplete s;
     transitionCompleteCalls := transitionCompleteCalls s |}.
Definition with_transitionCompleteCalls (n : nat) (s : State) : State :=
  {| svg := svg s; nodeElements := nodeElements s;
     edgeElements := edgeElements s;
     gradients := gradients s; transitions := transitions s;
     arrays := arrays s; promises := promises s; timers := timers s;
     now := now s; transitionComplete := transitionComplete s;
     transitionCompleteCalls := n |}.

(** [new NetworkRenderer(container, width, height)] *)
Definition new : State :=
  {| svg := false; nodeElements := None; edgeElements := None;
     gradients := ∅; transitions := []; arrays := []; promises := [];
     timers := []; now := 0; transitionComplete := false;
     transitionCompleteCalls := 0 |}.

(** [initialize()]: the SVG and its layers are created. *)
Definition initialize (s : State) : State :=
  {| svg := true; nodeElements := nodeElements s;
     edgeElements := edgeElements s;
     gradients := gradients s; transitions := transitions s;
     arrays := arrays s; promises := promises s; timers := timers s;
     now := now s; transitionComplete := transitionComplete s;
     transitionCompleteCalls := transitionCompleteCalls s |}.

(** [updateElements(nodes, edges)]: the data join binds every datum to an
    element (kept or new) in the order of the data, so the selections hold
    exactly the new data. Without layers ([initialize] not run) the first
    [selectAll] is on [null]. *)
Definition updateElements (nodes : list PNode) (edges : list PEdge)
    (s : State) : (js_error + unit) * State :=
  if svg s then (inr (), with_elements (Some nodes) (Some edges) s)
  else (inl (TypeError "this.edgeGroup is null"), s).

(** [setTimeout(task, delay)] *)
Definition setTimeout (t : task) (delay : nat) (s : State) : State :=
  with_timers (timers s ++ [(now s + delay, t)]) s.

(** [new Array]/[Array.from]: a fresh array, returned by address. *)
Definition newArray (l : list PNode) (s : State) : nat * State :=
  (length (arrays s), with_arrays (arrays s ++ [l]) s).

(** [getConnectedNodes(nodeId)]: the other endpoints of the edges at the
    node, each once, in edge order, as a fresh array. *)
Definition connectedOf (nodeId : string) (es : list PEdge) : list PNode :=
  foldl (λ acc d,
           if decide (pid (source d) = nodeId)
           then JSSet.add (target d) acc
           else if decide (pid (target d) = nodeId)
                then JSSet.add (source d) acc
                else acc) [] es.

Definition getConnectedNodes (nodeId : string) (s : State)
  : (js_error + nat) * State :=
  match edgeElements s with
  | None => (inl (TypeError "this.edgeElements is null"), s)
  | Some es =>
      let '(a, s') := newArray (connectedOf nodeId es) s in (inr a, s')
  end.

(** [_createGradient(id, startColor, endColor)] *)
Definition _createGradient (gid : string) (startColor endColor : css_color)
    (s : State) : State :=
  with_gradients (<[gid := (startColor, endColor)]> (gradients s)) s.

Definition gradientId (d : PEdge) : string :=
  "gradient-" +:+ pid (source d) +:+ "-" +:+ pid (target d).

Definition duration : nat := 300.

(** The callback of [connectedEdges.each] in [animateColorTransition],
    for the edge [d]. Its body declares [const targetColor], which hides
    the function's parameter of that name in the whole body: the
    initialiser of [sourceColor] reads it before its declaration when
    [d.source.id === nodeId], and so does its own initialiser when
    [d.target.id === nodeId]; either read raises a ReferenceError. Past
    the two declarations, [targetColor] is the colour of the edge's target
    node, and that is what the timer of the next hop would pass on. *)
Definition eachEdge (nodeId : string) (connectedNodes : nat)
    (isReverse : bool) (d : PEdge) (s : State) : (js_error + unit) * State :=
  if decide (pid (source d) = nodeId)
  then (inl (ReferenceError "targetColor"), s)
  else
    let sourceColor := pcolor (source d) in
    if decide (pid (target d) = nodeId)
    then (inl (ReferenceError "targetColor"), s)
    else
      let targetColor := pcolor (target d) in
      let s1 := _createGradient (gradientId d) sourceColor targetColor s in
      let s2 := with_transitions
                  (transitions s1
                   ++ [StrokeTo (pid (source d)) (pid (target d))
                         (gradientId d) (now s1)]) s1 in
      match arrays s2 !! connectedNodes with
      | Some (_ :: _) =>
          (inr (), setTimeout (WaveHop connectedNodes (Some targetColor)
                                 isReverse) duration s2)
      | _ => (inr (), s2)
      end.

(** [selection.each(callback)]: the elements in order, until one raises. *)
Fixpoint each (f : PEdge → State → (js_error + unit) * State)
    (es : list PEdge) (s : State) : (js_error + unit) * State :=
  match es with
  | [] => (inr (), s)
  | d :: rest =>
      match f d s with
      | (inl e, s') => (inl e, s')
      | (inr _, s') => each f rest s'
      end
  end.

Definition incident (nodeId : string) (d : PEdge) : Prop :=
  pid (source d) = nodeId ∨ pid (target d) = nodeId.

#[global] Instance incident_dec nodeId d : Decision (incident nodeId d).
Proof. unfold incident. apply _. Defined.

(** The executor of the promise [animateColorTransition] returns, with
    [p] the promise's address. *)
Definition executor (nodeId : string) (targetColor : option css_color)
    (connectedNodes : nat) (isReverse : bool) (p : nat) (s : State)
  : (js_error + unit) * State :=
  match nodeElements s with
  | None => (inl (TypeError "this.nodeElements is null"), s)
  | Some ns =>
      let node := filter (λ d, pid d = nodeId) ns in
      let s1 := with_transitions
                  (transitions s
                   ++ ((λ d, FillTo (pid d) targetColor (now s)) <$> node)) s in
      match edgeElements s1 with
      | None => (inl (TypeError "this.edgeElements is null"), s1)
      | Some es =>
          let connectedEdges := filter (incident nodeId) es in
          match each (eachEdge nodeId connectedNodes isReverse)
                  connectedEdges s1 with
          | (inl e, s2) => (inl e, s2)
          | (inr _, s2) => (inr (), setTimeout (NotifyComplete p) duration s2)
          end
      end
  end.

(** [animateColorTransition(nodeId, targetColor, connectedNodes,
    isReverse)]: a new promise, pending unless its executor raised, in
    which case it is rejected with the exception. *)
Definition animateColorTransition (nodeId : string)
    (targetColor : option css_color) (connectedNodes : nat)
    (isReverse : bool) (s : State) : nat * State :=
  let p := length (promises s) in
  let s0 := with_promises (promises s ++ [Pending]) s in
  match executor nodeId targetColor connectedNodes isReverse p s0 with
  | (inl e, s1) => (p, with_promises (<[p := Rejected e]> (promises s1)) s1)
  | (inr _, s1) => (p, s1)
  end.

(** What a timer's task does when it runs. *)
Definition runTask (t : task) (s : State) : State :=
  match t with
  | WaveHop a targetColor isReverse =>
      match arrays s !! a with
      | Some (nextNode :: rest) =>
          let s1 := with_arrays (<[a := rest]> (arrays s)) s in
          (animateColorTransition (pid nextNode) targetColor a isReverse s1).2
      | _ => s
      end
  | NotifyComplete p =>
      let s1 := if transitionComplete s
                then with_transitionCompleteCalls
                       (S (transitionCompleteCalls s)) s
                else s in
      match promises s1 !! p with
      | Some Pending => with_promises (<[p := Fulfilled]> (promises s1)) s1
      | _ => s1
      end
  end.

(** The index of the timer that runs next: the earliest due, and among
    those the first set. *)
Fixpoint nextTimer (ts : list (nat * task)) : option (nat * (nat * task)) :=
  match ts with
  | [] => None
  | t :: rest =>
      match nextTimer rest with
      | Some (i, t') => if bool_decide (t'.1 < t.1) then Some (S i, t')
                        else Some (0, t)
      | None => Some (0, t)
      end
  end.

(** The clock advances to the next timer, which runs. *)
Definition fireTimer (s : State) : State :=
  match nextTimer (timers s) with
  | None => s
  | Some (i, (due, t)) =>
      runTask t (with_timers (delete i (timers s))
                   (with_now (now s `max` due) s))
  end.

Fixpoint fireTimers (n : nat) (s : State) : State :=
  match n with
  | O => s
  | S n' => fireTimers n' (fireTimer s)
  end.

(** *** The wave never advances *)

Lemma each_incident nodeId a isReverse es s :
  Forall (incident nodeId) es →
  each (eachEdge nodeId a isReverse) es s
  = match es with
    | [] => (inr (), s)
    | _ :: _ => (inl (ReferenceError "targetColor"), s)
    end.
Proof.
  destruct es as [|d es]; [done|].
  intros [Hd _]%Forall_cons. simpl. unfold eachEdge.
  destruct (decide (pid (source d) = nodeId)); [done|].
  destruct (decide (pid (target d) = nodeId)); [done|].
  by destruct Hd.
Qed.

Lemma filter_incident_nil nodeId es :
  filter (incident nodeId) es = [] ↔ ¬ Exists (incident nodeId) es.
Proof.
  induction es as [|d es IH]; simpl.
  - split; [|done]. intros _ H. by apply Exists_nil in H.
  - rewrite filter_cons, Exists_cons. destruct (decide (incident nodeId d)).
    + split; [done|]. intros H. exfalso. apply H. by left.
    + rewrite IH. tauto.
Qed.

(** C4 (the code departs from it). What a call of
    [animateColorTransition] does, in full: it never touches a
    [connectedNodes] array and never sets a timer for a next hop. If the
    node has an incident edge, the returned promise is rejected at once
    with the ReferenceError raised in the loop over the edges, and no
    timer is set; if it has none, the promise is pending and the only
    timer set is the one that resolves it after 300 ms; without elements
    the promise is rejected with a TypeError. *)
Theorem colour_wave_never_advances (nodeId : string)
    (targetColor : option css_color) (connectedNodes : nat)
    (isReverse : bool) (s : State) :
  let r := animateColorTransition nodeId targetColor connectedNodes
             isReverse s in
  let p := r.1 in
  let s' := r.2 in
  arrays s' = arrays s
  ∧ p = length (promises s)
  ∧ match nodeElements s, edgeElements s with
    | Some ns, Some es =>
        if decide (Exists (incident nodeId) es)
        then promises s' !! p = Some (Rejected (ReferenceError "targetColor"))
             ∧ timers s' = timers s
        else promises s' !! p = Some Pending
             ∧ timers s' = timers s ++ [(now s + 300, NotifyComplete p)]
    | _, _ =>
        ∃ what, promises s' !! p = Some (Rejected (TypeError what))
                ∧ timers s' = timers s
    end.
Proof.
  unfold animateColorTransition, executor. simpl.
  destruct (nodeElements s) as [ns|] eqn:Hns; simpl.
  2:{ split; [done|]. split; [done|]. eexists. split; [|done].
      rewrite list_lookup_insert_eq; [done|]. rewrite length_app. simpl. lia. }
  destruct (edgeElements s) as [es|] eqn:Hes; simpl.
  2:{ split; [done|]. split; [done|]. eexists. split; [|done].
      rewrite list_lookup_insert_eq; [done|]. rewrite length_app. simpl. lia. }
  rewrite each_incident
    by (apply Forall_forall; by intros d [Hd _]%list_elem_of_filter).
  destruct (filter (incident nodeId) es) as [|d l] eqn:Hf; simpl.
  - apply filter_incident_nil in Hf. rewrite decide_False by done.
    split; [done|]. split; [done|]. split; [|done].
    rewrite lookup_app_r by lia. by rewrite Nat.sub_diag.
  - assert (Hex : Exists (incident nodeId) es).
    { destruct (decide (Exists (incident nodeId) es)) as [|Hn]; [done|].
      apply filter_incident_nil in Hn. congruence. }
    rewrite decide_True by done.
    split; [done|]. split; [done|]. split; [|done].
    rewrite list_lookup_insert_eq; [done|]. rewrite length_app. simpl. lia.
Qed.


(** No pending timer is a hop of the wave. *)
Definition noHop (s : State) : Prop :=
  Forall (λ t, ∀ a c r, t.2 ≠ WaveHop a c r) (timers s).

Lemma animate_noHop nodeId targetColor a isReverse s :
  noHop s → noHop (animateColorTransition nodeId targetColor a isReverse s).2.
Proof.
  intros Hs. unfold noHop, animateColorTransition, executor. simpl.
  destruct (nodeElements s) as [ns|]; simpl; [|done].
  destruct (edgeElements s) as [es|]; simpl; [|done].
  rewrite each_incident
    by (apply Forall_forall; by intros d [Hd _]%list_elem_of_filter).
  destruct (filter (incident nodeId) es); simpl; [|done].
  apply Forall_app. split; [done|]. by repeat constructor.
Qed.

Lemma nextTimer_Some ts i t :
  nextTimer ts = Some (i, t) → ts !! i = Some t.
Proof.
  revert i t. induction ts as [|t0 ts IH]; intros i t; simpl; [done|].
  destruct (nextTimer ts) as [[j t']|] eqn:E.
  - case_bool_decide; intros [= <- <-]; [by apply IH|done].
  - by intros [= <- <-].
Qed.

Lemma fireTimer_noHop s :
  noHop s → noHop (fireTimer s) ∧ arrays (fireTimer s) = arrays s.
Proof.
  intros Hs. unfold fireTimer.
  destruct (nextTimer (timers s)) as [[i [due t]]|] eqn:E; [|done].
  apply nextTimer_Some in E.
  assert (Ht : ∀ a c r, t ≠ WaveHop a c r).
  { unfold noHop in Hs. rewrite Forall_forall in Hs.
    apply (Hs (due, t)). by eapply list_elem_of_lookup_2. }
  destruct t as [a c r|p]; [by destruct (Ht a c r)|].
  assert (Hd : Forall (λ t, ∀ a c r, t.2 ≠ WaveHop a c r)
                 (delete i (timers s))).
  { unfold noHop in Hs. rewrite Forall_forall in *.
    intros x Hx. apply Hs. by eapply list_elem_of_delete_inv. }
  unfold runTask. simpl.
  destruct (transitionComplete s); simpl;
    destruct (promises s !! p) as [[| |]|]; done.
Qed.

(** Once no hop is pending none ever is, and the [connectedNodes] arrays
    stay as they are however many timers run: no node is popped. *)
Lemma fireTimers_arrays n : ∀ s,
  noHop s → arrays (fireTimers n s) = arrays s.
Proof.
  induction n as [|n IH]; intros s Hs; [done|]. simpl.
  destruct (fireTimer_noHop s Hs) as [Hn Ha]. by rewrite IH, Ha.
Qed.

(** A call makes one promise, the next of the store, and leaves the
    others as they are. *)
Lemma animate_promises nodeId targetColor a isReverse s :
  let r := animateColorTransition nodeId targetColor a isReverse s in
  r.1 = length (promises s) ∧ ∃ x, promises r.2 = promises s ++ [x].
Proof.
  assert (Hins : ∀ x, <[length (promises s) := x]> (promises s ++ [Pending])
                      = promises s ++ [x]).
  { intros x. rewrite insert_app_r_alt by lia. by rewrite Nat.sub_diag. }
  unfold animateColorTransition, executor. simpl.
  destruct (nodeElements s) as [ns|]; simpl; [|by eauto].
  destruct (edgeElements s) as [es|]; simpl; [|by eauto].
  rewrite each_incident
    by (apply Forall_forall; by intros d [Hd _]%list_elem_of_filter).
  destruct (filter (incident nodeId) es); simpl; by eauto.
Qed.

(** A timer that runs settles at most its own promise: none becomes
    pending, none is added. *)
Lemma fireTimer_promises s :
  noHop s →
  length (promises (fireTimer s)) = length (promises s)
  ∧ ∀ k, promises (fireTimer s) !! k = Some Pending
         → promises s !! k = Some Pending.
Proof.
  intros Hs. unfold fireTimer.
  destruct (nextTimer (timers s)) as [[i [due t]]|] eqn:E; [|done].
  apply nextTimer_Some in E.
  destruct t as [a c r|p].
  { exfalso. unfold noHop in Hs. rewrite Forall_forall in Hs.
    apply (Hs (due, WaveHop a c r) (list_elem_of_lookup_2 _ _ _ E) a c r).
    done. }
  unfold runTask.
  assert (Hp : ∀ s0 : State, promises s0 = promises s →
            let s1 := match promises s0 !! p with
                      | Some Pending =>
                          with_promises (<[p := Fulfilled]> (promises s0)) s0
                      | _ => s0
                      end in
            length (promises s1) = length (promises s)
            ∧ ∀ k, promises s1 !! k = Some Pending
                   → promises s !! k = Some Pending).
  { intros s0 H0. simpl.
    destruct (promises s0 !! p) as [[| |]|] eqn:Ep; try by rewrite H0.
    simpl. rewrite H0 in *. rewrite length_insert. split; [done|]. intros k.
    destruct (decide (k = p)) as [->|Hne].
    - rewrite list_lookup_insert_eq; [done|]. by eapply lookup_lt_Some.
    - by rewrite list_lookup_insert_ne. }
  destruct (transitionComplete _); apply Hp; done.
Qed.

(** The failing input of C4: nodes a and b joined by the edge a → b, and
    the call [animateColorTransition("a", "green", [b], false)] at time 0.
    The promise is rejected at once, no timer is set, and b is still in
    the array after any number of timers. *)
Definition plain (i : string) (c : string) : PNode :=
  {| node := mkNode i i JS.VUndefined (Some c) JS.VUndefined JS.VUndefined;
     size := JS.of_Z 12; collisionRadius := JS.of_Z 18; pcolor := Css c;
     px := JS.VUndefined; py := JS.VUndefined;
     metadata := {| degree := 1; importance := JS.of_Z 0 |} |}.

Definition twoNodes : State :=
  with_arrays [[plain "b" "blue"]]
    (with_elements
       (Some [plain "a" "red"; plain "b" "blue"])
       (Some [ {| edge := mkEdge "a" "b" None;
                  source := plain "a" "red"; target := plain "b" "blue";
                  width := JS.of_Z 1; elength := JS.of_Z 200 |} ])
       (initialize new)).

Example wave_on_two_nodes :
  let r := animateColorTransition "a" (Some (Css "green")) 0 false twoNodes in
  promises r.2 !! r.1 = Some (Rejected (ReferenceError "targetColor"))
  ∧ timers r.2 = []
  ∧ now r.2 = 0
  ∧ transitions r.2 = [FillTo "a" (Some (Css "green")) 0]
  ∧ ∀ n, arrays (fireTimers n r.2) = [[plain "b" "blue"]].
Proof.
  repeat split. intros n. rewrite fireTimers_arrays; [done|]. constructor.
Qed.

(** *** Neighbours *)

(** [n] is at the other end of the edge [d] from the node [nodeId], the
    way [getConnectedNodes] reads an edge: an edge that starts at the node
    gives its target, any other edge that ends at the node its source. *)
Definition acrossFrom (nodeId : string) (d : PEdge) (n : PNode) : Prop :=
  (pid (source d) = nodeId ∧ n = target d)
  ∨ (pid (source d) ≠ nodeId ∧ pid (target d) = nodeId ∧ n = source d).

Lemma connectedOf_foldl nodeId es : ∀ acc,
  let l := foldl (λ acc d,
                    if decide (pid (source d) = nodeId)
                    then JSSet.add (target d) acc
                    else if decide (pid (target d) = nodeId)
                         then JSSet.add (source d) acc
                         else acc) acc es in
  (NoDup acc → NoDup l)
  ∧ ∀ n, n ∈ l ↔ n ∈ acc ∨ ∃ d, d ∈ es ∧ acrossFrom nodeId d n.
Proof.
  induction es as [|d es IH]; intros acc; simpl.
  - split; [done|]. intros n. split; [by left|].
    intros [?|(d & Hd & _)]; [done|]. by apply elem_of_nil in Hd.
  - match goal with |- context [foldl _ ?a es] => destruct (IH a) as [Hnd Hin]
    end.
    split.
    + intros Hacc. apply Hnd. repeat case_decide; try done;
        by apply JSSet.add_NoDup.
    + intros n. rewrite Hin. unfold acrossFrom.
      destruct (decide (pid (source d) = nodeId)) as [Hs|Hs].
      * rewrite JSSet.elem_of_add. split.
        -- intros [[->|?]|(d' & Hd' & H')].
           ++ right. exists d. split; [by left|]. by left.
           ++ by left.
           ++ right. exists d'. split; [by right|done].
        -- intros [?|(d' & [->|Hd']%elem_of_cons & H')].
           ++ left. by right.
           ++ left. left. destruct H' as [[_ ->]|[? _]]; done.
           ++ right. by exists d'.
      * destruct (decide (pid (target d) = nodeId)) as [Ht|Ht].
        -- rewrite JSSet.elem_of_add. split.
           ++ intros [[->|?]|(d' & Hd' & H')].
              ** right. exists d. split; [by left|]. by right.
              ** by left.
              ** right. exists d'. split; [by right|done].
           ++ intros [?|(d' & [->|Hd']%elem_of_cons & H')].
              ** left. by right.
              ** left. left. destruct H' as [[? _]|(_ & _ & ->)]; done.
              ** right. by exists d'.
        -- split.
           ++ intros [?|(d' & Hd' & H')]; [by left|].
              right. exists d'. split; [by right|done].
           ++ intros [?|(d' & [->|Hd']%elem_of_cons & H')]; [by left| |].
              ** destruct H' as [[? _]|(_ & ? & _)]; done.
              ** right. by exists d'.
Qed.

Lemma connectedOf_spec nodeId es :
  NoDup (connectedOf nodeId es)
  ∧ ∀ n, n ∈ connectedOf nodeId es ↔ ∃ d, d ∈ es ∧ acrossFrom nodeId d n.
Proof.
  destruct (connectedOf_foldl nodeId es []) as [Hnd Hin].
  split; [apply Hnd; constructor|].
  intros n. unfold connectedOf. rewrite Hin. split; [|by right].
  intros [H|H]; [by apply elem_of_nil in H|done].
Qed.

Lemma acrossFrom_ends nodeId d n es :
  d ∈ es → acrossFrom nodeId d n → n ∈ ends es.
Proof.
  intros Hd Hn. apply list_elem_of_bind. exists d. split; [|done].
  destruct Hn as [[_ ->]|(_ & _ & ->)]; [right|]; by left.
Qed.

(** X12. The code collects the connected nodes in a [Set] of node
    objects. When the ends of the edges that carry one id are one node, as
    they are in what [processData] returns, that is a set of ids. With
    such edges in place, [getConnectedNodes(nodeId)] returns a new array
    that holds the nodes at the other end of the edges that start or end
    at the node, no two of one id, and no others. *)
Theorem connected_nodes_are_the_neighbours (nodeId : string) (s : State)
    (es : list PEdge) :
  edgeElements s = Some es →
  oneNodePerId es →
  let r := getConnectedNodes nodeId s in
  ∃ l, r.1 = inr (length (arrays s))
       ∧ arrays r.2 = arrays s ++ [l]
       ∧ NoDup (pid <$> l)
       ∧ ∀ n, n ∈ l ↔ ∃ d, d ∈ es ∧ acrossFrom nodeId d n.
Proof.
  intros He Hone. unfold getConnectedNodes. rewrite He. simpl.
  exists (connectedOf nodeId es). do 2 (split; [done|]).
  destruct (connectedOf_spec nodeId es) as [Hnd Hin].
  split; [|done].
  apply NoDup_fmap_2_strong; [|done].
  intros n m Hn Hm Hid.
  apply Hin in Hn as (d & Hd & Hn). apply Hin in Hm as (d' & Hd' & Hm).
  apply Hone; [by apply (acrossFrom_ends nodeId d)
              |by apply (acrossFrom_ends nodeId d')|done].
Qed.

(** X13. Being connected does not depend on the direction of the edges:
    a node with id [b] is among the nodes connected to [a] exactly when a
    node with id [a] is among the nodes connected to [b]. *)
Theorem connected_is_symmetric (a b : string) (es : list PEdge) :
  (∃ n, n ∈ connectedOf a es ∧ pid n = b)
  ↔ (∃ m, m ∈ connectedOf b es ∧ pid m = a).
Proof.
  assert (H : ∀ a b, (∃ n, n ∈ connectedOf a es ∧ pid n = b)
                     → ∃ m, m ∈ connectedOf b es ∧ pid m = a).
  { clear a b. intros a b (n & Hn & Hb).
    apply (proj2 (connectedOf_spec a es)) in Hn as (d & Hd & Hacross).
    destruct Hacross as [[Hs ->]|(Hs & Ht & ->)].
    - destruct (decide (pid (source d) = b)) as [Hsb|Hsb].
      + exists (target d). split; [|congruence].
        apply (proj2 (connectedOf_spec b es)). exists d. split; [done|].
        by left.
      + exists (source d). split; [|done].
        apply (proj2 (connectedOf_spec b es)). exists d. split; [done|].
        by right.
    - exists (target d). split; [|done].
      apply (proj2 (connectedOf_spec b es)). exists d. split; [done|].
      by left. }
  split; apply H.
Qed.

(** *** What [animateColorTransition] does and does not do *)

Lemma animate_unfold nodeId targetColor a isReverse s ns es :
  nodeElements s = Some ns → edgeElements s = Some es →
  let p := length (promises s) in
  let fills := (λ d, FillTo (pid d) targetColor (now s))
                 <$> filter (λ d, pid d = nodeId) ns in
  let s1 := with_transitions (transitions s ++ fills)
              (with_promises (promises s ++ [Pending]) s) in
  animateColorTransition nodeId targetColor a isReverse s
  = if decide (Exists (incident nodeId) es)
    then (p, with_promises
               (<[p := Rejected (ReferenceError "targetColor")]> (promises s1))
               s1)
    else (p, setTimeout (NotifyComplete p) duration s1).
Proof.
  intros Hns Hes. unfold animateColorTransition, executor. simpl.
  rewrite Hns. simpl. rewrite Hes.
  rewrite each_incident
    by (apply Forall_forall; by intros d [Hd _]%list_elem_of_filter).
  destruct (filter (incident nodeId) es) as [|d l] eqn:Hf.
  - apply filter_incident_nil in Hf. by rewrite decide_False.
  - rewrite decide_True; [done|].
    destruct (decide (Exists (incident nodeId) es)) as [|Hn]; [done|].
    apply filter_incident_nil in Hn. congruence.
Qed.

Definition isStroke (t : transition) : bool :=
  match t with StrokeTo _ _ _ _ => true | FillTo _ _ _ => false end.

Lemma filter_isStroke_fills targetColor t (ns : list PNode) :
  filter isStroke ((λ d, FillTo (pid d) targetColor t) <$> ns) = [].
Proof. induction ns as [|n ns IH]; [done|]. by rewrite fmap_cons. Qed.

(** X14. Whatever its arguments and the state of the renderer, a call of
    [animateColorTransition] creates no gradient and starts no transition
    on the stroke of an edge: the statements that would are never
    reached. *)
Theorem edges_are_never_repainted (nodeId : string)
    (targetColor : option css_color) (connectedNodes : nat)
    (isReverse : bool) (s : State) :
  let s' := (animateColorTransition nodeId targetColor connectedNodes
               isReverse s).2 in
  gradients s' = gradients s
  ∧ filter isStroke (transitions s') = filter isStroke (transitions s).
Proof.
  destruct (nodeElements s) as [ns|] eqn:Hns.
  2:{ unfold animateColorTransition, executor. simpl. by rewrite Hns. }
  destruct (edgeElements s) as [es|] eqn:Hes.
  2:{ unfold animateColorTransition, executor. simpl. rewrite Hns. simpl.
      rewrite Hes. simpl. split; [done|].
      by rewrite filter_app, filter_isStroke_fills, app_nil_r. }
  rewrite (animate_unfold _ _ _ _ _ ns es) by done.
  destruct (decide _); simpl;
    (split; [done|]; by rewrite filter_app, filter_isStroke_fills, app_nil_r).
Qed.

(** X15. A node without edges is animated as intended. With the elements
    in place and no timer pending, a call for a node that no edge starts
    or ends at starts the fill transition of the node's elements, returns
    a promise that is pending, and sets one timer; when that timer runs,
    300 ms later, the completion callback is called if one is set, the
    promise is fulfilled and no timer is left. *)
Theorem lone_node_resolves_after_300ms (nodeId : string)
    (targetColor : option css_color) (connectedNodes : nat)
    (isReverse : bool) (s : State) (ns : list PNode) (es : list PEdge) :
  nodeElements s = Some ns → edgeElements s = Some es →
  ¬ Exists (incident nodeId) es →
  timers s = [] →
  let r := animateColorTransition nodeId targetColor connectedNodes
             isReverse s in
  let s' := fireTimer r.2 in
  transitions r.2
  = transitions s ++ ((λ d, FillTo (pid d) targetColor (now s))
                        <$> filter (λ d, pid d = nodeId) ns)
  ∧ promises r.2 !! r.1 = Some Pending
  ∧ now r.2 = now s
  ∧ promises s' !! r.1 = Some Fulfilled
  ∧ now s' = now s + 300
  ∧ timers s' = []
  ∧ transitionCompleteCalls s'
    = transitionCompleteCalls s + (if transitionComplete s then 1 else 0).
Proof.
  intros Hns Hes Hno Ht r s'. subst s' r.
  rewrite (animate_unfold _ _ _ _ _ ns es) by done.
  rewrite decide_False by done. simpl.
  assert (Hp : (promises s ++ [Pending]) !! length (promises s)
               = Some Pending).
  { rewrite lookup_app_r by lia. by rewrite Nat.sub_diag. }
  do 3 (split; [done|]).
  unfold fireTimer, setTimeout. simpl. rewrite Ht. simpl.
  unfold duration.
  replace (now s `max` (now s + 300)) with (now s + 300) by lia.
  destruct (transitionComplete s) eqn:Hc; simpl; rewrite Hp; simpl.
  - repeat split; try done; try lia.
    rewrite list_lookup_insert_eq; [done|]. rewrite length_app. simpl. lia.
  - repeat split; try done; try lia.
    rewrite list_lookup_insert_eq; [done|]. rewrite length_app. simpl. lia.
Qed.

(** *** The elements stay in place *)

(** The SVG and the elements with their data: what [initialize] and
    [updateElements] set up. *)
Definition elementsOf (s : State) :=
  (svg s, nodeElements s, edgeElements s).

Lemma eachEdge_elementsOf i a r d s :
  elementsOf (eachEdge i a r d s).2 = elementsOf s.
Proof.
  unfold eachEdge. repeat case_decide; try done. simpl.
  destruct (arrays s !! a) as [[|]|]; by destruct s.
Qed.

Lemma each_elementsOf i a r es : ∀ s,
  elementsOf (each (eachEdge i a r) es s).2 = elementsOf s.
Proof.
  induction es as [|d es IH]; intros s; simpl; [done|].
  pose proof (eachEdge_elementsOf i a r d s) as Hd.
  destruct (eachEdge i a r d s) as [[e|[]] s']; [done|].
  simpl in *. by rewrite IH.
Qed.

Lemma animate_elementsOf i c a r s :
  elementsOf (animateColorTransition i c a r s).2 = elementsOf s.
Proof.
  unfold animateColorTransition, executor. simpl.
  destruct (nodeElements s) eqn:Hn; [|done]. simpl.
  destruct (edgeElements s) as [es|] eqn:E; simpl;
    [|by destruct s].
  match goal with |- context [each ?f ?l ?s0] =>
    pose proof (each_elementsOf i a r l s0) as H;
    destruct (each f l s0) as [[e|[]] s'] end;
    simpl in *;
    (transitivity (elementsOf s'); [by destruct s'|]); rewrite H;
    by destruct s.
Qed.

Lemma fireTimer_elementsOf s : elementsOf (fireTimer s) = elementsOf s.
Proof.
  unfold fireTimer.
  destruct (nextTimer (timers s)) as [[i [due t]]|]; [|done].
  destruct t as [a c r|p]; simpl.
  - destruct (arrays s !! a) as [[|n rest]|] eqn:E; simpl; try by destruct s.
    rewrite animate_elementsOf. by destruct s.
  - destruct (transitionComplete s); simpl;
      destruct (promises s !! p) as [[| |]|]; by destruct s.
Qed.

(** A witness of [connected_nodes_are_the_neighbours]: b is connected to
    a by the edge a → b. *)
Lemma connected_nodes_witness :
  ∃ l, arrays (getConnectedNodes "a" twoNodes).2 = arrays twoNodes ++ [l]
       ∧ (plain "b" "blue" ∈ l).
Proof.
  destruct (connected_nodes_are_the_neighbours "a" twoNodes _ eq_refl)
    as (l & _ & Ha & _ & Hin).
  - intros n m Hn Hm Hid. simpl in Hn, Hm.
    apply elem_of_cons in Hn as [->|Hn];
      [|apply list_elem_of_singleton in Hn as ->];
      (apply elem_of_cons in Hm as [->|Hm];
       [|apply list_elem_of_singleton in Hm as ->]);
      done.
  - exists l. split; [done|]. apply Hin.
    eexists. split; [by left|]. by left.
Defined.

(** A witness of [lone_node_resolves_after_300ms]: a single node without
    edges. *)
Lemma lone_node_witness :
  let s := with_elements (Some [plain "a" "red"]) (Some []) (initialize new) in
  let r := animateColorTransition "a" (Some (Css "green")) 0 false s in
  promises (fireTimer r.2) !! r.1 = Some Fulfilled
  ∧ now (fireTimer r.2) = 300.
Proof.
  intros s r.
  destruct (lone_node_resolves_after_300ms "a" (Some (Css "green")) 0 false s
              [plain "a" "red"] [] eq_refl eq_refl)
    as (_ & _ & _ & Hf & Hn & _).
  - by intros H%Exists_nil.
  - done.
  - done.
Defined.

End NetworkRenderer.

(** ** NetworkVisualization ([core/network.js]): the controller *)

Module NetworkVisualization.
Import DataProcessor.

Inductive transition_type :=
| select
| unselect
| restore.

(** A descriptor of the transition queue; [connectedNodes] is the address
    of its array. *)
Record Transition := mkTransition {
  type : transition_type;
  nodeId : string;
  targetColor : option css_color;
  connectedNodes : nat
}.

#[global] Instance transition_type_eq_dec : EqDecision transition_type.
Proof. solve_decision. Defined.
#[global] Instance Transition_eq_dec : EqDecision Transition.
Proof. solve_decision. Defined.

(** The data of an emitted event. *)
Inductive payload :=
| NoData
| Selection (nodeId : string) (selectedNodes : list string)
| Percent (progress : JS.number).

(** A call of one component by [updateData], for the order of its steps. *)
Inductive call :=
| call_initialize
| call_processData
| call_updateElements
| call_stop
| call_setData
| call_restart.

#[global] Instance call_eq_dec : EqDecision call.
Proof. solve_decision. Defined.

(** The controller's fields, followed by what it has done to the world:
    console output, events emitted, the activations of
    [_processTransitionQueue] suspended at their [await] (each with its
    descriptor and the promise it waits for), the descriptors ever queued
    and ever started, the component calls of [updateData], and the number
    of [Math.random()] draws so far. *)
Record State := mkState {
  renderer : NetworkRenderer.State;
  simulation : NetworkSimulation.State;
  events : gmap string (list EventManager.callback);
  isInitialized : bool;
  selectedNodes : list string;
  selectionColor : option css_color;
  originalColors : gmap string css_color;
  transitionQueue : list Transition;
  isTransitioning : bool;
  console : list console_msg;
  emitted : list (string * payload);
  suspended : list (Transition * nat);
  enqueued : list Transition;
  started : list Transition;
  calls : list call;
  draws : nat
}.

Definition with_renderer (x : NetworkRenderer.State) (s : State) : State :=
  let 'mkState _ b c d e f g h i j k l m n o p := s in
  mkState x b c d e f g h i j k l m n o p.
Definition with_simulation (x : NetworkSimulation.State) (s : State) : State :=
  let 'mkState a _ c d e f g h i j k l m n o p := s in
  mkState a x c d e f g h i j k l m n o p.
Definition with_events (x : gmap string (list EventManager.callback))
    (s : State) : State :=
  let 'mkState a b _ d e f g h i j k l m n o p := s in
  mkState a b x d e f g h i j k l m n o p.
Definition with_isInitialized (x : bool) (s : State) : State :=
  let 'mkState a b c _ e f g h i j k l m n o p := s in
  mkState a b c x e f g h i j k l m n o p.
Definition with_selectedNodes (x : list string) (s : State) : State :=
  let 'mkState a b c d _ f g h i j k l m n o p := s in
  mkState a b c d x f g h i j k l m n o p.
Definition with_selectionColor (x : option css_color) (s : State) : State :=
  let 'mkState a b c d e _ g h i j k l m n o p := s in
  mkState a b c d e x g h i j k l m n o p.
Definition with_originalColors (x : gmap string css_color) (s : State)
  : State :=
  let 'mkState a b c d e f _ h i j k l m n o p := s in
  mkState a b c d e f x h i j k l m n o p.
Definition with_transitionQueue (x : list Transition) (s : State) : State :=
  let 'mkState a b c d e f g _ i j k l m n o p := s in
  mkState a b c d e f g x i j k l m n o p.
Definition with_isTransitioning (x : bool) (s : State) : State :=
  let 'mkState a b c d e f g h _ j k l m n o p := s in
  mkState a b c d e f g h x j k l m n o p.
Definition with_console (x : list console_msg) (s : State) : State :=
  let 'mkState a b c d e f g h i _ k l m n o p := s in
  mkState a b c d e f g h i x k l m n o p.
Definition with_emitted (x : list (string * payload)) (s : State) : State :=
  let 'mkState a b c d e f g h i j _ l m n o p := s in
  mkState a b c d e f g h i j x l m n o p.
Definition with_suspended (x : list (Transition * nat)) (s : State) : State :=
  let 'mkState a b c d e f g h i j k _ m n o p := s in
  mkState a b c d e f g h i j k x m n o p.
Definition with_enqueued (x : list Transition) (s : State) : State :=
  let 'mkState a b c d e f g h i j k l _ n o p := s in
  mkState a b c d e f g h i j k l x n o p.
Definition with_started (x : list Transition) (s : State) : State :=
  let 'mkState a b c d e f g h i j k l m _ o p := s in
  mkState a b c d e f g h i j k l m x o p.
Definition with_calls (x : list call) (s : State) : State :=
  let 'mkState a b c d e f g h i j k l m n _ p := s in
  mkState a b c d e f g h i j k l m n x p.
Definition with_draws (x : nat) (s : State) : State :=
  let 'mkState a b c d e f g h i j k l m n o _ := s in
  mkState a b c d e f g h i j k l m n o x.

(** *** Computations that change the controller and may raise *)

Definition M (A : Type) : Type := State → (js_error + A) * State.

Definition ret {A} (a : A) : M A := λ s, (inr a, s).
Definition throw {A} (e : js_error) : M A := λ s, (inl e, s).
Definition bind {A B} (m : M A) (k : A → M B) : M B :=
  λ s, match m s with
       | (inl e, s') => (inl e, s')
       | (inr a, s') => k a s'
       end.
Definition gets {A} (f : State → A) : M A := λ s, (inr (f s), s).
Definition modify (f : State → State) : M unit := λ s, (inr (), f s).
Definition when (b : bool) (m : M unit) : M unit := if b then m else ret ().

Notation "x <- m ;; k" := (bind m (λ x, k))
  (at level 100, m at next level, right associativity).
Notation "m ;; k" := (bind m (λ _, k))
  (at level 100, right associativity).

(** [for (const x of xs) body] *)
Fixpoint forEach {A} (xs : list A) (body : A → M unit) : M unit :=
  match xs with
  | [] => ret ()
  | x :: rest => body x ;; forEach rest body
  end.

Section WithRuntime.

(** The JavaScript runtime ([parseFloat] on strings, [Math.pow],
    [Math.random]), d3's clamped linear scale, and the subscribers'
    behaviour: [raises cb d] when the callback [cb] throws on the data
    [d]. *)
Variable parseFloatString : string → JS.number.
Variable Math_pow : JS.number → JS.number → JS.number.
Variable Math_random : nat → JS.number.
Variable scaleLinear_clamped :
  JS.number → JS.number → JS.number → JS.number → JS.number → JS.number.
Variable raises : EventManager.callback → payload → bool.

(** [this.events.emit(eventName, data)] *)
Definition emit (eventName : string) (data : payload) : M unit :=
  modify (λ s,
    let out := (EventManager.emit raises eventName data (events s)).2 in
    with_console (console s ++ out)
      (with_emitted (emitted s ++ [(eventName, data)]) s)).

(** [_getConnectedNodes(node)] *)
Definition _getConnectedNodes (id : string) : M nat :=
  λ s, let '(r, rs) := NetworkRenderer.getConnectedNodes id (renderer s) in
       (r, with_renderer rs s).

(** [_processTransitionQueue()], up to its [await]: the activation is then
    suspended until the promise is settled. *)
Definition _processTransitionQueue (s : State) : State :=
  if isTransitioning s then s
  else
    match transitionQueue s with
    | [] => s
    | transition :: rest =>
        let s1 := with_started (started s ++ [transition])
                    (with_transitionQueue rest
                       (with_isTransitioning true s)) in
        let '(p, rs) :=
          NetworkRenderer.animateColorTransition
            (nodeId transition) (targetColor transition)
            (connectedNodes transition)
            (bool_decide (type transition = unselect)) (renderer s1) in
        with_suspended (suspended s1 ++ [(transition, p)])
          (with_renderer rs s1)
    end.

(** [_processTransitionQueue()], from its [await] on, for the [k]-th
    suspended activation: nothing happens while its promise is pending; a
    rejection is caught and logged; then the flag is cleared and the queue
    processed again. *)
Definition resume (k : nat) (s : State) : State :=
  match suspended s !! k with
  | None => s
  | Some (transition, p) =>
      let continue s0 :=
        _processTransitionQueue
          (with_isTransitioning false
             (with_suspended (delete k (suspended s0)) s0)) in
      match NetworkRenderer.promises (renderer s) !! p with
      | Some NetworkRenderer.Fulfilled => continue s
      | Some (NetworkRenderer.Rejected error) =>
          continue (with_console
                      (console s ++ [error_TransitionFailed error]) s)
      | _ => s
      end
  end.

(** [_queueTransition(transition)] *)
Definition _queueTransition (transition : Transition) : M unit :=
  modify (λ s,
    let s1 := with_enqueued (enqueued s ++ [transition])
                (with_transitionQueue (transitionQueue s ++ [transition]) s) in
    if isTransitioning s1 then s1 else _processTransitionQueue s1).

(** [_restoreAllColors()] *)
Definition _restoreAllColors : M unit :=
  ids <- gets selectedNodes ;;
  forEach ids (λ nodeId,
    target <- gets (λ s, originalColors s !! nodeId) ;;
    connected <- _getConnectedNodes nodeId ;;
    _queueTransition {| type := restore; nodeId := nodeId;
                        targetColor := target;
                        connectedNodes := connected |}) ;;
  modify (with_selectedNodes []) ;;
  modify (with_selectionColor None) ;;
  emit "selectionCleared" NoData.

(** [_selectNode(node)] *)
Definition _selectNode (node : PNode) : M unit :=
  known <- gets (λ s, bool_decide (is_Some (originalColors s !! pid node))) ;;
  when (negb known)
    (modify (λ s, with_originalColors
                    (<[pid node := pcolor node]> (originalColors s)) s)) ;;
  size <- gets (λ s, length (selectedNodes s)) ;;
  when (bool_decide (size = 0))
    (modify (with_selectionColor (Some (pcolor node)))) ;;
  target <- gets selectionColor ;;
  connected <- _getConnectedNodes (pid node) ;;
  _queueTransition {| type := select; nodeId := pid node;
                      targetColor := target;
                      connectedNodes := connected |} ;;
  modify (λ s, with_selectedNodes (JSSet.add (pid node) (selectedNodes s)) s) ;;
  selected <- gets selectedNodes ;;
  emit "nodeSelected" (Selection (pid node) selected).

(** [_unselectNode(node)] *)
Definition _unselectNode (node : PNode) : M unit :=
  target <- gets (λ s, originalColors s !! pid node) ;;
  connected <- _getConnectedNodes (pid node) ;;
  _queueTransition {| type := unselect; nodeId := pid node;
                      targetColor := target;
                      connectedNodes := connected |} ;;
  modify (λ s, with_selectedNodes
                 (JSSet.delete (pid node) (selectedNodes s)) s) ;;
  size <- gets (λ s, length (selectedNodes s)) ;;
  when (bool_decide (size = 0)) _restoreAllColors ;;
  selected <- gets selectedNodes ;;
  emit "nodeUnselected" (Selection (pid node) selected).

(** [_handleNodeClick(node)] *)
Definition _handleNodeClick (node : option PNode) : M unit :=
  match node with
  | None => ret ()
  | Some node =>
      has <- gets (λ s, JSSet.has (pid node) (selectedNodes s)) ;;
      if has then _unselectNode node else _selectNode node
  end.

(** [_handleBackgroundClick()] *)
Definition _handleBackgroundClick : M unit :=
  size <- gets (λ s, length (selectedNodes s)) ;;
  when (negb (bool_decide (size = 0))) _restoreAllColors.

(** [new NetworkVisualization(container, options)], before the
    initialisation it starts has run. *)
Definition new : State :=
  {| renderer := NetworkRenderer.new;
     simulation := NetworkSimulation.new;
     events := EventManager.new;
     isInitialized := false;
     selectedNodes := [];
     selectionColor := None;
     originalColors := ∅;
     transitionQueue := [];
     isTransitioning := false;
     console := []; emitted := []; suspended := [];
     enqueued := []; started := []; calls := []; draws := 0 |}.

Definition record (c : call) : M unit :=
  modify (λ s, with_calls (calls s ++ [c]) s).

(** [_initialize()]: the renderer is initialised, a new simulation made
    and its three callbacks set. *)
Definition _initialize : M unit :=
  record call_initialize ;;
  modify (λ s, with_renderer (NetworkRenderer.initialize (renderer s)) s) ;;
  modify (with_simulation
            (NetworkSimulation.onStabilizationComplete
               (NetworkSimulation.onStabilizationProgress
                  (NetworkSimulation.onTick NetworkSimulation.new)))) ;;
  modify (with_isInitialized true).

(** The [try] block of [updateData]. *)
Definition updateData_try (nodesData : list Node) (edgesData : list Edge)
  : M unit :=
  record call_processData ;;
  k <- gets draws ;;
  let processed := processData parseFloatString Math_pow Math_random
                     scaleLinear_clamped k nodesData edgesData in
  modify (λ s, with_draws (DataProcessor.draws processed)
                 (with_console
                    (console s ++ DataProcessor.console processed) s)) ;;
  record call_updateElements ;;
  (λ s, let '(r, rs) :=
          NetworkRenderer.updateElements (processedNodes processed)
            (processedEdges processed) (renderer s) in
        (r, with_renderer rs s)) ;;
  record call_stop ;;
  modify (λ s, with_simulation (NetworkSimulation.stop (simulation s)) s) ;;
  record call_setData ;;
  modify (λ s, with_simulation
                 (NetworkSimulation.setData (processedNodes processed)
                    (processedEdges processed) (simulation s)) s) ;;
  record call_restart ;;
  modify (λ s, with_simulation (NetworkSimulation.restart (simulation s)) s).

(** [updateData(nodesData, edgesData)]: an exception of the [try] block
    is logged and raised again. *)
Definition updateData (nodesData : list Node) (edgesData : list Edge)
  : M unit :=
  initialized <- gets isInitialized ;;
  when (negb initialized) _initialize ;;
  λ s, match updateData_try nodesData edgesData s with
       | (inl error, s') =>
           (inl error, with_console (console s' ++ [error_UpdatingData error]) s')
       | ok => ok
       end.


(** *** The event loop *)

(** What can happen to a constructed controller: the host calls
    [updateData], [on] or [off]; the user clicks the element of a node or
    the background; the renderer's next timer runs; a suspended activation
    of [_processTransitionQueue] is resumed; d3's timer runs a frame of the
    simulation, whose callbacks emit the stabilisation events. *)
Inductive event :=
| UpdateData (nodesData : list Node) (edgesData : list Edge)
| On (eventName : string) (cb : EventManager.callback)
| Off (eventName : string) (cb : EventManager.callback)
| Click (nodeId : string)
| BackgroundClick
| TimerFires
| Resume (k : nat)
| Frame.

(** The datum of the node element with the given id. *)
Definition element (i : string) (s : State) : option PNode :=
  ns ← NetworkRenderer.nodeElements (renderer s);
  head (filter (λ d, pid d = i) ns).

(** The controller's callbacks on the simulation. *)
Definition forward (n : NetworkSimulation.notification) : M unit :=
  match n with
  | NetworkSimulation.Tick => ret ()
  | NetworkSimulation.Progress x => emit "stabilizationProgress" (Percent x)
  | NetworkSimulation.Complete => emit "stabilizationComplete" NoData
  end.

Definition frame : M unit :=
  before <- gets (λ s, length (NetworkSimulation.notified (simulation s))) ;;
  modify (λ s, with_simulation (NetworkSimulation.frame (simulation s)) s) ;;
  after <- gets (λ s, NetworkSimulation.notified (simulation s)) ;;
  forEach (drop before after) forward.

Definition handle (e : event) : M unit :=
  match e with
  | UpdateData nodesData edgesData => updateData nodesData edgesData
  | On n cb => modify (λ s, with_events (EventManager.on n cb (events s)) s)
  | Off n cb => modify (λ s, with_events (EventManager.off n cb (events s)) s)
  | Click i => node <- gets (element i) ;; _handleNodeClick node
  | BackgroundClick => _handleBackgroundClick
  | TimerFires =>
      modify (λ s, with_renderer (NetworkRenderer.fireTimer (renderer s)) s)
  | Resume k => modify (resume k)
  | Frame => frame
  end.

(** An exception that leaves a handler ends it; the state stays as the
    handler left it. *)
Definition step (s : State) (e : event) : State := (handle e s).2.

(** The controller after its construction (initialisation done) and a
    history of events. *)
Definition constructed : State := (_initialize new).2.
Definition run (history : list event) : State :=
  foldl step constructed history.


(** *** What a computation leaves alone *)

(** [keeps V m]: the computation [m] does not change the part [V] of the
    state, whether it returns or raises. *)
Definition keeps {A T} (V : State → T) (m : M A) : Prop :=
  ∀ s, V (m s).2 = V s.

Lemma keeps_ret {A T} (V : State → T) (a : A) : keeps V (ret a).
Proof. done. Qed.

Lemma keeps_gets {A T} (V : State → T) (f : State → A) : keeps V (gets f).
Proof. done. Qed.

Lemma keeps_bind {A B T} (V : State → T) (m : M A) (k : A → M B) :
  keeps V m → (∀ a, keeps V (k a)) → keeps V (bind m k).
Proof.
  intros Hm Hk s. unfold bind. specialize (Hm s).
  destruct (m s) as [[e|a] s']; [done|]. simpl in *.
  by rewrite Hk.
Qed.

Lemma keeps_when {T} (V : State → T) b (m : M unit) :
  keeps V m → keeps V (when b m).
Proof. by destruct b. Qed.

Lemma keeps_forEach {A T} (V : State → T) (xs : list A) (body : A → M unit) :
  (∀ x, keeps V (body x)) → keeps V (forEach xs body).
Proof.
  intros Hb. induction xs as [|x xs IH]; [done|]. simpl.
  by apply keeps_bind.
Qed.

Lemma keeps_modify {T} (V : State → T) (f : State → State) :
  (∀ s, V (f s) = V s) → keeps V (modify f).
Proof. intros Hf s. apply Hf. Qed.

Lemma keeps_emit {T} (V : State → T) n d :
  (∀ s c e, V (with_console c (with_emitted e s)) = V s) →
  keeps V (emit n d).
Proof. intros HV. unfold emit. apply keeps_modify. intros s. apply HV. Qed.


(** *** The transition queue is serialised *)

(** At most one activation of [_processTransitionQueue] is suspended at
    its [await]; the flag says whether one is; what has been started,
    followed by what is still queued, is what has been queued, in order;
    and nothing is left queued while no call is awaited. *)
Definition Serialized (s : State) : Prop :=
  length (suspended s) ≤ 1
  ∧ isTransitioning s = bool_decide (suspended s ≠ [])
  ∧ started s ++ transitionQueue s = enqueued s
  ∧ (isTransitioning s = false → transitionQueue s = []).

(** The part of the state the queue discipline is about. *)
Definition queueView (s : State) :=
  (suspended s, isTransitioning s, started s, transitionQueue s, enqueued s).

Lemma Serialized_view s s' :
  queueView s' = queueView s → Serialized s → Serialized s'.
Proof.
  unfold queueView, Serialized. intros [= -> -> -> -> ->]. done.
Qed.

(** A computation that leaves the queue's part of the state alone. *)
Definition frames_queue {A} (m : M A) : Prop :=
  ∀ s, queueView (m s).2 = queueView s.

Lemma frames_ret {A} (a : A) : frames_queue (ret a).
Proof. done. Qed.

Lemma frames_gets {A} (f : State → A) : frames_queue (gets f).
Proof. done. Qed.

Lemma frames_bind {A B} (m : M A) (k : A → M B) :
  frames_queue m → (∀ a, frames_queue (k a)) → frames_queue (bind m k).
Proof.
  intros Hm Hk s. unfold bind. specialize (Hm s).
  destruct (m s) as [[e|a] s']; [done|]. simpl in *.
  by rewrite Hk.
Qed.

Lemma frames_when b (m : M unit) : frames_queue m → frames_queue (when b m).
Proof. by destruct b. Qed.

Lemma frames_forEach {A} (xs : list A) (body : A → M unit) :
  (∀ x, frames_queue (body x)) → frames_queue (forEach xs body).
Proof.
  intros Hb. induction xs as [|x xs IH]; [done|]. simpl.
  by apply frames_bind.
Qed.

Lemma frames_modify (f : State → State) :
  (∀ s, queueView (f s) = queueView s) → frames_queue (modify f).
Proof. intros Hf s. apply Hf. Qed.

Lemma frames_emit n d : frames_queue (emit n d).
Proof. intros s. by destruct s. Qed.

Lemma frames_getConnectedNodes i : frames_queue (_getConnectedNodes i).
Proof.
  intros s. unfold _getConnectedNodes.
  destruct (NetworkRenderer.getConnectedNodes i (renderer s)) as [r rs].
  by destruct s.
Qed.

Lemma processTransitionQueue_idle s :
  suspended s = [] → isTransitioning s = false →
  started s ++ transitionQueue s = enqueued s →
  Serialized (_processTransitionQueue s).
Proof.
  intros Hsus Hflag Hfifo. unfold _processTransitionQueue. rewrite Hflag.
  destruct (transitionQueue s) as [|t rest] eqn:Hq.
  - unfold Serialized. rewrite Hsus, Hflag, Hq. repeat split; try done. simpl; lia.
  - destruct (NetworkRenderer.animateColorTransition _ _ _ _ _) as [p rs].
    destruct s. simpl in *. subst. unfold Serialized. simpl.
    repeat split; try done. by rewrite <- app_assoc.
Qed.

Lemma queueTransition_Serialized t s :
  Serialized s → Serialized (_queueTransition t s).2.
Proof.
  intros (Hlen & Hflag & Hfifo & Hidle). unfold _queueTransition, modify.
  simpl.
  replace (isTransitioning (with_enqueued _ (with_transitionQueue _ s)))
    with (isTransitioning s) by by destruct s.
  destruct (isTransitioning s) eqn:Hb.
  - destruct s. simpl in *. subst. unfold Serialized. simpl.
    repeat split; try done. by rewrite app_assoc.
  - apply processTransitionQueue_idle.
    + symmetry in Hflag. apply bool_decide_eq_false in Hflag.
      destruct s; simpl in *. by destruct suspended0; [|destruct Hflag].
    + by destruct s.
    + specialize (Hidle eq_refl). destruct s; simpl in *. subst.
      by rewrite app_nil_r.
Qed.


Ltac frames_queue :=
  repeat lazymatch goal with
  | |- frames_queue (ret _) => apply frames_ret
  | |- frames_queue (gets _) => apply frames_gets
  | |- frames_queue (emit _ _) => apply frames_emit
  | |- frames_queue (_getConnectedNodes _) => apply frames_getConnectedNodes
  | |- frames_queue (bind _ _) => apply frames_bind; [|intros ?]
  | |- frames_queue (when _ _) => apply frames_when
  | |- frames_queue (forEach _ _) => apply frames_forEach; intros ?
  | |- frames_queue (modify _) => apply frames_modify; intros []; reflexivity
  end.

Lemma frames_record c : frames_queue (record c).
Proof. unfold record. frames_queue. Qed.

Lemma frames_initialize : frames_queue _initialize.
Proof. unfold _initialize, record. frames_queue. Qed.

Lemma frames_updateData_try nodesData edgesData :
  frames_queue (updateData_try nodesData edgesData).
Proof.
  unfold updateData_try, record. frames_queue.
  intros s.
  destruct (NetworkRenderer.updateElements _ _ _) as [r rs]. by destruct s.
Qed.

Lemma frames_updateData nodesData edgesData :
  frames_queue (updateData nodesData edgesData).
Proof.
  unfold updateData. frames_queue; [apply frames_initialize|].
  intros s. pose proof (frames_updateData_try nodesData edgesData s) as H.
  destruct (updateData_try nodesData edgesData s) as [[e|[]] s']; [|done].
  simpl in *. rewrite <- H. by destruct s'.
Qed.

Lemma Serialized_constructed : Serialized constructed.
Proof. unfold Serialized. simpl. repeat split; try done. lia. Qed.

(** *** One call at a time *)

(** The queue's part of the state, with the renderer's promises and
    timers. *)
Definition drainView (s : State) :=
  (queueView s, NetworkRenderer.promises (renderer s),
   NetworkRenderer.timers (renderer s)).

(** Every started descriptor has made one call of
    [animateColorTransition], and every call one promise, the next of the
    store: the [k]-th promise is that of the [k]-th started descriptor.
    The suspended activation waits for the promise of the descriptor
    started last; no other promise is pending; and no timer is a hop of
    the wave. *)
Definition Awaited (s : State) : Prop :=
  length (NetworkRenderer.promises (renderer s)) = length (started s)
  ∧ (∀ t p, suspended s = [(t, p)] →
       S p = length (started s) ∧ started s !! p = Some t)
  ∧ (∀ p, NetworkRenderer.promises (renderer s) !! p
          = Some NetworkRenderer.Pending → ∃ t, suspended s = [(t, p)])
  ∧ NetworkRenderer.noHop (renderer s).

Definition Drained (s : State) : Prop := Serialized s ∧ Awaited s.

(** What [Awaited] reads. *)
Definition awaitView (s : State) :=
  (suspended s, started s, NetworkRenderer.promises (renderer s),
   NetworkRenderer.timers (renderer s)).

Lemma Awaited_view s s' : awaitView s' = awaitView s → Awaited s → Awaited s'.
Proof.
  unfold awaitView, Awaited, NetworkRenderer.noHop.
  intros [= -> -> -> ->]. done.
Qed.

Lemma Drained_view s s' : drainView s' = drainView s → Drained s → Drained s'.
Proof.
  unfold drainView, queueView. intros Hv [HS HA]. split.
  - apply (Serialized_view s); [|done]. unfold queueView. congruence.
  - apply (Awaited_view s); [|done]. unfold awaitView. congruence.
Qed.

Definition maintains {A} (m : M A) : Prop :=
  ∀ s, Drained s → Drained (m s).2.

Lemma keeps_maintains {A} (m : M A) : keeps drainView m → maintains m.
Proof. intros Hm s Hs. apply (Drained_view s); [apply Hm|done]. Qed.

Lemma maintains_ret {A} (a : A) : maintains (ret a).
Proof. by intros s Hs. Qed.

Lemma maintains_gets {A} (f : State → A) : maintains (gets f).
Proof. by intros s Hs. Qed.

Lemma maintains_bind {A B} (m : M A) (k : A → M B) :
  maintains m → (∀ a, maintains (k a)) → maintains (bind m k).
Proof.
  intros Hm Hk s Hs. unfold bind. specialize (Hm s Hs).
  destruct (m s) as [[e|a] s']; [done|]. by apply Hk.
Qed.

Lemma maintains_when b (m : M unit) : maintains m → maintains (when b m).
Proof. destruct b; [done|]. intros _. apply maintains_ret. Qed.

Lemma maintains_forEach {A} (xs : list A) (body : A → M unit) :
  (∀ x, maintains (body x)) → maintains (forEach xs body).
Proof.
  intros Hb. induction xs as [|x xs IH]; [apply maintains_ret|]. simpl.
  by apply maintains_bind.
Qed.

Lemma keeps_drain_getConnectedNodes i : keeps drainView (_getConnectedNodes i).
Proof.
  intros s. unfold _getConnectedNodes, NetworkRenderer.getConnectedNodes.
  destruct s as [[] ? ? ? ? ? ? ? ? ? ? ? ? ? ? ?]. simpl.
  by destruct edgeElements.
Qed.

(** Starting the next descriptor, with no call awaited. *)
Lemma processTransitionQueue_drained s :
  suspended s = [] → isTransitioning s = false →
  started s ++ transitionQueue s = enqueued s →
  Awaited s → Drained (_processTransitionQueue s).
Proof.
  intros Hsus Hflag Hfifo HA.
  split; [by apply processTransitionQueue_idle|].
  destruct HA as (Hlen & Hlast & Hpend & Hhop).
  unfold _processTransitionQueue. rewrite Hflag.
  destruct (transitionQueue s) as [|t rest] eqn:Hq; [done|].
  replace (renderer (with_started _ (with_transitionQueue rest
                                       (with_isTransitioning true s))))
    with (renderer s) by by destruct s.
  pose proof (NetworkRenderer.animate_promises (nodeId t) (targetColor t)
                (connectedNodes t) (bool_decide (type t = unselect))
                (renderer s)) as [Hp [x Hx]].
  pose proof (NetworkRenderer.animate_noHop (nodeId t) (targetColor t)
                (connectedNodes t) (bool_decide (type t = unselect))
                (renderer s) Hhop) as Hhop'.
  destruct (NetworkRenderer.animateColorTransition _ _ _ _ _) as [p rs].
  simpl in Hp, Hx, Hhop'.
  destruct s. simpl in *. subst. unfold Awaited. simpl.
  rewrite Hx, !length_app. simpl.
  split; [lia|]. split; [|split; [|done]].
  - intros t' p' [= <- <-]. split; [lia|].
    rewrite Hlen, lookup_app_r by lia. by rewrite Nat.sub_diag.
  - intros k Hk.
    destruct (decide (k < length (NetworkRenderer.promises renderer0)))
      as [Hlt|Hge].
    + rewrite lookup_app_l in Hk by done.
      by destruct (Hpend k Hk) as [t0 ?].
    + rewrite lookup_app_r in Hk by lia.
      destruct (k - length (NetworkRenderer.promises renderer0)) as [|n] eqn:E;
        [|by destruct n].
      exists t. do 2 f_equal. lia.
Qed.

Lemma maintains_queueTransition t : maintains (_queueTransition t).
Proof.
  intros s [HS HA]. split; [by apply queueTransition_Serialized|].
  destruct HS as (Hlen & Hflag & Hfifo & Hidle).
  unfold _queueTransition, modify. simpl.
  replace (isTransitioning (with_enqueued _ (with_transitionQueue _ s)))
    with (isTransitioning s) by by destruct s.
  destruct (isTransitioning s) eqn:Hb.
  - apply (Awaited_view s); [by destruct s|done].
  - apply processTransitionQueue_drained.
    + symmetry in Hflag. apply bool_decide_eq_false in Hflag.
      destruct s; simpl in *. by destruct suspended0; [|destruct Hflag].
    + by destruct s.
    + specialize (Hidle eq_refl). destruct s; simpl in *. subst.
      by rewrite app_nil_r.
    + apply (Awaited_view s); [by destruct s|done].
Qed.

Lemma resume_drained k s : Drained s → Drained (resume k s).
Proof.
  intros [HS HA]. pose proof HS as (Hlen & Hflag & Hfifo & Hidle).
  pose proof HA as (Hn & Hlast & Hpend & Hhop).
  unfold resume.
  destruct (suspended s !! k) as [[t p]|] eqn:Hk; [|done].
  assert (Hsus : suspended s = [(t, p)] ∧ k = 0).
  { destruct (suspended s) as [|x [|y l]]; simpl in *; [done| |lia].
    destruct k; [|done]. by injection Hk as ->. }
  destruct Hsus as [Hsus ->].
  assert (Hcont : ∀ s0, drainView s0 = drainView s →
            NetworkRenderer.promises (renderer s) !! p
              ≠ Some NetworkRenderer.Pending →
            Drained (_processTransitionQueue
                       (with_isTransitioning false
                          (with_suspended (delete 0 (suspended s0)) s0)))).
  { intros s0 Hv Hp. pose proof Hv as [= H1 H2 H3 H4 H5 H6 H7].
    apply processTransitionQueue_drained.
    - destruct s0; simpl in *. by rewrite H1, Hsus.
    - by destruct s0.
    - destruct s0; simpl in *. congruence.
    - unfold Awaited.
      replace (renderer (with_isTransitioning _ (with_suspended _ s0)))
        with (renderer s0) by by destruct s0.
      replace (started (with_isTransitioning _ (with_suspended _ s0)))
        with (started s0) by by destruct s0.
      replace (suspended (with_isTransitioning _ (with_suspended _ s0)))
        with (@nil (Transition * nat))
        by (destruct s0; simpl in *; by rewrite H1, Hsus).
      unfold NetworkRenderer.noHop in *. rewrite H6, H7, H3.
      split; [done|]. split; [done|]. split; [|done].
      intros q Hq. destruct (Hpend q Hq) as [t0 Ht0].
      rewrite Hsus in Ht0. injection Ht0 as _ <-. done. }
  destruct (NetworkRenderer.promises (renderer s) !! p) as [[| |e]|] eqn:Ep;
    [done| | |done].
  - by apply Hcont.
  - apply Hcont; [by destruct s|done].
Qed.

Lemma fireTimer_drained s :
  Drained s →
  Drained (with_renderer (NetworkRenderer.fireTimer (renderer s)) s).
Proof.
  intros [HS (Hn & Hlast & Hpend & Hhop)]. split.
  { apply (Serialized_view s); [by destruct s|done]. }
  destruct (NetworkRenderer.fireTimer_promises _ Hhop) as [Hl Hp].
  destruct (NetworkRenderer.fireTimer_noHop _ Hhop) as [Hh _].
  unfold Awaited.
  replace (renderer (with_renderer _ s))
    with (NetworkRenderer.fireTimer (renderer s)) by by destruct s.
  replace (started (with_renderer _ s)) with (started s) by by destruct s.
  replace (suspended (with_renderer _ s)) with (suspended s) by by destruct s.
  rewrite Hl. split; [done|]. split; [done|]. split; [|done].
  intros p Hq. by apply Hpend, Hp.
Qed.

Ltac keeps_drain :=
  repeat lazymatch goal with
  | |- keeps _ (ret _) => apply keeps_ret
  | |- keeps _ (gets _) => apply keeps_gets
  | |- keeps _ (emit _ _) => apply keeps_emit; intros [] ? ?; reflexivity
  | |- keeps _ (_getConnectedNodes _) => apply keeps_drain_getConnectedNodes
  | |- keeps _ (bind _ _) => apply keeps_bind; [|intros ?]
  | |- keeps _ (when _ _) => apply keeps_when
  | |- keeps _ (forEach _ _) => apply keeps_forEach; intros ?
  | |- keeps _ (modify _) => apply keeps_modify; intros []; reflexivity
  end.

Ltac maintains_drain :=
  repeat lazymatch goal with
  | |- maintains (_queueTransition _) => apply maintains_queueTransition
  | |- maintains (ret _) => apply maintains_ret
  | |- maintains (gets _) => apply maintains_gets
  | |- maintains (bind _ _) => apply maintains_bind; [|intros ?]
  | |- maintains (when _ _) => apply maintains_when
  | |- maintains (forEach _ _) => apply maintains_forEach; intros ?
  | |- maintains (emit _ _) => apply keeps_maintains; keeps_drain
  | |- maintains (_getConnectedNodes _) => apply keeps_maintains; keeps_drain
  | |- maintains (modify _) => apply keeps_maintains; keeps_drain
  end.

Lemma maintains_restoreAllColors : maintains _restoreAllColors.
Proof. unfold _restoreAllColors. maintains_drain. Qed.

Lemma maintains_selectNode n : maintains (_selectNode n).
Proof. unfold _selectNode. maintains_drain. Qed.

Lemma maintains_unselectNode n : maintains (_unselectNode n).
Proof.
  unfold _unselectNode. maintains_drain. apply maintains_restoreAllColors.
Qed.

Lemma keeps_drain_updateData nodesData edgesData :
  keeps drainView (updateData nodesData edgesData).
Proof.
  assert (Htry : keeps drainView (updateData_try nodesData edgesData)).
  { unfold updateData_try, record. keeps_drain.
    intros s. unfold NetworkRenderer.updateElements.
    destruct s as [[] ? ? ? ? ? ? ? ? ? ? ? ? ? ? ?]. simpl.
    by destruct svg. }
  unfold updateData. keeps_drain.
  - unfold _initialize, record. keeps_drain.
  - intros s. specialize (Htry s).
    destruct (updateData_try nodesData edgesData s) as [[e|[]] s']; [|done].
    simpl in *. rewrite <- Htry. by destruct s'.
Qed.

Lemma keeps_drain_frame : keeps drainView frame.
Proof.
  unfold frame. keeps_drain.
  match goal with |- keeps _ (forward ?n) => destruct n end;
    simpl; keeps_drain.
Qed.

Lemma maintains_handle e : maintains (handle e).
Proof.
  destruct e; simpl.
  - apply keeps_maintains, keeps_drain_updateData.
  - apply keeps_maintains. keeps_drain.
  - apply keeps_maintains. keeps_drain.
  - apply maintains_bind; [apply maintains_gets|].
    intros [n|]; simpl; [|apply maintains_ret].
    apply maintains_bind; [apply maintains_gets|].
    intros [|]; [apply maintains_unselectNode|apply maintains_selectNode].
  - unfold _handleBackgroundClick. maintains_drain.
    apply maintains_restoreAllColors.
  - intros s Hs. by apply fireTimer_drained.
  - intros s Hs. by apply resume_drained.
  - apply keeps_maintains, keeps_drain_frame.
Qed.

Lemma Drained_constructed : Drained constructed.
Proof.
  split; [apply Serialized_constructed|].
  unfold Awaited. simpl. repeat split; try done. constructor.
Qed.

Lemma Drained_run history : Drained (run history).
Proof.
  unfold run. induction history as [|e history IH] using rev_ind.
  - apply Drained_constructed.
  - rewrite foldl_app. simpl. by apply maintains_handle.
Qed.

(** When the awaited promise has settled, the resumed activation logs the
    error if the call failed, and starts the next descriptor, if any. *)
Lemma resume_settled s t p :
  suspended s = [(t, p)] →
  let s' := resume 0 s in
  let next := take 1 (transitionQueue s) in
  match NetworkRenderer.promises (renderer s) !! p with
  | Some NetworkRenderer.Pending => s' = s
  | Some NetworkRenderer.Fulfilled =>
      console s' = console s
      ∧ started s' = started s ++ next
      ∧ transitionQueue s' = drop 1 (transitionQueue s)
      ∧ fst <$> suspended s' = next
  | Some (NetworkRenderer.Rejected error) =>
      console s' = console s ++ [error_TransitionFailed error]
      ∧ started s' = started s ++ next
      ∧ transitionQueue s' = drop 1 (transitionQueue s)
      ∧ fst <$> suspended s' = next
  | None => s' = s
  end.
Proof.
  intros Hsus. unfold resume. rewrite Hsus. simpl.
  destruct (NetworkRenderer.promises (renderer s) !! p) as [[| |e]|];
    [done| | |done];
    unfold _processTransitionQueue;
    destruct s; simpl in *; subst;
    (destruct transitionQueue0 as [|t' rest]; simpl;
     [by rewrite app_nil_r|]);
    by destruct (NetworkRenderer.animateColorTransition _ _ _ _ _)
      as [p' rs].
Qed.

(** C1, as amended. After any history of events: at most one activation
    of [_processTransitionQueue] waits at its [await], and
    [isTransitioning] is set exactly then; the descriptors started so far,
    followed by those still queued, are the descriptors queued so far, in
    order, so the queue is consumed first in, first out, and nothing
    stays queued while no call is awaited; every started descriptor has
    made one call of [animateColorTransition], the [k]-th promise being
    that of the [k]-th started descriptor; a promise that is pending is
    that of the descriptor started last, and the suspended activation
    waits for it, so no descriptor has been started before the call of
    the one before it was settled. Resuming the activation does nothing
    while its promise is pending; once the promise is fulfilled it starts
    the next queued descriptor, if there is one, and once the promise is
    rejected it logs the error and does the same. *)
Theorem transition_queue_serialized (history : list event) :
  let s := run history in
  let ps := NetworkRenderer.promises (renderer s) in
  length (suspended s) ≤ 1
  ∧ isTransitioning s = bool_decide (suspended s ≠ [])
  ∧ started s ++ transitionQueue s = enqueued s
  ∧ (isTransitioning s = false → transitionQueue s = [])
  ∧ length ps = length (started s)
  ∧ (∀ k, ps !! k = Some NetworkRenderer.Pending →
       S k = length (started s)
       ∧ ∃ t, started s !! k = Some t ∧ suspended s = [(t, k)])
  ∧ (∀ t p, suspended s = [(t, p)] →
       started s !! p = Some t
       ∧ let s' := resume 0 s in
         let next := take 1 (transitionQueue s) in
         match ps !! p with
         | Some NetworkRenderer.Pending => s' = s
         | Some NetworkRenderer.Fulfilled =>
             console s' = console s
             ∧ started s' = started s ++ next
             ∧ transitionQueue s' = drop 1 (transitionQueue s)
             ∧ fst <$> suspended s' = next
         | Some (NetworkRenderer.Rejected error) =>
             console s' = console s ++ [error_TransitionFailed error]
             ∧ started s' = started s ++ next
             ∧ transitionQueue s' = drop 1 (transitionQueue s)
             ∧ fst <$> suspended s' = next
         | None => False
         end).
Proof.
  intros s ps.
  destruct (Drained_run history)
    as [(H1 & H2 & H3 & H4) (Hn & Hlast & Hpend & _)].
  fold s in H1, H2, H3, H4, Hn, Hlast, Hpend. fold ps in Hn, Hpend.
  do 5 (split; [done|]). split.
  - intros k Hk. destruct (Hpend k Hk) as [t Ht].
    destruct (Hlast t k Ht) as [Hk1 Hk2]. eauto.
  - intros t p Hsus. destruct (Hlast t p Hsus) as [Hp1 Hp2].
    split; [done|].
    pose proof (resume_settled s t p Hsus) as Hr. cbv zeta in Hr.
    fold ps in Hr.
    destruct (ps !! p) as [[| |e]|] eqn:Ep; try done.
    apply lookup_ge_None in Ep. lia.
Qed.


(** *** Selection *)

(** The selection's part of the state, with the descriptors queued so far
    and the renderer's edges. *)
Definition selectionView (s : State) :=
  (selectedNodes s, selectionColor s, originalColors s, emitted s,
   enqueued s, NetworkRenderer.edgeElements (renderer s)).

(** [wp m Q s]: run from [s], the computation [m] returns normally, with
    a result and a state that satisfy [Q]. *)
Definition wp {A} (m : M A) (Q : A → State → Prop) (s : State) : Prop :=
  match m s with
  | (inr a, s') => Q a s'
  | (inl _, _) => False
  end.

Lemma wp_ret {A} (a : A) Q s : Q a s → wp (ret a) Q s.
Proof. done. Qed.

Lemma wp_gets {A} (f : State → A) Q s : Q (f s) s → wp (gets f) Q s.
Proof. done. Qed.

Lemma wp_modify f Q s : Q () (f s) → wp (modify f) Q s.
Proof. done. Qed.

Lemma wp_bind {A B} (m : M A) (k : A → M B) Q s :
  wp m (λ a s', wp (k a) Q s') s → wp (bind m k) Q s.
Proof. unfold wp, bind. by destruct (m s) as [[e|a] s']. Qed.

Lemma wp_when (b : bool) (m : M unit) Q s :
  (b = true → wp m Q s) → (b = false → Q () s) → wp (when b m) Q s.
Proof. destruct b; simpl; intros H1 H2; [by apply H1|by apply H2]. Qed.

Lemma wp_emit n d Q s :
  (∀ s', selectionView s'
         = (selectedNodes s, selectionColor s, originalColors s,
            emitted s ++ [(n, d)], enqueued s,
            NetworkRenderer.edgeElements (renderer s)) → Q () s') →
  wp (emit n d) Q s.
Proof. intros H. apply H. by destruct s. Qed.

Lemma each_edgeElements f es : ∀ s,
  (∀ d s, NetworkRenderer.edgeElements (f d s).2
          = NetworkRenderer.edgeElements s) →
  NetworkRenderer.edgeElements (NetworkRenderer.each f es s).2
  = NetworkRenderer.edgeElements s.
Proof.
  induction es as [|d es IH]; intros s Hf; simpl; [done|].
  pose proof (Hf d s) as Hd. destruct (f d s) as [[e|[]] s']; [done|].
  simpl in *. by rewrite IH.
Qed.

Lemma eachEdge_edgeElements i a r d s :
  NetworkRenderer.edgeElements (NetworkRenderer.eachEdge i a r d s).2
  = NetworkRenderer.edgeElements s.
Proof.
  unfold NetworkRenderer.eachEdge.
  repeat case_decide; try done. simpl.
  destruct (NetworkRenderer.arrays s !! a) as [[|]|]; by destruct s.
Qed.

Lemma animate_edgeElements i c a r s :
  NetworkRenderer.edgeElements
    (NetworkRenderer.animateColorTransition i c a r s).2
  = NetworkRenderer.edgeElements s.
Proof.
  unfold NetworkRenderer.animateColorTransition, NetworkRenderer.executor.
  simpl. destruct (NetworkRenderer.nodeElements s); [|done].
  destruct (NetworkRenderer.edgeElements s) as [es|] eqn:E; simpl;
    [|by rewrite E].
  match goal with |- context [NetworkRenderer.each ?f ?l ?s0] =>
    pose proof (each_edgeElements f l s0
                  (eachEdge_edgeElements _ _ _)) as H;
    destruct (NetworkRenderer.each f l s0) as [[e|[]] s'] end;
    simpl in *; by rewrite H.
Qed.

Lemma queueTransition_view t s :
  selectionView (_queueTransition t s).2
  = (selectedNodes s, selectionColor s, originalColors s, emitted s,
     enqueued s ++ [t], NetworkRenderer.edgeElements (renderer s)).
Proof.
  unfold _queueTransition, modify. simpl.
  replace (isTransitioning (with_enqueued _ (with_transitionQueue _ s)))
    with (isTransitioning s) by by destruct s.
  destruct (isTransitioning s) eqn:Hb; [by destruct s|].
  unfold _processTransitionQueue.
  replace (isTransitioning (with_enqueued _ (with_transitionQueue _ s)))
    with false by by destruct s.
  replace (transitionQueue (with_enqueued _ (with_transitionQueue _ s)))
    with (transitionQueue s ++ [t]) by by destruct s.
  destruct (transitionQueue s ++ [t]) as [|t' rest] eqn:Hq; [by destruct s|].
  match goal with |- context [NetworkRenderer.animateColorTransition
                                ?i ?c ?a ?r ?s0] =>
    pose proof (animate_edgeElements i c a r s0) as H;
    destruct (NetworkRenderer.animateColorTransition i c a r s0) as [p rs]
  end.
  destruct s. unfold selectionView. simpl in *. by rewrite H.
Qed.

Lemma wp_queueTransition t Q s :
  (∀ s', selectionView s'
         = (selectedNodes s, selectionColor s, originalColors s, emitted s,
            enqueued s ++ [t], NetworkRenderer.edgeElements (renderer s)) →
         Q () s') →
  wp (_queueTransition t) Q s.
Proof. intros H. apply H, queueTransition_view. Qed.

Lemma wp_getConnectedNodes i Q s es :
  NetworkRenderer.edgeElements (renderer s) = Some es →
  (∀ a s', selectionView s' = selectionView s → Q a s') →
  wp (_getConnectedNodes i) Q s.
Proof.
  intros He H. unfold wp, _getConnectedNodes, NetworkRenderer.getConnectedNodes.
  rewrite He. simpl. apply H. by destruct s as [[]].
Qed.


Lemma wp_when_modify (b : bool) f Q s :
  Q () (if b then f s else s) → wp (when b (modify f)) Q s.
Proof. by destruct b. Qed.

Lemma wp_run {A} (m : M A) Q s :
  wp m Q s → ∃ a, (m s).1 = inr a ∧ Q a (m s).2.
Proof. unfold wp. destruct (m s) as [[e|a] s']; [done|]. eauto. Qed.

(** Reads a state off its view. *)
Ltac view_of s H :=
  destruct s; unfold selectionView in H; simpl in H;
  injection H as -> -> -> -> -> ?; simpl in *.

(** [_restoreAllColors()] when nothing is selected: no descriptor is
    queued; the selection colour is cleared and [selectionCleared]
    emitted. *)
Lemma restoreAllColors_empty s Q :
  selectedNodes s = [] →
  (∀ s', selectionView s'
         = ([], None, originalColors s,
            emitted s ++ [("selectionCleared", NoData)], enqueued s,
            NetworkRenderer.edgeElements (renderer s)) → Q () s') →
  wp _restoreAllColors Q s.
Proof.
  intros Hs HQ. unfold _restoreAllColors.
  apply wp_bind, wp_gets. rewrite Hs. simpl.
  apply wp_bind, wp_ret.
  apply wp_bind, wp_modify. apply wp_bind, wp_modify.
  apply wp_emit. intros s' Hv. apply HQ. rewrite Hv. by destruct s.
Qed.

(** [_unselectNode(node)], in full. *)
Lemma unselectNode_view node s es :
  NetworkRenderer.edgeElements (renderer s) = Some es →
  wp (_unselectNode node) (λ _ s', ∃ a,
    let t := {| type := unselect; nodeId := pid node;
                targetColor := originalColors s !! pid node;
                connectedNodes := a |} in
    let rest := JSSet.delete (pid node) (selectedNodes s) in
    selectionView s'
    = match rest with
      | [] => ([], None, originalColors s,
               emitted s ++ [("selectionCleared", NoData);
                             ("nodeUnselected", Selection (pid node) [])],
               enqueued s ++ [t], Some es)
      | _ => (rest, selectionColor s, originalColors s,
              emitted s ++ [("nodeUnselected", Selection (pid node) rest)],
              enqueued s ++ [t], Some es)
      end) s.
Proof.
  intros He. unfold _unselectNode.
  apply wp_bind, wp_gets.
  apply wp_bind. eapply wp_getConnectedNodes; [done|]. intros a s1 H1.
  apply wp_bind, wp_queueTransition. intros s2 H2.
  view_of s1 H1. view_of s2 H2.
  apply wp_bind, wp_modify. apply wp_bind, wp_gets. simpl.
  destruct (JSSet.delete (pid node) (selectedNodes s)) as [|x rest] eqn:Hd.
  - simpl. apply wp_bind. apply restoreAllColors_empty; [done|].
    intros s3 H3. view_of s3 H3.
    apply wp_bind, wp_gets. apply wp_emit. intros s4 H4.
    exists a. rewrite H4. simpl. rewrite <- app_assoc. simpl. congruence.
  - simpl. apply wp_bind, wp_ret. apply wp_bind, wp_gets.
    apply wp_emit. intros s4 H4. exists a. rewrite H4. simpl. congruence.
Qed.


(** [_selectNode(node)], in full. *)
Lemma selectNode_view node s es :
  NetworkRenderer.edgeElements (renderer s) = Some es →
  wp (_selectNode node) (λ _ s', ∃ a,
    let target := match selectedNodes s with
                  | [] => Some (pcolor node)
                  | _ => selectionColor s
                  end in
    let t := {| type := select; nodeId := pid node;
                targetColor := target; connectedNodes := a |} in
    let selected := JSSet.add (pid node) (selectedNodes s) in
    selectionView s'
    = (selected, target,
       match originalColors s !! pid node with
       | Some _ => originalColors s
       | None => <[pid node := pcolor node]> (originalColors s)
       end,
       emitted s ++ [("nodeSelected", Selection (pid node) selected)],
       enqueued s ++ [t], Some es)) s.
Proof.
  intros He. unfold _selectNode. destruct s. simpl in *.
  apply wp_bind, wp_gets. apply wp_bind, wp_when_modify. simpl.
  apply wp_bind, wp_gets. apply wp_bind, wp_when_modify.
  apply wp_bind, wp_gets. apply wp_bind.
  eapply wp_getConnectedNodes.
  { destruct (originalColors0 !! pid node), selectedNodes0; simpl; done. }
  intros a s1 H1. apply wp_bind, wp_queueTransition. intros s2 H2.
  view_of s1 H1. view_of s2 H2.
  apply wp_bind, wp_modify. apply wp_bind, wp_gets. apply wp_emit.
  intros s3 H3. exists a. rewrite H3. simpl.
  destruct (originalColors0 !! pid node) eqn:Ho, selectedNodes0 eqn:Hs;
    simpl in *; congruence.
Qed.

Lemma wp_mono {A} (m : M A) (Q Q' : A → State → Prop) s :
  wp m Q s → (∀ a s', Q a s' → Q' a s') → wp m Q' s.
Proof. unfold wp. destruct (m s) as [[e|a] s']; [done|]. auto. Qed.

(** *** Selections and unselections in sequence *)

Inductive op :=
| Select (node : PNode)
| Unselect (node : PNode).

Definition perform (o : op) : M unit :=
  match o with
  | Select node => _selectNode node
  | Unselect node => _unselectNode node
  end.

(** The controller after the first [k] of the operations [ops], run from
    [s]. *)
Definition stateAfter (ops : list op) (s : State) (k : nat) : State :=
  (forEach (take k ops) perform s).2.

(** The nodes a sequence of operations selects, in order. *)
Definition selectedIn (ops : list op) : list PNode :=
  omap (λ o, match o with Select n => Some n | Unselect _ => None end) ops.

(** The colour on record for the id [i] once the nodes [selected] have
    been selected, in this order, on top of the record [orig]: the entry
    of [orig] if it has one, else the colour of the first of the nodes
    that carries the id. *)
Definition recorded (orig : gmap string css_color) (selected : list PNode)
    (i : string) : option css_color :=
  match orig !! i with
  | Some c => Some c
  | None => pcolor <$> head (filter (λ n, pid n = i) selected)
  end.

Lemma recorded_nil orig i : recorded orig [] i = orig !! i.
Proof. unfold recorded. by destruct (orig !! i). Qed.

Lemma recorded_snoc orig l n i :
  recorded orig (l ++ [n]) i
  = match recorded orig l i with
    | Some c => Some c
    | None => if decide (pid n = i) then Some (pcolor n) else None
    end.
Proof.
  unfold recorded. destruct (orig !! i); [done|].
  rewrite filter_app.
  destruct (filter (λ n0, pid n0 = i) l) as [|m l']; simpl; [|done].
  destruct (decide (pid n = i)).
  - by rewrite filter_cons_True.
  - by rewrite filter_cons_False.
Qed.

Lemma selectedIn_snoc ops o :
  selectedIn (ops ++ [o])
  = selectedIn ops ++ match o with Select n => [n] | Unselect _ => [] end.
Proof. unfold selectedIn. rewrite omap_app. by destruct o. Qed.

Lemma forEach_snoc {A} (xs : list A) (x : A) (body : A → M unit) : ∀ s,
  forEach (xs ++ [x]) body s
  = match forEach xs body s with
    | (inr _, s') => body x s'
    | (inl e, s') => (inl e, s')
    end.
Proof.
  induction xs as [|y xs IH]; intros s; simpl.
  - unfold bind. by destruct (body x s) as [[e|[]] s'].
  - unfold bind. destruct (body y s) as [[e|[]] s']; [done|]. apply IH.
Qed.

Lemma stateAfter_snoc ops o s k :
  k ≤ length ops → stateAfter (ops ++ [o]) s k = stateAfter ops s k.
Proof. intros Hk. unfold stateAfter. by rewrite take_app_le. Qed.

Lemma stateAfter_all ops s :
  stateAfter ops s (length ops) = (forEach ops perform s).2.
Proof. unfold stateAfter. by rewrite firstn_all. Qed.

(** What a sequence of selections and unselections does, operation by
    operation. *)
Lemma perform_sequence (ops : list op) : ∀ (s : State) (es : list PEdge),
  NetworkRenderer.edgeElements (renderer s) = Some es →
  let after := stateAfter ops s in
  let s' := after (length ops) in
  (forEach ops perform s).1 = inr ()
  ∧ NetworkRenderer.edgeElements (renderer s') = Some es
  ∧ (∀ i, originalColors s' !! i
          = recorded (originalColors s) (selectedIn ops) i)
  ∧ ∃ ts, enqueued s' = enqueued s ++ ts
      ∧ length ts = length ops
      ∧ (∀ j n, ops !! j = Some (Select n) →
           let target := match selectedNodes (after j) with
                         | [] => Some (pcolor n)
                         | _ => selectionColor (after j)
                         end in
           selectedNodes (after (S j))
           = JSSet.add (pid n) (selectedNodes (after j))
           ∧ selectionColor (after (S j)) = target
           ∧ ∃ a, ts !! j = Some {| type := select; nodeId := pid n;
                                    targetColor := target;
                                    connectedNodes := a |})
      ∧ (∀ j n, ops !! j = Some (Unselect n) →
           let rest := JSSet.delete (pid n) (selectedNodes (after j)) in
           selectedNodes (after (S j)) = rest
           ∧ selectionColor (after (S j))
             = match rest with
               | [] => None
               | _ => selectionColor (after j)
               end
           ∧ ∃ a, ts !! j
                  = Some {| type := unselect; nodeId := pid n;
                            targetColor :=
                              recorded (originalColors s)
                                (selectedIn (take j ops)) (pid n);
                            connectedNodes := a |}).
Proof.
  induction ops as [|o ops IH] using rev_ind; intros s es He after s'.
  { subst s' after. unfold stateAfter. simpl.
    split; [done|]. split; [done|].
    split; [intros i; by rewrite recorded_nil|].
    exists []. rewrite app_nil_r. by repeat split. }
  destruct (IH s es He) as (Hret & Hes & Horig & ts & Henq & Hlen & Hsel & Huns).
  clear IH. rewrite stateAfter_all in Hes, Horig, Henq.
  assert (Hs' : s' = (perform o (forEach ops perform s).2).2
                ∧ (forEach (ops ++ [o]) perform s).1
                  = (perform o (forEach ops perform s).2).1).
  { subst s' after. rewrite stateAfter_all, forEach_snoc.
    by destruct (forEach ops perform s) as [[e|[]] sn]. }
  destruct Hs' as [Hs' Hr]. rewrite Hr. clear Hr.
  set (sn := (forEach ops perform s).2) in *.
  assert (Hafter : ∀ k, k ≤ length ops → after k = stateAfter ops s k).
  { intros k Hk. by apply stateAfter_snoc. }
  assert (Hlast : after (length ops) = sn).
  { rewrite Hafter by done. apply stateAfter_all. }
  assert (Hnext : after (S (length ops)) = s').
  { subst s'. f_equal. rewrite length_app. simpl. lia. }
  assert (Hold : ∀ j x, (ops ++ [o]) !! j = Some x →
            (j < length ops ∧ ops !! j = Some x)
            ∨ (j = length ops ∧ x = o)).
  { intros j x Hj. destruct (decide (j < length ops)) as [Hlt|Hge].
    - left. by rewrite lookup_app_l in Hj.
    - right. rewrite lookup_app_r in Hj by lia.
      destruct (j - length ops) as [|m] eqn:E; [|by destruct m].
      injection Hj as <-. split; [lia|done]. }
  destruct o as [n|n].
  - destruct (wp_run _ _ _ (selectNode_view n sn es Hes)) as ([] & Hr & a & Hv).
    simpl in Hv. fold (perform (Select n)) in Hv, Hr. rewrite <- Hs' in Hv.
    unfold selectionView in Hv.
    injection Hv as Hv1 Hv2 Hv3 _ Hv5 Hv6.
    split; [done|]. split; [done|]. split.
    { intros i. rewrite selectedIn_snoc, recorded_snoc, <- Horig, Hv3.
      destruct (originalColors sn !! pid n) as [c|] eqn:Ho.
      - destruct (originalColors sn !! i) eqn:Hi; [done|].
        destruct (decide (pid n = i)); [congruence|done].
      - destruct (decide (pid n = i)) as [<-|Hne].
        + by rewrite lookup_insert_eq, Ho.
        + rewrite lookup_insert_ne by done.
          by destruct (originalColors sn !! i). }
    eexists (ts ++ [_]). split; [by rewrite Hv5, Henq, <- app_assoc|].
    split; [rewrite !length_app, Hlen; done|]. split.
    + intros j m Hj. destruct (Hold _ _ Hj) as [[Hlt Hj']|[-> [= ->]]].
      * rewrite !Hafter by lia. rewrite lookup_app_l by lia.
        by apply Hsel.
      * rewrite Hnext, Hlast, <- Hlen.
        do 2 (split; [done|]). exists a.
        rewrite lookup_app_r by lia. by rewrite Nat.sub_diag.
    + intros j m Hj. destruct (Hold _ _ Hj) as [[Hlt Hj']|[_ [=]]].
      rewrite !Hafter by lia. rewrite lookup_app_l by lia.
      rewrite take_app_le by lia. by apply Huns.
  - destruct (wp_run _ _ _ (unselectNode_view n sn es Hes))
      as ([] & Hr & a & Hv).
    simpl in Hv. fold (perform (Unselect n)) in Hv, Hr. rewrite <- Hs' in Hv.
    assert (Hv' : selectedNodes s' = JSSet.delete (pid n) (selectedNodes sn)
                  ∧ selectionColor s'
                    = match JSSet.delete (pid n) (selectedNodes sn) with
                      | [] => None
                      | _ => selectionColor sn
                      end
                  ∧ originalColors s' = originalColors sn
                  ∧ enqueued s'
                    = enqueued sn
                      ++ [{| type := unselect; nodeId := pid n;
                             targetColor := originalColors sn !! pid n;
                             connectedNodes := a |}]
                  ∧ NetworkRenderer.edgeElements (renderer s') = Some es).
    { unfold selectionView in Hv.
      destruct (JSSet.delete (pid n) (selectedNodes sn));
        by injection Hv as -> -> -> _ -> ->. }
    destruct Hv' as (Hv1 & Hv2 & Hv3 & Hv5 & Hv6).
    split; [done|]. split; [done|]. split.
    { intros i. rewrite selectedIn_snoc, app_nil_r, Hv3. apply Horig. }
    eexists (ts ++ [_]). split; [by rewrite Hv5, Henq, <- app_assoc|].
    split; [rewrite !length_app, Hlen; done|]. split.
    + intros j m Hj. destruct (Hold _ _ Hj) as [[Hlt Hj']|[_ [=]]].
      rewrite !Hafter by lia. rewrite lookup_app_l by lia.
      by apply Hsel.
    + intros j m Hj. destruct (Hold _ _ Hj) as [[Hlt Hj']|[-> [= ->]]].
      * rewrite !Hafter by lia. rewrite lookup_app_l by lia.
        rewrite take_app_le by lia. by apply Huns.
      * rewrite Hnext, Hlast, <- Hlen.
        do 2 (split; [done|]). exists a.
        rewrite lookup_app_r by lia. rewrite Nat.sub_diag. simpl.
        rewrite Hlen, take_app_length, <- Horig. done.
Qed.

(** C2, as amended. With the renderer's elements in place, any sequence
    of selections and unselections returns normally and queues one
    descriptor for each of them, in order. [originalColors] keeps every
    entry it had, and gets for an id without one the colour of the first
    node of that id that is selected: a colour is recorded once and never
    overwritten. A selection into an empty selection makes the node's
    colour the selection colour and targets it; a selection into a
    selection that is not empty targets the selection colour, which
    stays. An unselection targets the colour on record for the id, the
    one recorded at its first selection if there was no entry before; it
    leaves the selection colour as it is if a node remains selected, and
    clears it otherwise. Hence, from an empty selection and as long as
    the selection does not become empty again, the selection colour is
    the colour of the node selected first, and every selection targets
    it. *)
Theorem selection_colour_semantics (ops : list op) (s : State)
    (es : list PEdge) :
  NetworkRenderer.edgeElements (renderer s) = Some es →
  let after := stateAfter ops s in
  let s' := after (length ops) in
  (forEach ops perform s).1 = inr ()
  ∧ (∀ i, originalColors s' !! i
          = recorded (originalColors s) (selectedIn ops) i)
  ∧ ∃ ts, enqueued s' = enqueued s ++ ts
      ∧ length ts = length ops
      ∧ (∀ j n, ops !! j = Some (Select n) →
           let target := match selectedNodes (after j) with
                         | [] => Some (pcolor n)
                         | _ => selectionColor (after j)
                         end in
           selectedNodes (after (S j))
           = JSSet.add (pid n) (selectedNodes (after j))
           ∧ selectionColor (after (S j)) = target
           ∧ ∃ a, ts !! j = Some {| type := select; nodeId := pid n;
                                    targetColor := target;
                                    connectedNodes := a |})
      ∧ (∀ j n, ops !! j = Some (Unselect n) →
           let rest := JSSet.delete (pid n) (selectedNodes (after j)) in
           selectedNodes (after (S j)) = rest
           ∧ selectionColor (after (S j))
             = match rest with
               | [] => None
               | _ => selectionColor (after j)
               end
           ∧ ∃ a, ts !! j
                  = Some {| type := unselect; nodeId := pid n;
                            targetColor :=
                              recorded (originalColors s)
                                (selectedIn (take j ops)) (pid n);
                            connectedNodes := a |})
      ∧ (∀ n0 rest, selectedNodes s = [] → ops = Select n0 :: rest →
           (∀ k, 1 ≤ k ≤ length ops → selectedNodes (after k) ≠ []) →
           selectionColor s' = Some (pcolor n0)
           ∧ Forall (λ t, type t = select
                          → targetColor t = Some (pcolor n0)) ts).
Proof.
  intros He after s'.
  destruct (perform_sequence ops s es He)
    as (Hret & _ & Horig & ts & Henq & Hlen & Hsel & Huns).
  fold after in Hsel, Huns. fold s' in Horig, Henq.
  do 2 (split; [done|]). exists ts. do 4 (split; [done|]).
  intros n0 rest Hempty Hops Hstay.
  assert (H0 : after 0 = s) by done.
  assert (Hfirst : ops !! 0 = Some (Select n0)) by by rewrite Hops.
  assert (Hcol : ∀ k, 1 ≤ k ≤ length ops →
            selectionColor (after k) = Some (pcolor n0)).
  { intros k [Hk1 Hk2]. induction k as [|k IHk]; [lia|].
    destruct (decide (k = 0)) as [->|Hk0].
    - destruct (Hsel 0 n0 Hfirst) as (_ & -> & _). by rewrite H0, Hempty.
    - assert (Hk : 1 ≤ k ≤ length ops) by lia.
      specialize (IHk ltac:(lia) ltac:(lia)).
      destruct (lookup_lt_is_Some_2 ops k ltac:(lia)) as [[n|n] Hn].
      + destruct (Hsel k n Hn) as (_ & -> & _).
        by destruct (selectedNodes (after k)) eqn:E; [destruct (Hstay k Hk)|].
      + destruct (Huns k n Hn) as (Hs1 & -> & _). rewrite <- Hs1.
        by destruct (selectedNodes (after (S k))) eqn:E;
          [destruct (Hstay (S k) ltac:(lia))|]. }
  split; [apply Hcol; rewrite Hops; simpl; lia|].
  apply Forall_lookup. intros j t Ht Htype.
  destruct (lookup_lt_is_Some_2 ops j) as [[n|n] Hn].
  { rewrite <- Hlen. by eapply lookup_lt_Some. }
  - destruct (Hsel j n Hn) as (_ & _ & a & Ha).
    rewrite Ha in Ht. injection Ht as <-. simpl.
    destruct (decide (j = 0)) as [->|Hj].
    + rewrite H0, Hempty. rewrite Hfirst in Hn. by injection Hn as ->.
    + assert (Hj' : 1 ≤ j ≤ length ops).
      { split; [lia|]. apply Nat.lt_le_incl. by eapply lookup_lt_Some. }
      rewrite Hcol by done.
      by destruct (selectedNodes (after j)) eqn:E; [destruct (Hstay j Hj')|].
  - destruct (Huns j n Hn) as (_ & _ & a & Ha).
    rewrite Ha in Ht. by injection Ht as <-.
Qed.

(** C9. Unselecting the only selected node returns normally, empties the
    selection and clears the selection colour, queues the unselect
    descriptor and no other, and emits [selectionCleared] and then
    [nodeUnselected]. *)
Theorem unselecting_last_node_clears_selection (node : PNode) (s : State)
    (es : list PEdge) :
  NetworkRenderer.edgeElements (renderer s) = Some es →
  selectedNodes s = [pid node] →
  let r := _unselectNode node s in
  r.1 = inr ()
  ∧ selectedNodes r.2 = []
  ∧ selectionColor r.2 = None
  ∧ emitted r.2
    = emitted s ++ [("selectionCleared", NoData);
                    ("nodeUnselected", Selection (pid node) [])]
  ∧ ∃ a, enqueued r.2
         = enqueued s ++ [{| type := unselect; nodeId := pid node;
                             targetColor := originalColors s !! pid node;
                             connectedNodes := a |}].
Proof.
  intros He Hs r.
  destruct (wp_run _ _ _ (unselectNode_view node s es He)) as ([] & Hr & a & H).
  fold r in Hr, H. simpl in H. rewrite Hs in H.
  unfold JSSet.delete in H. rewrite filter_cons_False in H by (by intros []).
  simpl in H. unfold selectionView in H.
  injection H as Hsel Hcol _ Hemit Henq _.
  do 4 (split; [done|]). by exists a.
Qed.

(** C5, as amended. Once initialised, [updateData] returns normally and
    calls, in this order: [processData], the renderer's [updateElements]
    with the processed entities, the simulation's [stop], its [setData]
    with the processed entities, and its [restart], which leaves the
    simulation running from tick 0 at [alpha = 1]. *)
Theorem updateData_steps (nodesData : list Node) (edgesData : list Edge)
    (s : State) :
  isInitialized s = true →
  NetworkRenderer.svg (renderer s) = true →
  let r := updateData nodesData edgesData s in
  let processed := processData parseFloatString Math_pow Math_random
                     scaleLinear_clamped (draws s) nodesData edgesData in
  r.1 = inr ()
  ∧ calls r.2
    = calls s ++ [call_processData; call_updateElements; call_stop;
                  call_setData; call_restart]
  ∧ NetworkRenderer.nodeElements (renderer r.2)
    = Some (processedNodes processed)
  ∧ NetworkRenderer.edgeElements (renderer r.2)
    = Some (processedEdges processed)
  ∧ NetworkSimulation.d3nodes (NetworkSimulation.simulation (simulation r.2))
    = processedNodes processed
  ∧ NetworkSimulation.isRunning (simulation r.2) = true
  ∧ NetworkSimulation.tickCount (simulation r.2) = 0
  ∧ NetworkSimulation.alpha (NetworkSimulation.simulation (simulation r.2))
    = Q2Qc 1
  ∧ NetworkSimulation.timer (NetworkSimulation.simulation (simulation r.2))
    = true.
Proof.
  intros Hi Hsvg. unfold updateData, updateData_try, bind, gets, when,
    record, modify, ret. simpl. rewrite Hi. simpl.
  unfold NetworkRenderer.updateElements.
  destruct s as [[] ? ? ? ? ? ? ? ? ? ? ? ? ? ? ?]. simpl in *. subst.
  simpl. rewrite <- !app_assoc. done.
Qed.

(** *** Selection and elements *)

(** The elements, the selection and the recorded colours: all that the
    selection handlers read. *)
Definition selectionState (s : State) :=
  (NetworkRenderer.elementsOf (renderer s), isInitialized s,
   selectedNodes s, selectionColor s, originalColors s).

(** The same without the selection. *)
Definition elementsView (s : State) :=
  (NetworkRenderer.elementsOf (renderer s), isInitialized s).

Lemma keeps_elementsView {A} (m : M A) :
  keeps selectionState m → keeps elementsView m.
Proof.
  intros Hm s. specialize (Hm s). unfold selectionState in Hm.
  unfold elementsView. congruence.
Qed.

Lemma keeps_getConnectedNodes i : keeps selectionState (_getConnectedNodes i).
Proof.
  intros s. unfold _getConnectedNodes, NetworkRenderer.getConnectedNodes.
  destruct s as [[] ? ? ? ? ? ? ? ? ? ? ? ? ? ? ?]. simpl.
  by destruct edgeElements.
Qed.

Lemma processTransitionQueue_selectionState s :
  selectionState (_processTransitionQueue s) = selectionState s.
Proof.
  unfold _processTransitionQueue.
  destruct (isTransitioning s); [done|].
  destruct (transitionQueue s) as [|t rest] eqn:Hq; [done|].
  match goal with |- context [NetworkRenderer.animateColorTransition
                                ?i ?c ?a ?r ?s0] =>
    pose proof (NetworkRenderer.animate_elementsOf i c a r s0) as H;
    destruct (NetworkRenderer.animateColorTransition i c a r s0) as [p rs]
  end.
  destruct s. unfold selectionState. simpl in *. by rewrite H.
Qed.

Lemma keeps_queueTransition t : keeps selectionState (_queueTransition t).
Proof.
  intros s. unfold _queueTransition, modify. simpl.
  match goal with |- context [if ?b then ?x else _] =>
    destruct b; [by destruct s|] end.
  rewrite processTransitionQueue_selectionState. by destruct s.
Qed.

Lemma resume_selectionState k s :
  selectionState (resume k s) = selectionState s.
Proof.
  unfold resume.
  destruct (suspended s !! k) as [[t p]|]; [|done].
  destruct (NetworkRenderer.promises (renderer s) !! p) as [[| |e]|];
    try done; rewrite processTransitionQueue_selectionState; by destruct s.
Qed.

Ltac keeps_elements :=
  repeat lazymatch goal with
  | |- keeps _ (ret _) => apply keeps_ret
  | |- keeps _ (gets _) => apply keeps_gets
  | |- keeps _ (emit _ _) => apply keeps_emit; intros [] ? ?; reflexivity
  | |- keeps _ (_getConnectedNodes _) =>
      apply keeps_elementsView, keeps_getConnectedNodes
  | |- keeps _ (_queueTransition _) =>
      apply keeps_elementsView, keeps_queueTransition
  | |- keeps _ (bind _ _) => apply keeps_bind; [|intros ?]
  | |- keeps _ (when _ _) => apply keeps_when
  | |- keeps _ (forEach _ _) => apply keeps_forEach; intros ?
  | |- keeps _ (modify _) => apply keeps_modify; intros []; reflexivity
  end.

Lemma keeps_restoreAllColors : keeps elementsView _restoreAllColors.
Proof. unfold _restoreAllColors. keeps_elements. Qed.

Lemma keeps_selectNode n : keeps elementsView (_selectNode n).
Proof. unfold _selectNode. keeps_elements. Qed.

Lemma keeps_unselectNode n : keeps elementsView (_unselectNode n).
Proof.
  unfold _unselectNode. keeps_elements. apply keeps_restoreAllColors.
Qed.

(** *** Restoring the colours *)

(** What is recorded of a descriptor besides the address of its array. *)
Definition described (t : Transition) :=
  (type t, nodeId t, targetColor t).

(** The loop of [_restoreAllColors]: one [restore] descriptor per id, in
    order, each targeting the colour recorded for the id. *)
Lemma restore_loop (ids : list string) : ∀ s es,
  NetworkRenderer.edgeElements (renderer s) = Some es →
  wp (forEach ids (λ nodeId,
        target <- gets (λ s, originalColors s !! nodeId) ;;
        connected <- _getConnectedNodes nodeId ;;
        _queueTransition {| type := restore; nodeId := nodeId;
                            targetColor := target;
                            connectedNodes := connected |}))
     (λ _ s', ∃ ts,
        selectionView s'
        = (selectedNodes s, selectionColor s, originalColors s, emitted s,
           enqueued s ++ ts, Some es)
        ∧ described <$> ts
          = (λ i, (restore, i, originalColors s !! i)) <$> ids) s.
Proof.
  induction ids as [|i ids IH]; intros s es He; simpl.
  - apply wp_ret. exists []. rewrite app_nil_r. split; [|done].
    unfold selectionView. by rewrite He.
  - apply wp_bind. apply wp_bind, wp_gets.
    apply wp_bind. eapply wp_getConnectedNodes; [done|]. intros a s1 H1.
    apply wp_queueTransition. intros s2 H2.
    assert (He2 : NetworkRenderer.edgeElements (renderer s2) = Some es).
    { unfold selectionView in H1, H2. congruence. }
    eapply wp_mono; [by apply (IH s2 es)|].
    intros [] s3 (ts & H3 & Hts).
    eexists (_ :: ts). split.
    + rewrite H3. unfold selectionView in H1, H2.
      injection H2 as -> -> -> -> -> _. injection H1 as -> -> -> -> -> _.
      by rewrite <- app_assoc.
    + rewrite !fmap_cons, Hts. unfold selectionView in H1, H2.
      injection H2 as _ _ -> _ _ _. by injection H1 as _ _ -> _ _ _.
Qed.

(** [_restoreAllColors()], in full. *)
Lemma restoreAllColors_view s es :
  NetworkRenderer.edgeElements (renderer s) = Some es →
  wp _restoreAllColors
     (λ _ s', ∃ ts,
        selectionView s'
        = ([], None, originalColors s,
           emitted s ++ [("selectionCleared", NoData)],
           enqueued s ++ ts, Some es)
        ∧ described <$> ts
          = (λ i, (restore, i, originalColors s !! i)) <$> selectedNodes s) s.
Proof.
  intros He. unfold _restoreAllColors.
  apply wp_bind, wp_gets. apply wp_bind.
  eapply wp_mono; [by apply restore_loop|].
  intros [] s1 (ts & H1 & Hts). view_of s1 H1.
  apply wp_bind, wp_modify. apply wp_bind, wp_modify.
  apply wp_emit. intros s2 H2. exists ts. split; [|done].
  rewrite H2. simpl. congruence.
Qed.

(** X16. A click on the background. With nothing selected it changes
    nothing and emits nothing. Otherwise it returns normally, queues one
    [restore] descriptor per selected node, in the order of selection,
    each targeting the colour recorded for the node, empties the
    selection, clears the selection colour and emits [selectionCleared]
    once; the recorded colours are kept. *)
Theorem background_click_restores_every_node (s : State) (es : list PEdge) :
  NetworkRenderer.edgeElements (renderer s) = Some es →
  let r := _handleBackgroundClick s in
  r.1 = inr ()
  ∧ match selectedNodes s with
    | [] => r.2 = s
    | _ =>
        selectedNodes r.2 = [] ∧ selectionColor r.2 = None
        ∧ originalColors r.2 = originalColors s
        ∧ emitted r.2 = emitted s ++ [("selectionCleared", NoData)]
        ∧ ∃ ts, enqueued r.2 = enqueued s ++ ts
                ∧ described <$> ts
                  = (λ i, (restore, i, originalColors s !! i))
                      <$> selectedNodes s
    end.
Proof.
  intros He r. subst r. unfold _handleBackgroundClick, bind, gets. simpl.
  destruct (selectedNodes s) as [|i ids] eqn:Hs; [done|]. simpl.
  destruct (wp_run _ _ _ (restoreAllColors_view s es He))
    as ([] & Hr & ts & Hv & Hts).
  split; [done|]. unfold selectionView in Hv.
  injection Hv as -> -> -> -> Hq _. do 4 (split; [done|]).
  exists ts. by rewrite Hs in Hts.
Qed.

(** X17. A click on a node toggles it. With the elements in place,
    [_handleNodeClick] returns normally; afterwards the clicked node is
    selected exactly if it was not before, and every other node is
    selected exactly if it was before. *)
Theorem click_toggles_the_node (node : PNode) (s : State) (es : list PEdge) :
  NetworkRenderer.edgeElements (renderer s) = Some es →
  let r := _handleNodeClick (Some node) s in
  r.1 = inr ()
  ∧ ∀ i, i ∈ selectedNodes r.2
         ↔ if decide (i = pid node) then i ∉ selectedNodes s
           else i ∈ selectedNodes s.
Proof.
  clear parseFloatString Math_pow Math_random scaleLinear_clamped.
  intros He r. subst r. unfold _handleNodeClick, bind, gets. simpl.
  unfold JSSet.has. case_bool_decide as Hin.
  - destruct (wp_run _ _ _ (unselectNode_view node s es He))
      as ([] & Hr & a & Hv).
    split; [done|]. intros i. simpl in Hv.
    assert (Hsel : selectedNodes (_unselectNode node s).2
                   = JSSet.delete (pid node) (selectedNodes s)).
    { unfold selectionView in Hv.
      destruct (JSSet.delete (pid node) (selectedNodes s));
        by injection Hv as -> _ _ _ _ _. }
    rewrite Hsel, JSSet.elem_of_delete.
    destruct (decide (i = pid node)) as [->|Hne]; [|tauto].
    split; [by intros []|done].
  - destruct (wp_run _ _ _ (selectNode_view node s es He))
      as ([] & Hr & a & Hv).
    split; [done|]. intros i. simpl in Hv.
    unfold selectionView in Hv. injection Hv as -> _ _ _ _ _.
    rewrite JSSet.elem_of_add.
    destruct (decide (i = pid node)) as [->|Hne]; [|tauto].
    split; [done|by left].
Qed.

(** *** The selection over a history *)

(** [updateData] and the selection. *)
Lemma updateData_selection nodesData edgesData s :
  let r := updateData nodesData edgesData s in
  selectedNodes r.2 = selectedNodes s
  ∧ selectionColor r.2 = selectionColor s
  ∧ originalColors r.2 = originalColors s.
Proof.
  unfold updateData, updateData_try, _initialize, bind, gets, when, record,
    modify, ret, NetworkRenderer.updateElements. simpl.
  destruct s as [[] ? ? ? ? ? ? ? ? ? ? ? ? ? ? ?]. simpl.
  destruct isInitialized0; simpl; [|done].
  by destruct svg.
Qed.

(** X18. [updateData] never touches the selection: whether it returns or
    raises, the selected ids, the selection colour and the recorded
    colours are the same afterwards, also for ids that the new data no
    longer has; and so are the transition queue and its flag. *)
Theorem updateData_keeps_the_selection (nodesData : list Node)
    (edgesData : list Edge) (s : State) :
  let r := updateData nodesData edgesData s in
  selectedNodes r.2 = selectedNodes s
  ∧ selectionColor r.2 = selectionColor s
  ∧ originalColors r.2 = originalColors s
  ∧ transitionQueue r.2 = transitionQueue s
  ∧ isTransitioning r.2 = isTransitioning s.
Proof.
  intros r. subst r.
  destruct (updateData_selection nodesData edgesData s) as (H1 & H2 & H3).
  do 3 (split; [done|]).
  pose proof (frames_updateData nodesData edgesData s) as H.
  unfold queueView in H. by injection H as _ -> _ -> _.
Qed.

(** The controller is ready: initialised, with the renderer's SVG, with
    the node elements only if with the edge elements, and with a selection
    only if with elements. *)
Definition Ready (s : State) : Prop :=
  isInitialized s = true
  ∧ NetworkRenderer.svg (renderer s) = true
  ∧ (is_Some (NetworkRenderer.nodeElements (renderer s))
     → is_Some (NetworkRenderer.edgeElements (renderer s)))
  ∧ (selectedNodes s ≠ []
     → is_Some (NetworkRenderer.edgeElements (renderer s))).

(** The selection holds every id once; the selection colour is set
    exactly while something is selected; and every selected id has its
    colour recorded. *)
Definition SelectionInv (s : State) : Prop :=
  NoDup (selectedNodes s)
  ∧ (selectionColor s = None ↔ selectedNodes s = [])
  ∧ (∀ i, i ∈ selectedNodes s → is_Some (originalColors s !! i)).

Definition Sound (s : State) : Prop := Ready s ∧ SelectionInv s.

Lemma Sound_selectionState s s' :
  selectionState s' = selectionState s → Sound s → Sound s'.
Proof.
  unfold selectionState, NetworkRenderer.elementsOf, Sound, Ready,
    SelectionInv.
  intros [= -> -> -> -> -> -> ->]. done.
Qed.

Lemma Sound_constructed : Sound constructed.
Proof.
  split; [|split; [constructor|split; [done|]]].
  - repeat split; try done. intros [? [=]].
  - intros i Hi. by apply elem_of_nil in Hi.
Qed.

Lemma updateData_sound nodesData edgesData s :
  Sound s →
  (updateData nodesData edgesData s).1 = inr ()
  ∧ Sound (updateData nodesData edgesData s).2.
Proof.
  intros [(Hi & Hsvg & Hne & Hsel) Hinv].
  destruct (updateData_selection nodesData edgesData s) as (H1 & H2 & H3).
  assert (Hr : (updateData nodesData edgesData s).1 = inr ()
               ∧ isInitialized (updateData nodesData edgesData s).2 = true
               ∧ NetworkRenderer.svg
                   (renderer (updateData nodesData edgesData s).2) = true
               ∧ is_Some (NetworkRenderer.edgeElements
                            (renderer (updateData nodesData edgesData s).2))).
  { unfold updateData, updateData_try, _initialize, bind, gets, when, record,
      modify, ret, NetworkRenderer.updateElements. simpl. rewrite Hi. simpl.
    destruct s as [[] ? ? ? ? ? ? ? ? ? ? ? ? ? ? ?]. simpl in *. subst.
    simpl. eauto. }
  destruct Hr as (Hr & Hi' & Hsvg' & He').
  split; [done|]. split.
  - by repeat split.
  - unfold SelectionInv. by rewrite H1, H2, H3.
Qed.

Lemma selectNode_sound node s :
  Sound s → is_Some (NetworkRenderer.edgeElements (renderer s)) →
  (_selectNode node s).1 = inr () ∧ Sound (_selectNode node s).2.
Proof.
  intros [(Hi & Hsvg & Hne & Hsel) (Hnd & Hcol & Horig)] [es He].
  destruct (wp_run _ _ _ (selectNode_view node s es He))
    as ([] & Hr & a & Hv).
  pose proof (keeps_selectNode node s) as Hk.
  split; [done|]. simpl in Hv. unfold selectionView in Hv.
  injection Hv as Hs' Hc' Ho' _ _ He'.
  unfold elementsView, NetworkRenderer.elementsOf in Hk.
  injection Hk as Hsvg' Hn' _ Hi'.
  split.
  - unfold Ready. rewrite Hi', Hsvg', He'. by repeat split.
  - unfold SelectionInv. rewrite Hs', Hc', Ho'. split; [|split].
    + by apply JSSet.add_NoDup.
    + assert (Hadd : JSSet.add (pid node) (selectedNodes s) ≠ []).
      { unfold JSSet.add. destruct (JSSet.has _ _) eqn:Hh.
        - apply bool_decide_eq_true in Hh. intros E. rewrite E in Hh.
          by apply elem_of_nil in Hh.
        - by destruct (selectedNodes s). }
      destruct (selectedNodes s) as [|x l] eqn:Esel; [by split|].
      split; [|done]. intros Hc. apply Hcol in Hc. done.
    + intros i [->|Hi0]%JSSet.elem_of_add.
      * destruct (originalColors s !! pid node) eqn:E; [by rewrite E|].
        by rewrite lookup_insert_eq.
      * apply Horig in Hi0.
        destruct (originalColors s !! pid node) eqn:E; [done|].
        destruct (decide (i = pid node)) as [->|Hd].
        -- by rewrite lookup_insert_eq.
        -- by rewrite lookup_insert_ne.
Qed.

Lemma unselectNode_sound node s :
  Sound s → is_Some (NetworkRenderer.edgeElements (renderer s)) →
  (_unselectNode node s).1 = inr () ∧ Sound (_unselectNode node s).2.
Proof.
  intros [(Hi & Hsvg & Hne & Hsel) (Hnd & Hcol & Horig)] [es He].
  destruct (wp_run _ _ _ (unselectNode_view node s es He))
    as ([] & Hr & a & Hv).
  pose proof (keeps_unselectNode node s) as Hk.
  split; [done|]. simpl in Hv.
  unfold elementsView, NetworkRenderer.elementsOf in Hk.
  injection Hk as Hsvg' Hn' _ Hi'.
  assert (He' : NetworkRenderer.edgeElements
                  (renderer (_unselectNode node s).2) = Some es).
  { unfold selectionView in Hv.
    destruct (JSSet.delete (pid node) (selectedNodes s));
      by injection Hv as _ _ _ _ _ ->. }
  split; [unfold Ready; rewrite Hi', Hsvg', He'; by repeat split|].
  unfold SelectionInv, selectionView in *.
  destruct (JSSet.delete (pid node) (selectedNodes s)) as [|x rest] eqn:Hd.
  - injection Hv as -> -> -> _ _ _. split; [constructor|]. split; [done|].
    intros i Hi0. by apply elem_of_nil in Hi0.
  - injection Hv as -> -> -> _ _ _. rewrite <- Hd. split; [|split].
    + by apply JSSet.delete_NoDup.
    + rewrite Hd. split; [|done]. intros Hc. apply Hcol in Hc.
      rewrite Hc in Hd. done.
    + intros i [_ Hi0]%JSSet.elem_of_delete. by apply Horig.
Qed.

Lemma restoreAllColors_sound s :
  Sound s → is_Some (NetworkRenderer.edgeElements (renderer s)) →
  (_restoreAllColors s).1 = inr () ∧ Sound (_restoreAllColors s).2.
Proof.
  intros [(Hi & Hsvg & Hne & Hsel) _] [es He].
  destruct (wp_run _ _ _ (restoreAllColors_view s es He))
    as ([] & Hr & ts & Hv & _).
  pose proof (keeps_restoreAllColors s) as Hk.
  split; [done|]. unfold selectionView in Hv.
  injection Hv as Hs' Hc' Ho' _ _ He'.
  unfold elementsView, NetworkRenderer.elementsOf in Hk.
  injection Hk as Hsvg' Hn' _ Hi'.
  split; [unfold Ready; rewrite Hi', Hsvg', He'; by repeat split|].
  unfold SelectionInv. rewrite Hs', Hc'. split; [constructor|].
  split; [done|]. intros i Hi0. by apply elem_of_nil in Hi0.
Qed.

Lemma forward_selectionState n : keeps selectionState (forward n).
Proof.
  destruct n; simpl; [apply keeps_ret| |];
    apply keeps_emit; intros [] ? ?; reflexivity.
Qed.

Lemma frame_selectionState : keeps selectionState frame.
Proof.
  unfold frame.
  apply keeps_bind; [apply keeps_gets|intros ?].
  apply keeps_bind; [apply keeps_modify; intros []; reflexivity|intros ?].
  apply keeps_bind; [apply keeps_gets|intros ?].
  apply keeps_forEach. intros n. apply forward_selectionState.
Qed.

Lemma frame_returns s : (frame s).1 = inr ().
Proof.
  assert (H : ∀ ns s1, (forEach ns forward s1).1 = inr ()).
  { induction ns as [|n ns IH]; intros s1; [done|]. simpl.
    unfold bind. destruct n; simpl; apply IH. }
  unfold frame, bind, gets, modify. simpl. apply H.
Qed.

(** Every handler of the event loop returns normally from a sound state,
    and leaves a sound state. *)
Lemma handle_sound e s :
  Sound s → (handle e s).1 = inr () ∧ Sound (handle e s).2.
Proof.
  intros Hs. destruct e; simpl.
  - by apply updateData_sound.
  - split; [done|]. apply (Sound_selectionState s); [by destruct s|done].
  - split; [done|]. apply (Sound_selectionState s); [by destruct s|done].
  - unfold bind, gets. simpl.
    destruct (element nodeId0 s) as [node|] eqn:Hel; [|done]. simpl.
    assert (He : is_Some (NetworkRenderer.edgeElements (renderer s))).
    { destruct Hs as [(_ & _ & Hne & _) _]. apply Hne.
      unfold element in Hel.
      destruct (NetworkRenderer.nodeElements (renderer s)); [eauto|done]. }
    unfold bind, gets. simpl.
    destruct (JSSet.has (pid node) (selectedNodes s));
      [by apply unselectNode_sound|by apply selectNode_sound].
  - unfold _handleBackgroundClick, bind, gets. simpl.
    destruct (selectedNodes s) as [|i ids] eqn:Hsel; [done|]. simpl.
    apply restoreAllColors_sound; [done|].
    destruct Hs as [(_ & _ & _ & Hne) _]. apply Hne. by rewrite Hsel.
  - split; [done|]. apply (Sound_selectionState s); [|done].
    unfold modify. simpl.
    pose proof (NetworkRenderer.fireTimer_elementsOf (renderer s)) as H.
    destruct s. unfold selectionState. simpl in *. by rewrite H.
  - split; [done|]. apply (Sound_selectionState s); [|done].
    apply resume_selectionState.
  - split; [apply frame_returns|].
    apply (Sound_selectionState s); [|done]. apply frame_selectionState.
Qed.

Lemma Sound_run history : Sound (run history).
Proof.
  unfold run. induction history as [|e history IH] using rev_ind.
  - apply Sound_constructed.
  - rewrite foldl_app. simpl. by apply handle_sound.
Qed.

(** X19. After any history of events, no id is selected twice, the
    selection colour is set exactly while something is selected, and the
    colour of every selected node is on record, so that unselecting or
    restoring it has a colour to go back to. *)
Theorem selection_is_consistent (history : list event) :
  let s := run history in
  NoDup (selectedNodes s)
  ∧ (selectionColor s = None ↔ selectedNodes s = [])
  ∧ (∀ i, i ∈ selectedNodes s → is_Some (originalColors s !! i)).
Proof. apply Sound_run. Qed.

(** X20. After any history of events, whatever happens next is handled
    without an exception leaving the handler: a failure of a colour
    transition stays inside its promise, and a subscriber that raises is
    caught by [emit]. *)
Theorem handlers_never_raise (history : list event) (e : event) :
  (handle e (run history)).1 = inr ().
Proof. apply handle_sound, Sound_run. Qed.

(** *** The stabilisation events of an update *)

(** The event the controller emits for a callback of the simulation. *)
Definition toEvent (n : NetworkSimulation.notification)
  : option (string * payload) :=
  match n with
  | NetworkSimulation.Tick => None
  | NetworkSimulation.Progress x => Some ("stabilizationProgress", Percent x)
  | NetworkSimulation.Complete => Some ("stabilizationComplete", NoData)
  end.

Definition allSet : NetworkSimulation.Callbacks :=
  {| NetworkSimulation.tick := true; NetworkSimulation.progress := true;
     NetworkSimulation.complete := true |}.

(** The simulation has the parameters of its [_initialize] and the
    controller's three callbacks. *)
Definition Listening (s : State) : Prop :=
  NetworkSimulation.configured (simulation s)
  ∧ NetworkSimulation.callbacks (simulation s) = allSet.

Lemma forward_emits ns : ∀ s,
  simulation (forEach ns forward s).2 = simulation s
  ∧ emitted (forEach ns forward s).2 = emitted s ++ omap toEvent ns.
Proof.
  induction ns as [|n ns IH]; intros s; simpl.
  - by rewrite app_nil_r.
  - unfold bind. destruct n; simpl.
    + apply IH.
    + destruct (IH (with_console
                      (console s
                       ++ (EventManager.emit raises "stabilizationProgress"
                             (Percent percent) (events s)).2)
                      (with_emitted
                         (emitted s
                          ++ [("stabilizationProgress", Percent percent)]) s)))
        as [-> ->].
      split; [by destruct s|]. destruct s. simpl. by rewrite <- app_assoc.
    + destruct (IH (with_console
                      (console s
                       ++ (EventManager.emit raises "stabilizationComplete"
                             NoData (events s)).2)
                      (with_emitted
                         (emitted s ++ [("stabilizationComplete", NoData)])
                         s)))
        as [-> ->].
      split; [by destruct s|]. destruct s. simpl. by rewrite <- app_assoc.
Qed.

Lemma frame_forwards s :
  simulation (frame s).2 = NetworkSimulation.frame (simulation s)
  ∧ emitted (frame s).2
    = emitted s
      ++ omap toEvent
           (drop (length (NetworkSimulation.notified (simulation s)))
              (NetworkSimulation.notified
                 (NetworkSimulation.frame (simulation s)))).
Proof.
  unfold frame, bind, gets, modify. simpl.
  match goal with |- context [forEach ?ns forward ?s1] =>
    destruct (forward_emits ns s1) as [-> ->] end.
  by destruct s.
Qed.

Lemma frames_forward n : ∀ s,
  let s' := foldl step s (replicate n Frame) in
  simulation s' = NetworkSimulation.frames n (simulation s)
  ∧ emitted s'
    = emitted s
      ++ omap toEvent
           (drop (length (NetworkSimulation.notified (simulation s)))
              (NetworkSimulation.notified
                 (NetworkSimulation.frames n (simulation s)))).
Proof.
  induction n as [|n IH]; intros s.
  - simpl. by rewrite drop_all, app_nil_r.
  - cbn [replicate foldl NetworkSimulation.frames].
    change (step s Frame) with (frame s).2.
    destruct (frame_forwards s) as [Hsim Hem].
    destruct (IH (frame s).2) as [H1 H2]. rewrite H1, H2, Hsim, Hem.
    split; [done|].
    destruct (NetworkSimulation.frame_appends (simulation s)) as [l1 Hl1].
    destruct (NetworkSimulation.frames_appends n
                (NetworkSimulation.frame (simulation s))) as [l2 Hl2].
    rewrite Hl2, Hl1, <- !app_assoc.
    rewrite !drop_app_length.
    rewrite (app_assoc (NetworkSimulation.notified (simulation s)) l1 l2).
    rewrite drop_app_length.
    by rewrite omap_app, app_assoc.
Qed.

Lemma updateData_restarts nodesData edgesData s :
  Sound s → Listening s →
  ∃ sim, simulation (updateData nodesData edgesData s).2
         = NetworkSimulation.restart sim
         ∧ NetworkSimulation.configured sim
         ∧ NetworkSimulation.callbacks sim = allSet
         ∧ emitted (updateData nodesData edgesData s).2 = emitted s.
Proof.
  intros [(Hi & Hsvg & _) _] [Hc Hcb].
  unfold updateData, updateData_try, bind, gets, when, record,
    modify, ret, NetworkRenderer.updateElements. simpl. rewrite Hi. simpl.
  destruct s as [[] ? ? ? ? ? ? ? ? ? ? ? ? ? ? ?]. simpl in *. subst.
  simpl. eexists. split; [reflexivity|].
  destruct Hc as (H1 & H2 & H3 & H4).
  unfold NetworkSimulation.configured. simpl.
  split; [|by split]. split; [exact H1|]. split; [exact H2|]. by split.
Qed.

Lemma keeps_simulation_getConnectedNodes i :
  keeps simulation (_getConnectedNodes i).
Proof.
  intros s. unfold _getConnectedNodes, NetworkRenderer.getConnectedNodes.
  destruct s as [[] ? ? ? ? ? ? ? ? ? ? ? ? ? ? ?]. simpl.
  by destruct edgeElements.
Qed.

Lemma processTransitionQueue_simulation s :
  simulation (_processTransitionQueue s) = simulation s.
Proof.
  unfold _processTransitionQueue.
  destruct (isTransitioning s); [done|].
  destruct (transitionQueue s) as [|t rest] eqn:Hq; [done|].
  destruct (NetworkRenderer.animateColorTransition _ _ _ _ _) as [p rs].
  by destruct s.
Qed.

Lemma keeps_simulation_queueTransition t :
  keeps simulation (_queueTransition t).
Proof.
  intros s. unfold _queueTransition, modify. simpl.
  match goal with |- context [if ?b then ?x else _] =>
    destruct b; [by destruct s|] end.
  rewrite processTransitionQueue_simulation. by destruct s.
Qed.

Ltac keeps_simulation :=
  repeat lazymatch goal with
  | |- keeps _ (ret _) => apply keeps_ret
  | |- keeps _ (gets _) => apply keeps_gets
  | |- keeps _ (emit _ _) => apply keeps_emit; intros [] ? ?; reflexivity
  | |- keeps _ (_getConnectedNodes _) => apply keeps_simulation_getConnectedNodes
  | |- keeps _ (_queueTransition _) => apply keeps_simulation_queueTransition
  | |- keeps _ (bind _ _) => apply keeps_bind; [|intros ?]
  | |- keeps _ (when _ _) => apply keeps_when
  | |- keeps _ (forEach _ _) => apply keeps_forEach; intros ?
  | |- keeps _ (modify _) => apply keeps_modify; intros []; reflexivity
  end.

Lemma keeps_simulation_restoreAllColors : keeps simulation _restoreAllColors.
Proof. unfold _restoreAllColors. keeps_simulation. Qed.

Lemma keeps_simulation_handleNodeClick n :
  keeps simulation (_handleNodeClick n).
Proof.
  destruct n as [n|]; simpl; [|apply keeps_ret].
  apply keeps_bind; [apply keeps_gets|].
  intros [|]; [unfold _unselectNode|unfold _selectNode]; keeps_simulation.
  apply keeps_simulation_restoreAllColors.
Qed.

Lemma handle_listening e s :
  Sound s → Listening s → Listening (handle e s).2.
Proof.
  intros Hs Hl. destruct e; simpl.
  - destruct (updateData_restarts nodesData edgesData s Hs Hl)
      as (sim & Hsim & (H1 & H2 & H3 & H4) & Hcb & _).
    unfold Listening. rewrite Hsim. by repeat split.
  - by destruct s.
  - by destruct s.
  - unfold Listening.
    rewrite (keeps_bind simulation (gets (element nodeId0))
               (λ node, _handleNodeClick node)); [done|apply keeps_gets|].
    intros n. apply keeps_simulation_handleNodeClick.
  - unfold Listening.
    assert (H : keeps simulation _handleBackgroundClick).
    { unfold _handleBackgroundClick. keeps_simulation.
      apply keeps_simulation_restoreAllColors. }
    by rewrite H.
  - by destruct s.
  - unfold Listening, modify. simpl. unfold resume.
    destruct (suspended s !! k) as [[t p]|]; [|done].
    destruct (NetworkRenderer.promises (renderer s) !! p) as [[| |err]|];
      try done; rewrite processTransitionQueue_simulation; by destruct s.
  - unfold Listening. destruct (frame_forwards s) as [-> _].
    destruct Hl as [Hc Hcb].
    destruct (NetworkSimulation.frame_configured _ Hc) as [Hc' Hcb'].
    split; [done|]. by rewrite Hcb'.
Qed.

Lemma Listening_run history : Listening (run history).
Proof.
  unfold run. induction history as [|e history IH] using rev_ind.
  - by repeat split.
  - rewrite foldl_app. simpl. apply handle_listening; [|done].
    apply Sound_run.
Qed.

(** X21. The stabilisation events of an update. After any history, an
    [updateData] followed by [n] frames of the simulation emits, frame by
    frame, what the simulation reports to the controller's callbacks: one
    [stabilizationProgress] with the percentage in each of the first 300
    frames, [stabilizationComplete] after the 300th, and
    [stabilizationComplete] once more in frame 342. *)
Theorem update_emits_stabilisation (history : list event)
    (nodesData : list Node) (edgesData : list Edge) (n : nat) :
  let s0 := run (history ++ [UpdateData nodesData edgesData]) in
  let s := foldl step s0 (replicate n Frame) in
  emitted s
  = emitted s0
    ++ omap toEvent
         (concat (NetworkSimulation.reported allSet <$> seq 1 n)).
Proof.
  intros s0 s. subst s.
  destruct (frames_forward n s0) as [_ ->]. f_equal. f_equal.
  subst s0. unfold run. rewrite foldl_app. simpl. fold (run history).
  unfold step. simpl.
  destruct (updateData_restarts nodesData edgesData (run history)
              (Sound_run history) (Listening_run history))
    as (sim & -> & Hc & Hcb & _).
  rewrite (NetworkSimulation.notified_frames sim n Hc), Hcb.
  replace (NetworkSimulation.notified (NetworkSimulation.restart sim))
    with (NetworkSimulation.notified sim) by done.
  by rewrite drop_app_length.
Qed.

End WithRuntime.


(** *** Instances *)

(** A runtime for the examples: no string parses as a number, [Math.pow]
    and [Math.random] answer [NaN], the scale is d3's in exact arithmetic
    (the examples ask it where it does not round), no subscriber raises. *)
Definition noParse : string → JS.number := λ _, JS.NaN.
Definition noPow : JS.number → JS.number → JS.number := λ _ _, JS.NaN.
Definition noRandom : nat → JS.number := λ _, JS.NaN.
Definition exactScale := D3.scaleLinear_exact.
Definition noRaise : EventManager.callback → payload → bool := λ _ _, false.

Definition runQuiet : list event → State :=
  run noParse noPow noRandom exactScale noRaise.

Definition coloured (i c : string) : Node :=
  mkNode i i (JS.VNumber (JS.of_Z 1)) (Some c) JS.VUndefined JS.VUndefined.

(** The nodes a (red), b (blue) and c (green), with the scenario's edges
    a → b and a → c. *)
Definition threeNodes : list Node :=
  [coloured "a" "red"; coloured "b" "blue"; coloured "c" "green"].

(** The datum of the element of node [i], for a node that has one. *)
Definition elementOf (i : string) (s : State) : PNode :=
  default (NetworkRenderer.plain i "") (element i s).

(** A witness of [transition_queue_serialized]: a is selected, its
    animation fails at once (a has edges), b is selected meanwhile; the
    resumed activation logs the failure and starts b's descriptor. *)
Lemma transition_queue_serialized_witness :
  let s := runQuiet [UpdateData threeNodes scenarioEdges;
                     Click "a"; Click "b"] in
  console (resume 0 s)
  = [error_TransitionFailed (ReferenceError "targetColor")]
  ∧ nodeId <$> started (resume 0 s) = ["a"; "b"]
  ∧ nodeId <$> transitionQueue (resume 0 s) = [].
Proof.
  unfold runQuiet.
  set (s := run noParse noPow noRandom exactScale noRaise
              [UpdateData threeNodes scenarioEdges; Click "a"; Click "b"]).
  cbv zeta.
  destruct (transition_queue_serialized noParse noPow noRandom exactScale
              noRaise
              [UpdateData threeNodes scenarioEdges; Click "a"; Click "b"])
    as (_ & _ & _ & _ & _ & _ & H).
  fold s in H.
  assert (Hsus : suspended s
                 = [({| type := select; nodeId := "a";
                        targetColor := Some (Css "red");
                        connectedNodes := 0 |}, 0)])
    by (vm_compute; reflexivity).
  assert (Hp : NetworkRenderer.promises (renderer s) !! 0
               = Some (NetworkRenderer.Rejected
                         (ReferenceError "targetColor")))
    by (vm_compute; reflexivity).
  destruct (H _ _ Hsus) as [_ Hr]. cbv zeta in Hr.
  rewrite Hp in Hr. destruct Hr as (Hc & Hs & Hq & _).
  rewrite Hc, Hs, Hq. vm_compute. repeat split.
Defined.

(** *** Colour transitions in flight *)

(** A d3 transition runs for 300 ms from its start. *)
Definition startOf (t : NetworkRenderer.transition) : nat :=
  match t with
  | NetworkRenderer.FillTo _ _ start => start
  | NetworkRenderer.StrokeTo _ _ _ start => start
  end.

Definition inFlight (now : nat) (t : NetworkRenderer.transition) : bool :=
  bool_decide (startOf t ≤ now < startOf t + NetworkRenderer.duration).

(** C1, counterexample. The nodes a (red), b (blue) and c (green), each
    with an edge, are selected one after the other, each click followed
    by the continuation of its failed call; b and c turn red. Then the
    background is clicked. The click queues the restore of a, b and c and
    starts a's: the call starts the fill of a and fails at once (a has an
    edge). Its continuation logs the error and starts b's restore, whose
    call starts the fill of b to blue and fails; the continuation of that
    one starts c's restore, whose call starts the fill of c to green. The
    three fills start in the same turn of the event loop and run for
    300 ms each: they are in flight together, while one call at a time
    is awaited. *)
Lemma fills_overlap_after_failed_call :
  let s := runQuiet [UpdateData threeNodes scenarioEdges;
                     Click "a"; Resume 0; Click "b"; Resume 0;
                     Click "c"; Resume 0;
                     BackgroundClick; Resume 0; Resume 0] in
  let r := renderer s in
  let restores := drop 3 (NetworkRenderer.transitions r) in
  type <$> started s = [select; select; select; restore; restore; restore]
  ∧ NetworkRenderer.now r = 0
  ∧ restores = [NetworkRenderer.FillTo "a" (Some (Css "red")) 0;
                NetworkRenderer.FillTo "b" (Some (Css "blue")) 0;
                NetworkRenderer.FillTo "c" (Some (Css "green")) 0]
  ∧ filter (inFlight (NetworkRenderer.now r)) restores = restores
  ∧ ¬ length (filter (inFlight (NetworkRenderer.now r)) restores) ≤ 1
  ∧ length (suspended s) = 1
  ∧ isTransitioning s = true.
Proof. vm_compute. repeat split. lia. Qed.

(** A witness of [selection_colour_semantics]: from an empty selection,
    the red node a and the blue node b are selected, a is unselected, the
    green node c is selected and b unselected. The selection colour stays
    red throughout, the colour of a, and the five descriptors target red
    (the selections, and the unselection of a) and blue (the unselection
    of b). *)
Lemma selection_colour_semantics_witness :
  let s := runQuiet [UpdateData threeNodes scenarioEdges] in
  let a := elementOf "a" s in
  let b := elementOf "b" s in
  let c := elementOf "c" s in
  let ops := [Select a; Select b; Unselect a; Select c; Unselect b] in
  let s' := stateAfter noRaise ops s 5 in
  selectionColor s' = Some (Css "red")
  ∧ (λ t, (type t, nodeId t, targetColor t)) <$> enqueued s'
    = [(select, "a", Some (Css "red")); (select, "b", Some (Css "red"));
       (unselect, "a", Some (Css "red")); (select, "c", Some (Css "red"));
       (unselect, "b", Some (Css "blue"))].
Proof.
  intros s a b c ops s'.
  assert (He : NetworkRenderer.edgeElements (renderer s)
               = Some (processedEdges
                         (processData noParse noPow noRandom exactScale 0
                            threeNodes scenarioEdges)))
    by (vm_compute; reflexivity).
  destruct (selection_colour_semantics noRaise ops s _ He)
    as (_ & _ & ts & _ & _ & _ & _ & H).
  destruct (H a [Select b; Unselect a; Select c; Unselect b]) as [Hc _].
  - vm_compute. reflexivity.
  - reflexivity.
  - intros k [Hk1 Hk2]. simpl in Hk2.
    destruct k as [|[|[|[|[|[|k]]]]]]; try lia; vm_compute; discriminate.
  - split; [exact Hc|]. vm_compute. reflexivity.
Defined.

(** C2, counterexample. Node a is red when it is first selected and
    unselected; [updateData] then replaces it by a blue node of the same
    id; selected and unselected again, its unselect descriptor targets
    red, the entry [originalColors] kept, not blue, the colour it had
    before this selection. *)
Lemma unselect_targets_stale_colour :
  let before := [UpdateData [coloured "a" "red"] [];
                 Click "a"; Click "a";
                 UpdateData [coloured "a" "blue"] []] in
  let s := runQuiet before in
  let s' := runQuiet (before ++ [Click "a"; Click "a"]) in
  selectedNodes s = []
  ∧ pcolor <$> element "a" s = Some (Css "blue")
  ∧ (λ t, (type t, nodeId t, targetColor t)) <$> drop 2 (enqueued s')
    = [(select, "a", Some (Css "blue")); (unselect, "a", Some (Css "red"))]
  ∧ (targetColor <$> last (enqueued s')) ≠ Some (pcolor <$> element "a" s).
Proof. vm_compute. repeat split. discriminate. Qed.

(** A witness of [unselecting_last_node_clears_selection]: a is the only
    selected node and is clicked again. *)
Lemma unselecting_last_node_witness :
  let s := runQuiet [UpdateData threeNodes scenarioEdges; Click "a"] in
  let r := _unselectNode noRaise (elementOf "a" s) s in
  selectedNodes s = ["a"]
  ∧ emitted r.2
    = [("nodeSelected", Selection "a" ["a"]);
       ("selectionCleared", NoData);
       ("nodeUnselected", Selection "a" [])]
  ∧ (type <$> enqueued r.2) = [select; unselect].
Proof.
  intros s r.
  assert (He : NetworkRenderer.edgeElements (renderer s)
               = Some (processedEdges
                         (processData noParse noPow noRandom exactScale 0 threeNodes
                            scenarioEdges)))
    by (vm_compute; reflexivity).
  assert (Hs : selectedNodes s = [pid (elementOf "a" s)])
    by (vm_compute; reflexivity).
  destruct (unselecting_last_node_clears_selection noRaise
              (elementOf "a" s) s _ He Hs)
    as (_ & _ & _ & Hemit & a & Hq).
  subst r. rewrite Hemit, Hq. subst s. vm_compute. repeat split.
Defined.

(** A witness of [updateData_steps]: the first update of a constructed
    controller. *)
Lemma updateData_steps_witness :
  let r := updateData noParse noPow noRandom exactScale threeNodes scenarioEdges
             constructed in
  calls r.2
  = [call_initialize; call_processData; call_updateElements; call_stop;
     call_setData; call_restart]
  ∧ NetworkSimulation.isRunning (simulation r.2) = true.
Proof.
  intros r.
  destruct (updateData_steps noParse noPow noRandom exactScale threeNodes scenarioEdges
              constructed eq_refl eq_refl)
    as (_ & Hc & _ & _ & _ & Hr & _).
  subst r. rewrite Hc, Hr. split; reflexivity.
Defined.

(** C5, counterexample. On the first update of a constructed controller
    the simulation's [stop] is the third call, after [processData] and
    [updateElements], not the first. *)
Lemma updateData_stops_after_reconciling :
  let r := updateData noParse noPow noRandom exactScale threeNodes scenarioEdges
             constructed in
  let steps := drop (length (calls constructed)) (calls r.2) in
  steps = [call_processData; call_updateElements; call_stop;
           call_setData; call_restart]
  ∧ steps ≠ [call_stop; call_processData; call_updateElements;
             call_setData; call_restart]
  ∧ head steps ≠ Some call_stop.
Proof. vm_compute. repeat split; discriminate. Qed.

(** A witness of [background_click_restores_every_node]: a and b are
    selected, then the background is clicked. *)
Lemma background_click_witness :
  let s := runQuiet [UpdateData threeNodes scenarioEdges;
                     Click "a"; Click "b"] in
  let r := _handleBackgroundClick noRaise s in
  selectedNodes s = ["a"; "b"]
  ∧ selectedNodes r.2 = []
  ∧ ∃ ts, enqueued r.2 = enqueued s ++ ts
          ∧ described <$> ts
            = [(restore, "a", Some (Css "red"));
               (restore, "b", Some (Css "blue"))].
Proof.
  intros s r.
  assert (He : NetworkRenderer.edgeElements (renderer s)
               = Some (processedEdges
                         (processData noParse noPow noRandom exactScale 0 threeNodes
                            scenarioEdges)))
    by (vm_compute; reflexivity).
  assert (Hs : selectedNodes s = ["a"; "b"]) by (vm_compute; reflexivity).
  destruct (background_click_restores_every_node noRaise s _ He) as [_ H].
  rewrite Hs in H. cbv beta iota in H.
  destruct H as (H1 & _ & _ & _ & ts & Hq & Hts).
  do 2 (split; [done|]). exists ts. split; [done|].
  rewrite Hts. subst s. vm_compute. reflexivity.
Defined.

(** A witness of [click_toggles_the_node]: with nothing selected, a click
    on a selects a. *)
Lemma click_toggles_witness :
  let s := runQuiet [UpdateData threeNodes scenarioEdges] in
  "a" ∈ selectedNodes (_handleNodeClick noRaise (Some (elementOf "a" s)) s).2.
Proof.
  intros s.
  assert (He : NetworkRenderer.edgeElements (renderer s)
               = Some (processedEdges
                         (processData noParse noPow noRandom exactScale 0 threeNodes
                            scenarioEdges)))
    by (vm_compute; reflexivity).
  assert (Hs : selectedNodes s = []) by (vm_compute; reflexivity).
  assert (Ha : pid (elementOf "a" s) = "a") by (vm_compute; reflexivity).
  destruct (click_toggles_the_node noRaise (elementOf "a" s) s _ He)
    as [_ H].
  apply H. rewrite Ha, decide_True by done. rewrite Hs.
  apply not_elem_of_nil.
Defined.

End NetworkVisualization.

(** ** Hovering ([core/renderer.js], [core/network.js]) *)

Module Hover.
Import DataProcessor.

(** An opacity transition started on the element of a node or of an edge:
    [selection.transition().duration(200).style('opacity', o)]. A
    transition started later on an element replaces the earlier ones. *)
Inductive fade :=
| NodeFade (d : PNode) (opacity : JS.number)
| EdgeFade (d : PEdge) (opacity : JS.number).

Definition dimmed : JS.number := JS.Num (Q2Qc (3 # 10)).
Definition fullOpacity : JS.number := JS.of_Z 1.

(** The renderer with the fields its highlighting uses: its own
    [selectedNodes] and [highlightedNodes], and the opacity transitions it
    has started, in order. *)
Record State := mkState {
  renderer : NetworkRenderer.State;
  selectedNodes : list string;
  highlightedNodes : list string;
  fades : list fade
}.

Definition with_fades (f : list fade) (s : State) : State :=
  {| renderer := renderer s; selectedNodes := selectedNodes s;
     highlightedNodes := highlightedNodes s; fades := f |}.
Definition with_highlightedNodes (h : list string) (s : State) : State :=
  {| renderer := renderer s; selectedNodes := selectedNodes s;
     highlightedNodes := h; fades := fades s |}.
Definition with_renderer (r : NetworkRenderer.State) (s : State) : State :=
  {| renderer := r; selectedNodes := selectedNodes s;
     highlightedNodes := highlightedNodes s; fades := fades s |}.

(** [new NetworkRenderer(...)]: both sets are empty. *)
Definition new : State :=
  {| renderer := NetworkRenderer.new; selectedNodes := [];
     highlightedNodes := []; fades := [] |}.

(** The callback of [nodes.forEach] in [highlightNodes]. *)
Definition highlightNode (node : PNode) (s : State)
  : (js_error + unit) * State :=
  match NetworkRenderer.nodeElements (renderer s) with
  | None => (inl (TypeError "this.nodeElements is null"), s)
  | Some ns =>
      let s1 := with_fades
                  (fades s ++ ((λ d, NodeFade d fullOpacity)
                                 <$> filter (λ d, pid d = pid node) ns)) s in
      match NetworkRenderer.edgeElements (renderer s1) with
      | None => (inl (TypeError "this.edgeElements is null"), s1)
      | Some es =>
          (inr (),
           with_fades
             (fades s1 ++ ((λ d, EdgeFade d fullOpacity)
                             <$> filter (NetworkRenderer.incident (pid node))
                                   es)) s1)
      end
  end.

Fixpoint forEachNode (nodes : list PNode)
    (f : PNode → State → (js_error + unit) * State) (s : State)
  : (js_error + unit) * State :=
  match nodes with
  | [] => (inr (), s)
  | n :: rest =>
      match f n s with
      | (inl e, s') => (inl e, s')
            | (inr _, s') => forEachNode rest f s'
      end
  end.

(** [new Set(ids)] *)
Definition setOf (ids : list string) : list string :=
  foldl (λ acc i, JSSet.add i acc) [] ids.

(** [highlightNodes(nodes)] *)
Definition highlightNodes (nodes : list PNode) (s : State)
  : (js_error + unit) * State :=
  match NetworkRenderer.nodeElements (renderer s) with
  | None => (inl (TypeError "this.nodeElements is null"), s)
  | Some ns =>
      let s1 := with_fades
                  (fades s
                   ++ ((λ d, NodeFade d dimmed)
                         <$> filter (λ d, pid d ∉ selectedNodes s) ns)) s in
      match forEachNode nodes highlightNode s1 with
      | (inl e, s2) => (inl e, s2)
      | (inr _, s2) =>
          (inr (), with_highlightedNodes (setOf (pid <$> nodes)) s2)
      end
  end.

(** [clearHighlights(excludeNodes)] *)
Definition clearHighlights (excludeNodes : list string) (s : State)
  : (js_error + unit) * State :=
  match NetworkRenderer.nodeElements (renderer s) with
  | None => (inl (TypeError "this.nodeElements is null"), s)
  | Some ns =>
      let s1 := with_fades
                  (fades s
                   ++ ((λ d, NodeFade d fullOpacity)
                         <$> filter (λ d, pid d ∉ excludeNodes) ns)) s in
      match NetworkRenderer.edgeElements (renderer s1) with
      | None => (inl (TypeError "this.edgeElements is null"), s1)
      | Some es =>
          (inr (),
           with_highlightedNodes []
             (with_fades
                (fades s1 ++ ((λ d, EdgeFade d fullOpacity) <$> es)) s1))
      end
  end.

(** The controller's [_handleNodeHover(node)] and [_handleNodeLeave()];
    [selected] is the controller's own [selectedNodes]. *)
Definition _handleNodeHover (selected : list string) (node : option PNode)
    (s : State) : (js_error + unit) * State :=
  match node with
  | None => (inr (), s)
  | Some node =>
      match NetworkRenderer.getConnectedNodes (pid node) (renderer s) with
      | (inl e, r) => (inl e, with_renderer r s)
      | (inr a, r) =>
          let s1 := with_renderer r s in
          let connectedNodes :=
            default [] (NetworkRenderer.arrays r !! a) in
          if bool_decide (length selected = 0)
          then highlightNodes connectedNodes s1
          else
            let unselectedConnections :=
              filter (λ n, pid n ∉ selected) connectedNodes in
            highlightNodes unselectedConnections s1
      end
  end.

Definition _handleNodeLeave (selected : list string) (s : State)
  : (js_error + unit) * State :=
  clearHighlights selected s.

(** The opacity the element of the datum [d] ends at: the target of the
    last transition started on it. *)
Definition nodeFades (d : PNode) (fs : list fade) : list JS.number :=
  omap (λ f, match f with
             | NodeFade d' o => if decide (d' = d) then Some o else None
             | EdgeFade _ _ => None
             end) fs.
Definition edgeFades (d : PEdge) (fs : list fade) : list JS.number :=
  omap (λ f, match f with
             | EdgeFade d' o => if decide (d' = d) then Some o else None
             | NodeFade _ _ => None
             end) fs.
Definition nodeOpacity (d : PNode) (s : State) : option JS.number :=
  last (nodeFades d (fades s)).
Definition edgeOpacity (d : PEdge) (s : State) : option JS.number :=
  last (edgeFades d (fades s)).

Lemma nodeFades_app d fs gs :
  nodeFades d (fs ++ gs) = nodeFades d fs ++ nodeFades d gs.
Proof. apply omap_app. Qed.

Lemma edgeFades_app d fs gs :
  edgeFades d (fs ++ gs) = edgeFades d fs ++ edgeFades d gs.
Proof. apply omap_app. Qed.

Lemma nodeFades_edges d o (es : list PEdge) :
  nodeFades d ((λ e, EdgeFade e o) <$> es) = [].
Proof. induction es as [|e es IH]; [done|]. by rewrite fmap_cons. Qed.

Lemma edgeFades_nodes d o (ns : list PNode) :
  edgeFades d ((λ n, NodeFade n o) <$> ns) = [].
Proof. induction ns as [|n ns IH]; [done|]. by rewrite fmap_cons. Qed.

(** The transitions to [o] started on all of [ns]: none on [d], or some,
    all to [o]. *)
Lemma nodeFades_nodes d o (ns : list PNode) :
  nodeFades d ((λ n, NodeFade n o) <$> ns)
  = replicate (length (filter (λ n, n = d) ns)) o.
Proof.
  induction ns as [|n ns IH]; [done|]. rewrite fmap_cons. simpl.
  destruct (decide (n = d)) as [->|Hne].
  - rewrite filter_cons_True by done. simpl. by f_equal.
  - by rewrite filter_cons_False.
Qed.

Lemma edgeFades_edges d o (es : list PEdge) :
  edgeFades d ((λ n, EdgeFade n o) <$> es)
  = replicate (length (filter (λ n, n = d) es)) o.
Proof.
  induction es as [|n es IH]; [done|]. rewrite fmap_cons. simpl.
  destruct (decide (n = d)) as [->|Hne].
  - rewrite filter_cons_True by done. simpl. by f_equal.
  - by rewrite filter_cons_False.
Qed.

Lemma last_replicate_app {A} (l : list A) n (x : A) :
  0 < n → last (l ++ replicate n x) = Some x.
Proof.
  intros Hn. destruct n as [|n]; [lia|].
  rewrite replicate_S_end, app_assoc. apply last_snoc.
Qed.

Lemma filter_present {A} `{EqDecision A} (P : A → Prop)
    `{∀ x, Decision (P x)} (d : A) (l : list A) :
  d ∈ l → P d → 0 < length (filter (λ n, n = d) (filter P l)).
Proof.
  intros Hin HP.
  assert (Hd : d ∈ filter (λ n, n = d) (filter P l)).
  { apply list_elem_of_filter. split; [done|].
    by apply list_elem_of_filter. }
  destruct (filter _ (filter P l)); [by apply elem_of_nil in Hd|simpl; lia].
Qed.

Lemma filter_absent {A} `{EqDecision A} (P : A → Prop)
    `{∀ x, Decision (P x)} (d : A) (l : list A) :
  ¬ P d → filter (λ n, n = d) (filter P l) = [].
Proof.
  intros HP.
  destruct (filter (λ n, n = d) (filter P l)) as [|x l'] eqn:E; [done|].
  assert (Hx : x ∈ filter (λ n, n = d) (filter P l)) by (rewrite E; by left).
  apply list_elem_of_filter in Hx as [-> Hx].
  apply list_elem_of_filter in Hx as [Hx _]. done.
Qed.

Lemma highlightNode_fades node s ns es :
  NetworkRenderer.nodeElements (renderer s) = Some ns →
  NetworkRenderer.edgeElements (renderer s) = Some es →
  highlightNode node s
  = (inr (),
     with_fades
       (fades s
        ++ ((λ d, NodeFade d fullOpacity) <$> filter (λ d, pid d = pid node) ns)
        ++ ((λ d, EdgeFade d fullOpacity)
              <$> filter (NetworkRenderer.incident (pid node)) es)) s).
Proof.
  intros Hn He. unfold highlightNode. rewrite Hn. simpl. rewrite He.
  simpl. by rewrite <- app_assoc.
Qed.

(** What the loop of [highlightNodes] starts: transitions to full opacity
    only, on the elements of the listed nodes and on edges. *)
Lemma forEachNode_highlightNode nodes : ∀ s ns es,
  NetworkRenderer.nodeElements (renderer s) = Some ns →
  NetworkRenderer.edgeElements (renderer s) = Some es →
  ∃ fs, forEachNode nodes highlightNode s
        = (inr (), with_fades (fades s ++ fs) s)
        ∧ ∀ d, (∀ n, n ∈ nodes → pid n ≠ pid d) → nodeFades d fs = [].
Proof.
  induction nodes as [|n nodes IH]; intros s ns es Hn He; simpl.
  - exists []. rewrite app_nil_r. split; [by destruct s|done].
  - rewrite (highlightNode_fades n s ns es) by done.
    match goal with |- context [forEachNode nodes highlightNode ?s1] =>
      destruct (IH s1 ns es Hn He) as (fs & -> & Hfs) end.
    eexists. split.
    + simpl. rewrite <- !app_assoc. reflexivity.
    + intros d Hd. rewrite !nodeFades_app, nodeFades_edges, Hfs.
      * rewrite nodeFades_nodes, filter_absent; [done|].
        intros Heq. apply (Hd n); [by left|done].
      * intros m Hm. apply Hd. by right.
Qed.

Lemma highlightNodes_fades nodes s ns es :
  NetworkRenderer.nodeElements (renderer s) = Some ns →
  NetworkRenderer.edgeElements (renderer s) = Some es →
  ∃ fs, highlightNodes nodes s
        = (inr (),
           with_highlightedNodes (setOf (pid <$> nodes))
             (with_fades
                (fades s
                 ++ ((λ d, NodeFade d dimmed)
                       <$> filter (λ d, pid d ∉ selectedNodes s) ns)
                 ++ fs) s))
        ∧ ∀ d, (∀ n, n ∈ nodes → pid n ≠ pid d) → nodeFades d fs = [].
Proof.
  intros Hn He. unfold highlightNodes. rewrite Hn.
  match goal with |- context [forEachNode nodes highlightNode ?s1] =>
    destruct (forEachNode_highlightNode nodes s1 ns es Hn He) as (fs & -> & Hfs)
  end.
  exists fs. split; [|done]. simpl. by rewrite <- app_assoc.
Qed.

(** X22. Hovering a node and leaving it again. With the elements in
    place, both handlers return normally; afterwards the last opacity
    transition started on the element of every node that is selected
    leads to 0.3, and the last one on every other node and on every edge
    to 1: the selected nodes, dimmed by the hover with all others, are
    passed over when the highlights are cleared. *)
Theorem selected_nodes_stay_dimmed_after_hover (selected : list string)
    (node : PNode) (s : State) (ns : list PNode) (es : list PEdge) :
  NetworkRenderer.nodeElements (renderer s) = Some ns →
  NetworkRenderer.edgeElements (renderer s) = Some es →
  selectedNodes s = [] →
  let r1 := _handleNodeHover selected (Some node) s in
  let r2 := _handleNodeLeave selected r1.2 in
  r1.1 = inr () ∧ r2.1 = inr ()
  ∧ highlightedNodes r2.2 = []
  ∧ (∀ d, d ∈ ns →
       nodeOpacity d r2.2
       = Some (if decide (pid d ∈ selected) then dimmed else fullOpacity))
  ∧ (∀ d, d ∈ es → edgeOpacity d r2.2 = Some fullOpacity).
Proof.
  intros Hn He Hsel r1 r2. subst r2 r1.
  unfold _handleNodeHover, NetworkRenderer.getConnectedNodes.
  rewrite He. cbn [NetworkRenderer.newArray fst snd].
  set (connected := NetworkRenderer.connectedOf (pid node) es).
  set (s1 := with_renderer _ s).
  assert (Hn1 : NetworkRenderer.nodeElements (renderer s1) = Some ns)
    by (subst s1; by destruct s as [[]]).
  assert (He1 : NetworkRenderer.edgeElements (renderer s1) = Some es)
    by (subst s1; by destruct s as [[]]).
  assert (Harr : default [] (NetworkRenderer.arrays (renderer s1)
                               !! length (NetworkRenderer.arrays (renderer s)))
                 = connected).
  { subst s1. destruct s as [[]]. simpl.
    rewrite lookup_app_r by lia. by rewrite Nat.sub_diag. }
  change (NetworkRenderer.with_arrays _ (renderer s)) with (renderer s1).
  rewrite Harr.
  set (highlighted := if bool_decide (length selected = 0) then connected
                      else filter (λ n, pid n ∉ selected) connected).
  assert (Hh : (if bool_decide (length selected = 0)
                then highlightNodes connected s1
                else highlightNodes
                       (filter (λ n, pid n ∉ selected) connected) s1)
               = highlightNodes highlighted s1)
    by (subst highlighted; by destruct (bool_decide _)).
  rewrite Hh.
  destruct (highlightNodes_fades highlighted s1 ns es Hn1 He1)
    as (fs & -> & Hfs).
  cbn [fst snd]. split; [done|].
  unfold _handleNodeLeave, clearHighlights. cbn [renderer with_fades
    with_highlightedNodes]. rewrite Hn1. cbn [renderer with_fades]. rewrite He1.
  cbn [fst snd]. split; [done|]. split; [done|].
  unfold nodeOpacity, edgeOpacity. cbn [fades with_fades with_highlightedNodes].
  assert (Hs1 : selectedNodes s1 = []) by (subst s1; by destruct s).
  rewrite Hs1. split.
  - intros d Hd. rewrite !nodeFades_app, nodeFades_edges, app_nil_r.
    rewrite !nodeFades_nodes.
    destruct (decide (pid d ∈ selected)) as [Hin|Hout].
    + rewrite (filter_absent (λ d, pid d ∉ selected)) by (intros H; by apply H).
      simpl. rewrite app_nil_r.
      rewrite Hfs.
      * rewrite app_nil_r. apply last_replicate_app.
        apply filter_present; [done|]. apply not_elem_of_nil.
      * intros n Hnn Heq. subst highlighted.
        destruct (bool_decide (length selected = 0)) eqn:Hb.
        -- apply bool_decide_eq_true in Hb. destruct selected; [|done].
           by apply elem_of_nil in Hin.
        -- apply list_elem_of_filter in Hnn as [Hnn _]. apply Hnn.
           by rewrite Heq.
    + rewrite !app_assoc. apply last_replicate_app.
      by apply filter_present.
  - intros d Hd. rewrite !edgeFades_app, !edgeFades_nodes.
    rewrite edgeFades_edges. rewrite !app_assoc.
    apply last_replicate_app.
    assert (Hd' : d ∈ filter (λ n, n = d) es)
      by by apply list_elem_of_filter.
    destruct (filter _ es); [by apply elem_of_nil in Hd'|simpl; lia].
Qed.

(** A witness of [selected_nodes_stay_dimmed_after_hover]: a is selected,
    b is hovered and left; a ends dimmed and b at full opacity. *)
Lemma hover_witness :
  let s := with_renderer NetworkRenderer.twoNodes new in
  let r := _handleNodeLeave ["a"]
             (_handleNodeHover ["a"] (Some (NetworkRenderer.plain "b" "blue"))
                s).2 in
  nodeOpacity (NetworkRenderer.plain "a" "red") r.2 = Some dimmed
  ∧ nodeOpacity (NetworkRenderer.plain "b" "blue") r.2 = Some fullOpacity.
Proof.
  intros s r. subst r.
  destruct (selected_nodes_stay_dimmed_after_hover ["a"]
              (NetworkRenderer.plain "b" "blue") s _ _ eq_refl eq_refl eq_refl)
    as (_ & _ & _ & H & _).
  split.
  - rewrite (H (NetworkRenderer.plain "a" "red")) by by left.
    rewrite decide_True; [done|]. by left.
  - rewrite (H (NetworkRenderer.plain "b" "blue")) by (right; by left).
    rewrite decide_False; [done|].
    intros [E|E]%elem_of_cons; [discriminate E|by apply elem_of_nil in E].
Defined.

End Hover.

(** ** Initialization ([initialization.js]): waiting for the container *)

Module Initialization.

(** [waitForContainerSize()]: the loop over [i] from 0 to 19. The
    container exists; [offsetHeight t] is its height at time [t], in
    milliseconds; a timer of 100 ms runs after exactly 100 ms. The result
    is [true], or the message of the [Error] thrown, together with the
    time at which the promise settles. [polls] is the number of polls
    left. *)
Fixpoint poll (offsetHeight : nat → Z) (polls : nat) (now : nat)
  : (string + bool) * nat :=
  match polls with
  | O => (inl "Container failed to initialize with proper dimensions", now)
  | S polls' =>
      if bool_decide (0 < offsetHeight now)%Z then (inr true, now)
      else poll offsetHeight polls' (now + 100)
  end.

Definition waitForContainerSize (offsetHeight : nat → Z) (now : nat)
  : (string + bool) * nat :=
  poll offsetHeight 20 now.

Lemma poll_spec offsetHeight polls : ∀ now,
  let r := poll offsetHeight polls now in
  match r.1 with
  | inr ready =>
      ready = true
      ∧ ∃ i, i < polls ∧ r.2 = now + 100 * i
             ∧ (0 < offsetHeight (now + 100 * i)%nat)%Z
             ∧ ∀ j, j < i → (offsetHeight (now + 100 * j)%nat ≤ 0)%Z
  | inl _ =>
      r.2 = now + 100 * polls
      ∧ ∀ j, j < polls → (offsetHeight (now + 100 * j)%nat ≤ 0)%Z
  end.
Proof.
  induction polls as [|polls IH]; intros now; cbn [poll fst snd].
  - split; [lia|]. intros j Hj. lia.
  - case_bool_decide as Hh; cbn [fst snd].
    + split; [done|]. exists 0. replace (now + 100 * 0) with now by lia.
      split; [lia|]. split; [done|]. split; [done|]. intros j Hj. lia.
    + specialize (IH (now + 100)). cbv zeta in IH.
      destruct (poll offsetHeight polls (now + 100)) as [[msg|ready] t];
        cbn [fst snd] in *.
      * destruct IH as [-> IH]. split; [lia|].
        intros [|j] Hj.
        -- replace (now + 100 * 0) with now by lia. lia.
        -- replace (now + 100 * S j) with (now + 100 + 100 * j) by lia.
           apply IH. lia.
      * destruct IH as (-> & i & Hi & -> & Hpos & Hbefore).
        split; [done|]. exists (S i).
        replace (now + 100 * S i) with (now + 100 + 100 * i) by lia.
        split; [lia|]. split; [done|]. split; [done|].
        intros [|j] Hj.
        -- replace (now + 100 * 0) with now by lia. lia.
        -- replace (now + 100 * S j) with (now + 100 + 100 * j) by lia.
           apply Hbefore. lia.
Qed.

(** X23. Waiting for the container is bounded. The height is looked at
    up to 20 times, 100 ms apart: the wait ends with [true] at the first
    look that finds a positive height, and after 2000 ms with an error if
    none of the 20 looks does; a container that gets its height later than
    1900 ms after the start is given up on. *)
Theorem container_wait_is_bounded (offsetHeight : nat → Z) (now : nat) :
  let r := waitForContainerSize offsetHeight now in
  match r.1 with
  | inr ready =>
      ready = true
      ∧ ∃ i, i < 20 ∧ r.2 = now + 100 * i
             ∧ (0 < offsetHeight (now + 100 * i)%nat)%Z
             ∧ ∀ j, j < i → (offsetHeight (now + 100 * j)%nat ≤ 0)%Z
  | inl _ =>
      r.2 = now + 2000
      ∧ ∀ j, j < 20 → (offsetHeight (now + 100 * j)%nat ≤ 0)%Z
  end.
Proof. apply (poll_spec offsetHeight 20 now). Qed.

End Initialization.
